(** * exoTM: epoch managers, transaction steps and the STMCAS singly-linked
      ordered map

    A shallow embedding of

    - [epochs.h]: [BasicEpochManager], [IrrevocQuiesceEpochManager] and
      [CCSTMEpochManager];
    - [raii.h]: the [Step] / [RStep] / [WStep] wrappers;
    - [ds/STMCAS/slist_omap.h]: [slist_omap::get_leq] and
      [slist_omap::insert].

    Shared memory is explicit.  Every operation of an epoch manager is cut
    at its accesses to shared memory: a thread is a program counter plus its
    private fields, one [step] performs one access, and a schedule
    interleaves the steps of the thread with writes of the other threads. *)

From Stdlib Require Import NArith ZArith Lia.
From stdpp Require Import base option list gmap sorting.

#[local] Open Scope N_scope.

(** ** Machine words *)

(** [uintptr_t] and [uint64_t] are 64-bit unsigned integers. *)
Definition WORD : N := 2 ^ 64.
Definition wrap64 (n : N) : N := n mod WORD.

(** [(uintptr_t)-1], the value the epoch table holds for a thread that is
    not in a transaction. *)
Definition IDLE : N := WORD - 1.

(** [INT_MAX]: [MAXTHREADS] is an [int] template parameter. *)
Definition INT_MAX : N := 2 ^ 31 - 1.

(** * Array-based epoch managers *)

Module Epochs.

(** The two policies that share the epoch table.  [IrrevocQuiesce] inherits
    from [Basic] and overrides every operation but the constructor. *)
Inductive Policy := Basic | IrrevocQuiesce.

(** [IrrevocQuiesceEpochManager::Globals]: the fields of
    [BasicEpochManager::Globals] followed by the token. *)
Record Globals := mkGlobals {
  idGenerator : N;
  epochs : list N;
  token : N
}.

(** The per-thread manager object.  [pc] is where the thread stands inside
    the member function it is executing. *)
Inductive Op :=
| OpIsIrrevoc
| OpClearEpoch
| OpSetEpoch (time : N)
| OpOnBegin (time : N)
| OpOnCommitIrrevoc
| OpExistIrrevoc
| OpTryIrrevoc
| OpQuiesce (time : N).

Inductive PC :=
| Idle
| Entry (op : Op)
| OnBegin_test (time : N)
| OnBegin_clear (time : N)
| OnBegin_spin (time : N)
| Commit_token
| Commit_flag
| Try_cas
| Try_count
| Try_wait (count i : N)
| Quiesce_wait (time count i : N)
| Aborted.

Record Manager := mkManager {
  id : N;
  hasToken : bool;
  pc : PC
}.

(** What a step does to shared memory, and what a call returns. *)
Inductive Loc := LIdGenerator | LEpoch (i : N) | LToken.

Inductive Event :=
| EvCall (op : Op)
| EvRead (l : Loc) (v : N)
| EvWrite (l : Loc) (v : N)
| EvCas (l : Loc) (expected desired : N) (ok : bool)
| EvRet (op : Op) (r : option bool)
| EvTerminate.

#[global] Instance Op_eq_dec : EqDecision Op.
Proof. solve_decision. Defined.
#[global] Instance PC_eq_dec : EqDecision PC.
Proof. solve_decision. Defined.
#[global] Instance Loc_eq_dec : EqDecision Loc.
Proof. solve_decision. Defined.
#[global] Instance Event_eq_dec : EqDecision Event.
Proof. solve_decision. Defined.

Definition set_idGenerator (v : N) (g : Globals) : Globals :=
  mkGlobals v (epochs g) (token g).
Definition set_epochs (e : list N) (g : Globals) : Globals :=
  mkGlobals (idGenerator g) e (token g).
Definition set_token (v : N) (g : Globals) : Globals :=
  mkGlobals (idGenerator g) (epochs g) v.

Definition set_hasToken (b : bool) (m : Manager) : Manager :=
  mkManager (id m) b (pc m).
Definition goto (p : PC) (m : Manager) : Manager :=
  mkManager (id m) (hasToken m) p.

(** [g.epochs[i].val]; an index outside the array is undefined behaviour,
    here [None]. *)
Definition slot (g : Globals) (i : N) : option N := epochs g !! N.to_nat i.

Definition write_slot (g : Globals) (i v : N) : option Globals :=
  if decide (N.to_nat i < length (epochs g))%nat
  then Some (set_epochs (<[N.to_nat i := v]> (epochs g)) g)
  else None.

Section WithMaxThreads.

Variable MAXTHREADS : N.

(** [Globals()]: zero the generator and the token, fill the table with -1. *)
Definition Globals_init : Globals :=
  mkGlobals 0 (replicate (N.to_nat MAXTHREADS) IDLE) 0.

(** [BasicEpochManager(Globals &g) : id(g.idGenerator.val++)]: the
    generator is incremented in every case; [None] is [std::terminate()]. *)
Definition BasicEpochManager (g : Globals) : Globals * option N :=
  let id := idGenerator g in
  let g' := set_idGenerator (wrap64 (id + 1)) g in
  if (MAXTHREADS <=? id)%N then (g', None) else (g', Some id).

(** [IrrevocQuiesceEpochManager(Globals &g)] forwards to the base
    constructor and clears [hasToken]. *)
Definition construct (g : Globals) : Globals * option Manager :=
  let '(g', r) := BasicEpochManager g in
  (g', (λ i, mkManager i false Idle) <$> r).

(** Construct [n] managers one after the other; the process is gone as soon
    as one constructor terminates it. *)
Fixpoint spawn (n : nat) (g : Globals) : option (Globals * list Manager) :=
  match n with
  | O => Some (g, [])
  | S n' =>
      match construct g with
      | (g', Some m) =>
          match spawn n' g' with
          | Some (g'', ms) => Some (g'', m :: ms)
          | None => None
          end
      | (_, None) => None
      end
  end.

(** *** One access to shared memory at a time *)

Definition Config : Type := Globals * Manager * list Event.

(** Leave the member function [op] with result [r] ([None] for [void]). *)
Definition ret (op : Op) (r : option bool) (g : Globals) (m : Manager)
    (evs : list Event) : option Config :=
  Some (g, goto Idle m, evs ++ [EvRet op r]).

Definition jump (p : PC) (g : Globals) (m : Manager) (evs : list Event)
    : option Config :=
  Some (g, goto p m, evs).

(** [BasicEpochManager]: every operation is a no-op that touches no shared
    memory, except [onCommitIrrevoc], which is [std::terminate()]. *)
Definition step_Basic (g : Globals) (m : Manager) : option Config :=
  match pc m with
  | Entry OpIsIrrevoc => ret OpIsIrrevoc (Some false) g m []
  | Entry OpClearEpoch => ret OpClearEpoch None g m []
  | Entry (OpSetEpoch time) => ret (OpSetEpoch time) None g m []
  | Entry (OpOnBegin time) => ret (OpOnBegin time) None g m []
  | Entry OpOnCommitIrrevoc => jump Aborted g m [EvTerminate]
  | Entry (OpQuiesce time) => ret (OpQuiesce time) None g m []
  | Entry OpExistIrrevoc => ret OpExistIrrevoc (Some false) g m []
  | Entry OpTryIrrevoc => ret OpTryIrrevoc (Some false) g m []
  | _ => None
  end.

(** [IrrevocQuiesceEpochManager::clearEpoch] and [setEpoch]: one store to
    the caller's slot. *)
Definition clearEpoch (g : Globals) (m : Manager) : option Globals :=
  write_slot g (id m) IDLE.

Definition setEpoch (g : Globals) (m : Manager) (time : N) : option Globals :=
  write_slot g (id m) time.

(** [IrrevocQuiesceEpochManager], statement by statement.

<<
  onBegin:          Entry (OpOnBegin time)   setEpoch(g, time);
                    OnBegin_test time        if (!g.token.val) break;
                    OnBegin_clear time       clearEpoch(g);
                    OnBegin_spin time        while (g.token.val) ;
  onCommitIrrevoc:  Entry OpOnCommitIrrevoc  clearEpoch(g);
                    Commit_token             g.token.val = 0;
                    Commit_flag              hasToken = false;
  tryIrrevoc:       Entry OpTryIrrevoc       if (hasToken) return true;
                                             if (g.token.val || ...
                    Try_cas                  ... !compare_exchange_strong(0, 1))
                    Try_count                count = g.idGenerator.val;
                    Try_wait count i         for (i ...) if (i != id)
                                               while (g.epochs[i].val != -1) ;
                                             hasToken = true; return true;
  quiesce:          Entry (OpQuiesce time)   count = g.idGenerator.val;
                    Quiesce_wait time count i
                                             for (i ...) if (i != id)
                                               while (g.epochs[i].val < time) ;
>>
    In the two loops [i < count] holds before [++i], so [i + 1] does not
    wrap. *)
Definition step_IrrevocQuiesce (g : Globals) (m : Manager) : option Config :=
  match pc m with
  | Idle | Aborted => None
  | Entry OpIsIrrevoc => ret OpIsIrrevoc (Some (hasToken m)) g m []
  | Entry OpClearEpoch =>
      g' ← clearEpoch g m;
      ret OpClearEpoch None g' m [EvWrite (LEpoch (id m)) IDLE]
  | Entry (OpSetEpoch time) =>
      g' ← setEpoch g m time;
      ret (OpSetEpoch time) None g' m [EvWrite (LEpoch (id m)) time]
  | Entry (OpOnBegin time) =>
      g' ← setEpoch g m time;
      jump (OnBegin_test time) g' m [EvWrite (LEpoch (id m)) time]
  | OnBegin_test time =>
      if decide (token g = 0)
      then ret (OpOnBegin time) None g m [EvRead LToken (token g)]
      else jump (OnBegin_clear time) g m [EvRead LToken (token g)]
  | OnBegin_clear time =>
      g' ← clearEpoch g m;
      jump (OnBegin_spin time) g' m [EvWrite (LEpoch (id m)) IDLE]
  | OnBegin_spin time =>
      if decide (token g = 0)
      then jump (Entry (OpOnBegin time)) g m [EvRead LToken (token g)]
      else jump (OnBegin_spin time) g m [EvRead LToken (token g)]
  | Entry OpOnCommitIrrevoc =>
      g' ← clearEpoch g m;
      jump Commit_token g' m [EvWrite (LEpoch (id m)) IDLE]
  | Commit_token => jump Commit_flag (set_token 0 g) m [EvWrite LToken 0]
  | Commit_flag => ret OpOnCommitIrrevoc None g (set_hasToken false m) []
  | Entry OpExistIrrevoc =>
      ret OpExistIrrevoc (Some (bool_decide (token g ≠ 0))) g m
        [EvRead LToken (token g)]
  | Entry OpTryIrrevoc =>
      if hasToken m then ret OpTryIrrevoc (Some true) g m []
      else if decide (token g = 0)
      then jump Try_cas g m [EvRead LToken (token g)]
      else ret OpTryIrrevoc (Some false) g m [EvRead LToken (token g)]
  | Try_cas =>
      if decide (token g = 0)
      then jump Try_count (set_token 1 g) m [EvCas LToken 0 1 true]
      else ret OpTryIrrevoc (Some false) g m [EvCas LToken 0 1 false]
  | Try_count =>
      jump (Try_wait (idGenerator g) 0) g m
        [EvRead LIdGenerator (idGenerator g)]
  | Try_wait count i =>
      if decide (i < count)%N then
        if decide (i = id m) then jump (Try_wait count (i + 1)) g m []
        else
          v ← slot g i;
          if decide (v = IDLE)
          then jump (Try_wait count (i + 1)) g m [EvRead (LEpoch i) v]
          else jump (Try_wait count i) g m [EvRead (LEpoch i) v]
      else ret OpTryIrrevoc (Some true) g (set_hasToken true m) []
  | Entry (OpQuiesce time) =>
      jump (Quiesce_wait time (idGenerator g) 0) g m
        [EvRead LIdGenerator (idGenerator g)]
  | Quiesce_wait time count i =>
      if decide (i < count)%N then
        if decide (i = id m) then jump (Quiesce_wait time count (i + 1)) g m []
        else
          v ← slot g i;
          if decide (v < time)%N
          then jump (Quiesce_wait time count i) g m [EvRead (LEpoch i) v]
          else jump (Quiesce_wait time count (i + 1)) g m [EvRead (LEpoch i) v]
      else ret (OpQuiesce time) None g m []
  end.

Definition step (p : Policy) : Globals → Manager → option Config :=
  match p with
  | Basic => step_Basic
  | IrrevocQuiesce => step_IrrevocQuiesce
  end.

(** *** The other threads

    What the managers of the other threads do to the shared memory: a store
    to an epoch slot, a change of the token, the construction of one more
    manager. *)
Inductive EnvAct :=
| EnvEpoch (i v : N)
| EnvToken (v : N)
| EnvConstruct.

Definition env_apply (g : Globals) (a : EnvAct) : option Globals :=
  match a with
  | EnvEpoch i v => write_slot g i v
  | EnvToken v => Some (set_token v g)
  | EnvConstruct =>
      match BasicEpochManager g with
      | (g', Some _) => Some g'
      | (_, None) => None
      end
  end.

(** The managers have distinct ids, and a manager stores to its own slot
    only: no other thread writes slot [me]. *)
Definition foreign (me : N) (a : EnvAct) : bool :=
  match a with
  | EnvEpoch i _ => bool_decide (i ≠ me)
  | _ => true
  end.

(** A schedule: the thread enters a member function, performs its next
    access, or another thread acts. *)
Inductive Item :=
| Invoke (op : Op)
| Step
| Env (a : EnvAct).

Definition is_env_ok (me : N) (it : Item) : bool :=
  match it with
  | Env a => foreign me a
  | _ => true
  end.

Definition run1 (p : Policy) (g : Globals) (m : Manager) (it : Item)
    : option Config :=
  match it with
  | Invoke op =>
      if decide (pc m = Idle) then jump (Entry op) g m [EvCall op] else None
  | Step => step p g m
  | Env a => g' ← env_apply g a; Some (g', m, [])
  end.

Fixpoint run (p : Policy) (g : Globals) (m : Manager) (sched : list Item)
    : option Config :=
  match sched with
  | [] => Some (g, m, [])
  | it :: rest =>
      '(g1, m1, e1) ← run1 p g m it;
      '(g2, m2, e2) ← run p g1 m1 rest;
      Some (g2, m2, e1 ++ e2)
  end.

(** *** Whole calls

    A call that runs alone, from its entry to its return: [None] when it
    has not returned within [fuel] accesses. *)
Fixpoint finish (p : Policy) (fuel : nat) (g : Globals) (m : Manager)
    : option Config :=
  if decide (pc m = Idle) then Some (g, m, [])
  else
    match fuel with
    | O => None
    | S fuel' =>
        '(g1, m1, e1) ← step p g m;
        '(g2, m2, e2) ← finish p fuel' g1 m1;
        Some (g2, m2, e1 ++ e2)
    end.

Definition call (p : Policy) (fuel : nat) (g : Globals) (m : Manager) (op : Op)
    : option Config :=
  '(g1, m1, e1) ← run1 p g m (Invoke op);
  '(g2, m2, e2) ← finish p fuel g1 m1;
  Some (g2, m2, e1 ++ e2).

(** The value a call returned: the last event of its trace. *)
Definition returned (evs : list Event) : option (option bool) :=
  match last evs with
  | Some (EvRet _ r) => Some r
  | _ => None
  end.

(** The whole process: the shared memory and every thread's manager. *)
Record World := mkWorld {
  globals : Globals;
  threads : list Manager
}.

Definition World_init (n : nat) : option World :=
  '(g, ms) ← spawn n Globals_init; Some (mkWorld g ms).

(** Thread [k] performs the call [op] to its end. *)
Definition call_by (p : Policy) (fuel : nat) (w : World) (k : nat) (op : Op)
    : option (World * option (option bool)) :=
  m ← threads w !! k;
  '(g', m', evs) ← call p fuel (globals w) m op;
  Some (mkWorld g' (<[k := m']> (threads w)), returned evs).

Fixpoint calls_by (p : Policy) (fuel : nat) (w : World)
    (cs : list (nat * Op)) : option World :=
  match cs with
  | [] => Some w
  | (k, op) :: rest =>
      '(w', _) ← call_by p fuel w k op;
      calls_by p fuel w' rest
  end.

(** *** Vocabulary of the properties *)

(** What the manager's program counter says about its own slot, whatever
    the other threads do. *)
Definition onBegin_inv (g : Globals) (m : Manager) : Prop :=
  match pc m with
  | OnBegin_test time => slot g (id m) = Some time
  | OnBegin_spin _ => slot g (id m) = Some IDLE
  | _ => True
  end.

(** The step a thread holds, read off the calls it has completed:
    [onBegin(time)] and [setEpoch(time)] open a step that began at [time];
    [clearEpoch] and [onCommitIrrevoc] end it. *)
Definition live_step_after (acc : option N) (e : Event) : option N :=
  match e with
  | EvRet (OpOnBegin time) _ | EvRet (OpSetEpoch time) _ => Some time
  | EvRet OpClearEpoch _ | EvRet OpOnCommitIrrevoc _ => None
  | _ => acc
  end.

Definition live_step (tr : list Event) : option N :=
  foldl live_step_after None tr.

(** No begin time of the schedule is the idle sentinel itself. *)
Definition begins_not_idle (it : Item) : bool :=
  match it with
  | Invoke (OpOnBegin time) | Invoke (OpSetEpoch time) =>
      bool_decide (time ≠ IDLE)
  | _ => true
  end.

(** Between two calls the slot holds the begin time of the live step, or
    -1 when there is none; inside a call it holds what the last store of
    the call left there. *)
Definition own_slot_inv (g : Globals) (m : Manager) (tr : list Event) : Prop :=
  match pc m with
  | OnBegin_test time => slot g (id m) = Some time
  | OnBegin_spin _ | Commit_token | Commit_flag => slot g (id m) = Some IDLE
  | Entry (OpOnBegin _) | Entry (OpSetEpoch _) | Entry OpClearEpoch
  | Entry OpOnCommitIrrevoc | OnBegin_clear _ | Aborted => True
  | _ => slot g (id m) = Some (default IDLE (live_step tr))
  end.

Definition times_inv (m : Manager) (tr : list Event) : Prop :=
  live_step tr ≠ Some IDLE
  ∧ match pc m with
    | Entry (OpOnBegin time) | Entry (OpSetEpoch time)
    | OnBegin_test time | OnBegin_clear time | OnBegin_spin time =>
        time ≠ IDLE
    | _ => True
    end.

Definition is_invoke (it : Item) : bool :=
  match it with Invoke _ => true | _ => false end.

Definition no_invoke (it : Item) : bool := negb (is_invoke it).

(** Slot [j] was read and found at or past [time]. *)
Definition seen_past (time j : N) (tr : list Event) : Prop :=
  ∃ v, EvRead (LEpoch j) v ∈ tr ∧ time ≤ v.

(** Slot [j] was read and found idle. *)
Definition seen_idle (j : N) (tr : list Event) : Prop :=
  EvRead (LEpoch j) IDLE ∈ tr.

Definition never_read (j : N) (tr : list Event) : Prop :=
  ∀ v, EvRead (LEpoch j) v ∉ tr.

Definition not_returned (tr : list Event) : Prop :=
  ∀ op r, EvRet op r ∉ tr.

(** Where a call of [quiesce(time)] stands, for the caller [me] and the
    [base] managers constructed before the call. *)
Definition quiesce_inv (me base time : N)
    (g : Globals) (m : Manager) (tr : list Event) : Prop :=
  base ≤ idGenerator g ∧ id m = me ∧ never_read me tr
  ∧ match pc m with
    | Entry (OpQuiesce t) => t = time
    | Quiesce_wait t count i =>
        t = time ∧ base ≤ count
        ∧ ∀ j, j < i → j ≠ me → seen_past time j tr
    | Idle => ∀ j, j < base → j ≠ me → seen_past time j tr
    | _ => False
    end.

(** Where a call of [tryIrrevoc] stands, for a caller that did not hold
    the token. *)
Definition tryIrrevoc_inv (me base : N)
    (g : Globals) (m : Manager) (tr : list Event) : Prop :=
  base ≤ idGenerator g ∧ id m = me ∧ never_read me tr
  ∧ match pc m with
    | Entry OpTryIrrevoc | Try_cas =>
        hasToken m = false ∧ not_returned tr
        ∧ EvCas LToken 0 1 true ∉ tr
    | Try_count =>
        hasToken m = false ∧ not_returned tr
        ∧ EvCas LToken 0 1 true ∈ tr
    | Try_wait count i =>
        hasToken m = false ∧ not_returned tr
        ∧ EvCas LToken 0 1 true ∈ tr ∧ base ≤ count
        ∧ ∀ j, j < i → j ≠ me → seen_idle j tr
    | Idle =>
        (EvRet OpTryIrrevoc (Some true) ∈ tr →
           hasToken m = true ∧ EvCas LToken 0 1 true ∈ tr
           ∧ ∀ j, j < base → j ≠ me → seen_idle j tr)
        ∧ (EvRet OpTryIrrevoc (Some true) ∉ tr →
             hasToken m = false ∧ EvCas LToken 0 1 true ∉ tr)
    | _ => False
    end.

Definition holds_token (w : World) (k : nat) : Prop :=
  ∃ m, threads w !! k = Some m ∧ hasToken m = true.

Definition at_most_one_holder (w : World) : Prop :=
  ∀ k1 k2, holds_token w k1 → holds_token w k2 → k1 = k2.

(** Between calls: every manager is outside its member functions, and
    the token is taken whenever some manager holds it. *)
Definition token_inv (w : World) : Prop :=
  (∀ k m, threads w !! k = Some m → pc m = Idle)
  ∧ at_most_one_holder w
  ∧ (∀ k, holds_token w k → token (globals w) ≠ 0).

(** States reached by whole [tryIrrevoc] and [onCommitIrrevoc] calls of
    [n] registered threads, in any order and by any thread. *)
Inductive reachable_any (n : nat) : World → Prop :=
| any_init w :
    World_init n = Some w → reachable_any n w
| any_tryIrrevoc w k fuel w' r :
    reachable_any n w →
    call_by IrrevocQuiesce fuel w k OpTryIrrevoc = Some (w', r) →
    reachable_any n w'
| any_onCommitIrrevoc w k fuel w' r :
    reachable_any n w →
    call_by IrrevocQuiesce fuel w k OpOnCommitIrrevoc = Some (w', r) →
    reachable_any n w'.

(** The same, where [onCommitIrrevoc] is called by the thread that holds
    the token only, as its documentation has it ("when a thread commits as
    irrevocable"). *)
Inductive reachable (n : nat) : World → Prop :=
| reach_init w :
    World_init n = Some w → reachable n w
| reach_tryIrrevoc w k fuel w' r :
    reachable n w →
    call_by IrrevocQuiesce fuel w k OpTryIrrevoc = Some (w', r) →
    reachable n w'
| reach_onCommitIrrevoc w k fuel w' r :
    reachable n w →
    holds_token w k →
    call_by IrrevocQuiesce fuel w k OpOnCommitIrrevoc = Some (w', r) →
    reachable n w'.

End WithMaxThreads.

End Epochs.

(** * The list-based epoch manager of CCSTM *)

Module CCSTM.

(** A thread descriptor is known by its address.  Of a descriptor, the
    other threads read [epoch.next] and the start time that
    [exo.get_start_time()] returns. *)
Record Descriptor := mkDescriptor {
  next : option nat;
  start_time : N
}.

(** [CCSTMEpochManager::Globals] and the descriptors it links. *)
Record Globals := mkGlobals {
  all_threads : option nat;
  token : N;
  descriptors : gmap nat Descriptor
}.

Inductive Op :=
| OpConstruct
| OpIsIrrevoc
| OpOnCommitIrrevoc
| OpExistIrrevoc
| OpTryIrrevoc
| OpQuiesce (time : N).

Inductive PC :=
| Idle
| Entry (op : Op)
| Construct_cas (curr_head : option nat)
| Commit_flag
| Try_cas
| Try_load
| Try_wait (curr : option nat)
| Try_next (curr : nat)
| Quiesce_wait (time : N) (curr : option nat)
| Quiesce_next (time : N) (curr : nat).

(** The private part of a thread's [CCSTMEpochManager]; [me] is the
    descriptor the manager belongs to. *)
Record Manager := mkManager {
  me : nat;
  hasToken : bool;
  pc : PC
}.

Inductive Event :=
| EvCall (op : Op)
| EvLoadThreads (head : option nat)
| EvCasThreads (expected : option nat) (desired : nat) (ok : bool)
| EvWriteNext (d : nat) (n : option nat)
| EvReadNext (d : nat) (n : option nat)
| EvReadStart (d : nat) (v : N)
| EvReadToken (v : N)
| EvWriteToken (v : N)
| EvCasToken (expected desired : N) (ok : bool)
| EvRet (op : Op) (r : option bool).

#[global] Instance Op_eq_dec : EqDecision Op.
Proof. solve_decision. Defined.
#[global] Instance PC_eq_dec : EqDecision PC.
Proof. solve_decision. Defined.
#[global] Instance Event_eq_dec : EqDecision Event.
Proof. solve_decision. Defined.

Definition set_all_threads (h : option nat) (g : Globals) : Globals :=
  mkGlobals h (token g) (descriptors g).
Definition set_token (v : N) (g : Globals) : Globals :=
  mkGlobals (all_threads g) v (descriptors g).
Definition set_descriptors (ds : gmap nat Descriptor) (g : Globals) : Globals :=
  mkGlobals (all_threads g) (token g) ds.

Definition set_hasToken (b : bool) (m : Manager) : Manager :=
  mkManager (me m) b (pc m).
Definition goto (p : PC) (m : Manager) : Manager :=
  mkManager (me m) (hasToken m) p.

(** [d->epoch.next = n]. *)
Definition write_next (g : Globals) (d : nat) (n : option nat) : option Globals :=
  desc ← descriptors g !! d;
  Some (set_descriptors (<[d := mkDescriptor n (start_time desc)]> (descriptors g)) g).

(** [d->exo.get_start_time()]; a dangling [d] is undefined behaviour, here
    [None]. *)
Definition get_start_time (g : Globals) (d : nat) : option N :=
  start_time <$> descriptors g !! d.

Definition get_next (g : Globals) (d : nat) : option (option nat) :=
  next <$> descriptors g !! d.

Section WithExoTM.

(** [EXOTM::END_OF_TIME], the start time of a thread that is not in a
    transaction, and the template flag [QUIESCE]. *)
Variable END_OF_TIME : N.
Variable QUIESCE : bool.

Definition Config : Type := Globals * Manager * list Event.

Definition ret (op : Op) (r : option bool) (g : Globals) (m : Manager)
    (evs : list Event) : option Config :=
  Some (g, goto Idle m, evs ++ [EvRet op r]).

Definition jump (p : PC) (g : Globals) (m : Manager) (evs : list Event)
    : option Config :=
  Some (g, goto p m, evs).

(** [CCSTMEpochManager], statement by statement.

<<
  constructor:      Entry OpConstruct        curr_head = all_threads.load();
                                             next = curr_head;
                    Construct_cas curr_head  if (all_threads.compare_exchange_strong
                                                   (curr_head, me)) break;
  onCommitIrrevoc:  Entry OpOnCommitIrrevoc  g.token.val = 0;
                    Commit_flag              hasToken = false;
  tryIrrevoc:       Entry OpTryIrrevoc       if (hasToken) return true;
                                             if (g.token.val || ...
                    Try_cas                  ... !compare_exchange_strong(0, 1))
                    Try_load                 curr = g.all_threads.load();
                    Try_wait curr            while (curr != nullptr)
                                               if (curr != me)
                                                 while (curr->exo.get_start_time()
                                                        != END_OF_TIME) ;
                    Try_next curr              curr = curr->epoch.next;
                                             hasToken = true; return true;
  quiesce:          Entry (OpQuiesce time)   if (!QUIESCE) return;
                                             curr = globals.all_threads.load();
                    Quiesce_wait time curr   while (curr != nullptr)
                                               if (curr != me)
                                                 while (curr->exo.get_start_time()
                                                        < time) ;
                    Quiesce_next time curr     curr = curr->epoch.next;
>> *)
Definition step (g : Globals) (m : Manager) : option Config :=
  match pc m with
  | Idle => None
  | Entry OpConstruct =>
      let curr_head := all_threads g in
      g' ← write_next g (me m) curr_head;
      jump (Construct_cas curr_head) g' m
        [EvLoadThreads curr_head; EvWriteNext (me m) curr_head]
  | Construct_cas curr_head =>
      if decide (all_threads g = curr_head)
      then ret OpConstruct None (set_all_threads (Some (me m)) g) m
             [EvCasThreads curr_head (me m) true]
      else jump (Entry OpConstruct) g m [EvCasThreads curr_head (me m) false]
  | Entry OpIsIrrevoc => ret OpIsIrrevoc (Some (hasToken m)) g m []
  | Entry OpOnCommitIrrevoc =>
      jump Commit_flag (set_token 0 g) m [EvWriteToken 0]
  | Commit_flag => ret OpOnCommitIrrevoc None g (set_hasToken false m) []
  | Entry OpExistIrrevoc =>
      ret OpExistIrrevoc (Some (bool_decide (token g ≠ 0))) g m
        [EvReadToken (token g)]
  | Entry OpTryIrrevoc =>
      if hasToken m then ret OpTryIrrevoc (Some true) g m []
      else if decide (token g = 0)
      then jump Try_cas g m [EvReadToken (token g)]
      else ret OpTryIrrevoc (Some false) g m [EvReadToken (token g)]
  | Try_cas =>
      if decide (token g = 0)
      then jump Try_load (set_token 1 g) m [EvCasToken 0 1 true]
      else ret OpTryIrrevoc (Some false) g m [EvCasToken 0 1 false]
  | Try_load =>
      jump (Try_wait (all_threads g)) g m [EvLoadThreads (all_threads g)]
  | Try_wait None => ret OpTryIrrevoc (Some true) g (set_hasToken true m) []
  | Try_wait (Some curr) =>
      if decide (curr = me m) then jump (Try_next curr) g m []
      else
        v ← get_start_time g curr;
        if decide (v = END_OF_TIME)
        then jump (Try_next curr) g m [EvReadStart curr v]
        else jump (Try_wait (Some curr)) g m [EvReadStart curr v]
  | Try_next curr =>
      n ← get_next g curr;
      jump (Try_wait n) g m [EvReadNext curr n]
  | Entry (OpQuiesce time) =>
      if QUIESCE
      then jump (Quiesce_wait time (all_threads g)) g m
             [EvLoadThreads (all_threads g)]
      else ret (OpQuiesce time) None g m []
  | Quiesce_wait time None => ret (OpQuiesce time) None g m []
  | Quiesce_wait time (Some curr) =>
      if decide (curr = me m) then jump (Quiesce_next time curr) g m []
      else
        v ← get_start_time g curr;
        if decide (v < time)
        then jump (Quiesce_wait time (Some curr)) g m [EvReadStart curr v]
        else jump (Quiesce_next time curr) g m [EvReadStart curr v]
  | Quiesce_next time curr =>
      n ← get_next g curr;
      jump (Quiesce_wait time n) g m [EvReadNext curr n]
  end.

(** What the other threads do to the shared memory: the transaction
    runtime of thread [d] changes its start time, a thread takes or
    releases the token, the constructor of a new descriptor [d] links it
    in front of the list. *)
Inductive EnvAct :=
| EnvStart (d : nat) (v : N)
| EnvToken (v : N)
| EnvRegister (d : nat) (v : N).

Definition env_apply (g : Globals) (a : EnvAct) : option Globals :=
  match a with
  | EnvStart d v =>
      desc ← descriptors g !! d;
      Some (set_descriptors (<[d := mkDescriptor (next desc) v]> (descriptors g)) g)
  | EnvToken v => Some (set_token v g)
  | EnvRegister d v =>
      match descriptors g !! d with
      | Some _ => None
      | None =>
          Some (mkGlobals (Some d) (token g)
                  (<[d := mkDescriptor (all_threads g) v]> (descriptors g)))
      end
  end.

Inductive Item :=
| Invoke (op : Op)
| Step
| Env (a : EnvAct).

Definition is_invoke (it : Item) : bool :=
  match it with Invoke _ => true | _ => false end.

Definition no_invoke (it : Item) : bool := negb (is_invoke it).

Definition run1 (g : Globals) (m : Manager) (it : Item) : option Config :=
  match it with
  | Invoke op =>
      if decide (pc m = Idle) then jump (Entry op) g m [EvCall op] else None
  | Step => step g m
  | Env a => g' ← env_apply g a; Some (g', m, [])
  end.

Fixpoint run (g : Globals) (m : Manager) (sched : list Item) : option Config :=
  match sched with
  | [] => Some (g, m, [])
  | it :: rest =>
      '(g1, m1, e1) ← run1 g m it;
      '(g2, m2, e2) ← run g1 m1 rest;
      Some (g2, m2, e1 ++ e2)
  end.

Fixpoint finish (fuel : nat) (g : Globals) (m : Manager) : option Config :=
  if decide (pc m = Idle) then Some (g, m, [])
  else
    match fuel with
    | O => None
    | S fuel' =>
        '(g1, m1, e1) ← step g m;
        '(g2, m2, e2) ← finish fuel' g1 m1;
        Some (g2, m2, e1 ++ e2)
    end.

Definition call (fuel : nat) (g : Globals) (m : Manager) (op : Op)
    : option Config :=
  '(g1, m1, e1) ← run1 g m (Invoke op);
  '(g2, m2, e2) ← finish fuel g1 m1;
  Some (g2, m2, e1 ++ e2).

Definition returned (evs : list Event) : option (option bool) :=
  match last evs with
  | Some (EvRet _ r) => Some r
  | _ => None
  end.

(** *** Vocabulary of the properties *)

(** The descriptors linked from [p], in the order of the list. *)
Inductive chain (g : Globals) : option nat → list nat → Prop :=
| chain_nil : chain g None []
| chain_cons d desc l :
    descriptors g !! d = Some desc →
    chain g (next desc) l →
    chain g (Some d) (d :: l).

Definition seen_past (time : N) (d : nat) (tr : list Event) : Prop :=
  ∃ v, EvReadStart d v ∈ tr ∧ time ≤ v.

Definition seen_idle (d : nat) (tr : list Event) : Prop :=
  EvReadStart d END_OF_TIME ∈ tr.

Definition never_read (d : nat) (tr : list Event) : Prop :=
  ∀ v, EvReadStart d v ∉ tr.

Definition not_returned (tr : list Event) : Prop :=
  ∀ op r, EvRet op r ∉ tr.

(** Where a walk over the list stands: [rest] is still to be visited, and
    every registered descriptor other than the caller's is either in
    [rest] or has passed the test [seen]. *)
Definition walk_inv (seen : nat → list Event → Prop) (registered : list nat)
    (g : Globals) (m : Manager) (curr : option nat) (tr : list Event) : Prop :=
  ∃ rest, chain g curr rest
    ∧ ∀ d, d ∈ registered → d ≠ me m → d ∈ rest ∨ seen d tr.

Definition quiesce_inv (self : nat) (registered : list nat) (time : N)
    (g : Globals) (m : Manager) (tr : list Event) : Prop :=
  me m = self ∧ never_read self tr
  ∧ (∃ l, chain g (all_threads g) l ∧ ∀ d, d ∈ registered → d ∈ l)
  ∧ match pc m with
    | Entry (OpQuiesce t) => t = time
    | Quiesce_wait t curr =>
        t = time ∧ walk_inv (seen_past time) registered g m curr tr
    | Quiesce_next t curr =>
        t = time ∧ walk_inv (seen_past time) registered g m (Some curr) tr
        ∧ (curr ≠ self → seen_past time curr tr)
    | Idle => ∀ d, d ∈ registered → d ≠ self → seen_past time d tr
    | _ => False
    end.

Definition tryIrrevoc_inv (self : nat) (registered : list nat)
    (g : Globals) (m : Manager) (tr : list Event) : Prop :=
  me m = self ∧ never_read self tr
  ∧ (∃ l, chain g (all_threads g) l ∧ ∀ d, d ∈ registered → d ∈ l)
  ∧ match pc m with
    | Entry OpTryIrrevoc | Try_cas =>
        hasToken m = false ∧ not_returned tr
        ∧ EvCasToken 0 1 true ∉ tr
    | Try_load =>
        hasToken m = false ∧ not_returned tr ∧ EvCasToken 0 1 true ∈ tr
    | Try_wait curr =>
        hasToken m = false ∧ not_returned tr ∧ EvCasToken 0 1 true ∈ tr
        ∧ walk_inv seen_idle registered g m curr tr
    | Try_next curr =>
        hasToken m = false ∧ not_returned tr ∧ EvCasToken 0 1 true ∈ tr
        ∧ walk_inv seen_idle registered g m (Some curr) tr
        ∧ (curr ≠ self → seen_idle curr tr)
    | Idle =>
        (EvRet OpTryIrrevoc (Some true) ∈ tr →
           hasToken m = true ∧ EvCasToken 0 1 true ∈ tr
           ∧ ∀ d, d ∈ registered → d ≠ self → seen_idle d tr)
        ∧ (EvRet OpTryIrrevoc (Some true) ∉ tr →
             hasToken m = false ∧ EvCasToken 0 1 true ∉ tr)
    | _ => False
    end.

End WithExoTM.

End CCSTM.

(** * Ownership records and steps *)

Module ExoTM.

(** Modelled from the spec: the orec protocol behind [exo] ([exotm.h] is
    not among the sources).  An orec is either unlocked at a version or
    locked by a thread (spec 3, "Ownership Record"). *)
Inductive Orec :=
| Unlocked (version : N)
| Locked (owner : nat).

#[global] Instance Orec_eq_dec : EqDecision Orec.
Proof. solve_decision. Defined.

(** Modelled from the spec: the per-thread [exo] context of a step: the
    thread, the orecs the step acquired, each with its version before (spec 4.1 [release_revert], 4.2 [unwind]). *)
Record Exo := mkExo {
  thread : nat;
  start_time : N;
  acquired : list (nat * N)
}.

Section WithEndOfTime.

Variable END_OF_TIME : N.

(** Modelled from the spec: [check(orec)] "returns the current version if
    unlocked; returns a sentinel END_OF_TIME if the orec is currently
    locked by anyone".  [None]: there is no such object. *)
Definition check_orec (orecs : gmap nat Orec) (obj : nat) : option N :=
  match orecs !! obj with
  | Some (Unlocked v) => Some v
  | Some (Locked _) => Some END_OF_TIME
  | None => None
  end.

(** Modelled from the spec: [check_continuation] "validates that an
    object's orec still equals an expected version". *)
Definition check_continuation (orecs : gmap nat Orec) (obj : nat) (val : N)
    : option bool :=
  match orecs !! obj with
  | Some o => Some (bool_decide (o = Unlocked val))
  | None => None
  end.

(** Modelled from the spec: [acquire_if_version] "atomically transitions
    the orec from unlocked at expected to locked by me, failing (no side
    effect) if the current state differs". *)
Definition acquire_continuation (orecs : gmap nat Orec) (exo : Exo)
    (obj : nat) (val : N) : option (bool * gmap nat Orec * Exo) :=
  match orecs !! obj with
  | Some o =>
      if decide (o = Unlocked val)
      then Some (true, <[obj := Locked (thread exo)]> orecs,
                 mkExo (thread exo) (start_time exo)
                   ((obj, val) :: acquired exo))
      else Some (false, orecs, exo)
  | None => None
  end.

(** Modelled from the spec: [acquire_unconditional] "locks regardless of
    prior version"; the result is a boolean, and an orec that is locked
    already cannot be locked: [false], no side effect. *)
Definition acquire_aggressive (orecs : gmap nat Orec) (exo : Exo) (obj : nat)
    : option (bool * gmap nat Orec * Exo) :=
  match orecs !! obj with
  | Some (Unlocked v) =>
      Some (true, <[obj := Locked (thread exo)]> orecs,
            mkExo (thread exo) (start_time exo) ((obj, v) :: acquired exo))
  | Some (Locked _) => Some (false, orecs, exo)
  | None => None
  end.

(** Modelled from the spec: [release_revert] "unlocks and restores the
    pre-acquisition version". *)
Definition release_revert (orecs : gmap nat Orec) (a : nat * N)
    : gmap nat Orec :=
  <[a.1 := Unlocked a.2]> orecs.

(** Modelled from the spec: [release_advance] "unlocks and advances the
    version". *)
Definition release_advance (orecs : gmap nat Orec) (a : nat * N)
    : gmap nat Orec :=
  <[a.1 := Unlocked (a.2 + 1)]> orecs.

(** Modelled from the spec: [unwind()] "releases every orec the step
    acquired, reverting each to its pre-acquisition version (no visible
    change), and clears the thread's epoch-table publication". *)
Definition unwind (orecs : gmap nat Orec) (exo : Exo)
    : gmap nat Orec * Exo :=
  (foldl release_revert orecs (acquired exo),
   mkExo (thread exo) END_OF_TIME []).

(** Modelled from the spec: the end of a write-step "finalizes the
    commit", releasing what the step still holds. *)
Definition wo_end (orecs : gmap nat Orec) (exo : Exo)
    : gmap nat Orec * Exo :=
  (foldl release_advance orecs (acquired exo),
   mkExo (thread exo) END_OF_TIME []).

End WithEndOfTime.

End ExoTM.

(** [raii.h]: the wrappers forward to the [exo] member of the thread
    descriptor. *)
Module Raii.

Record Descriptor := mkDescriptor {
  exo : ExoTM.Exo
}.

Section WithEndOfTime.

Variable END_OF_TIME : N.

(** [WStep::acquire_continuation]:
    [this->op->exo.acquire_continuation(obj->orec(), val)]. *)
Definition acquire_continuation (orecs : gmap nat ExoTM.Orec)
    (op : Descriptor) (obj : nat) (val : N)
    : option (bool * gmap nat ExoTM.Orec * Descriptor) :=
  '(ok, orecs', exo') ← ExoTM.acquire_continuation orecs (exo op) obj val;
  Some (ok, orecs', mkDescriptor exo').

(** [WStep::unwind]: [this->op->exo.unwind()]. *)
Definition unwind (orecs : gmap nat ExoTM.Orec) (op : Descriptor)
    : gmap nat ExoTM.Orec * Descriptor :=
  let '(orecs', exo') := ExoTM.unwind END_OF_TIME orecs (exo op) in
  (orecs', mkDescriptor exo').

(** [WStep::acquire_aggressive]:
    [this->op->exo.acquire_aggressive(obj->orec())]. *)
Definition acquire_aggressive (orecs : gmap nat ExoTM.Orec)
    (op : Descriptor) (obj : nat)
    : option (bool * gmap nat ExoTM.Orec * Descriptor) :=
  '(ok, orecs', exo') ← ExoTM.acquire_aggressive orecs (exo op) obj;
  Some (ok, orecs', mkDescriptor exo').

(** [WStep::reclaim]: [this->op->smr.reclaim(obj)].

    Modelled from the spec: the [smr] member of the descriptor is "a
    private list of objects passed to reclaim" (spec 4.5); the object stays
    allocated until the list is freed. *)
Definition reclaim (smr : list nat) (obj : nat) : list nat := obj :: smr.

(** [~WStep]: [this->op->exo.wo_end()]. *)
Definition wo_end (orecs : gmap nat ExoTM.Orec) (op : Descriptor)
    : gmap nat ExoTM.Orec * Descriptor :=
  let '(orecs', exo') := ExoTM.wo_end END_OF_TIME orecs (exo op) in
  (orecs', mkDescriptor exo').

End WithEndOfTime.

End Raii.

(** * [slist_omap]: the ordered map as a singly-linked list *)

Module SList.

(** Nodes are known by their addresses; keys and values are [int]s, as in
    [slist_omap<int, int, descriptor, true>]. *)
Record leq_t := mk_leq {
  _obj : nat;
  _ver : N
}.

#[global] Instance leq_t_eq_dec : EqDecision leq_t.
Proof. solve_decision. Defined.

(** What a read-only step has validated: a [check_orec] that did not
    return [END_OF_TIME], a [check_continuation] that returned [true]. *)
Inductive Validation :=
| Checked (obj : nat) (ver : N)
| Continued (obj : nat) (ver : N).

#[global] Instance Validation_eq_dec : EqDecision Validation.
Proof. solve_decision. Defined.

(** [RSTEP tx]: the validations made through it so far, latest first. *)
Definition RStep : Type := list Validation.

(** The shared memory as a traversal sees it.  The other threads change
    links and orecs between any two accesses: an access at the [t]-th
    instant reads the memory of that instant.  Keys are [const].  [None] is
    an access through a pointer that is no node (of the kind asked for). *)
Record Mem := mkMem {
  next_at : nat → nat → option nat;
  key_of : nat → option Z;
  check_orec_at : nat → nat → option N;
  check_continuation_at : nat → nat → N → option bool
}.

(** The calling thread: its snapshots, latest first, and the number of
    accesses to shared memory it has made.

    Modelled from the spec: [me->snapshots] is a stack ("snapshot stack");
    [push_back] pushes, [top] is the latest pushed, [drop] pops it, [clear]
    empties it.  Its type is not among the sources. *)
Record Thread := mkThread {
  snapshots : list leq_t;
  clock : nat
}.

Definition tick (me : Thread) : Thread :=
  mkThread (snapshots me) (S (clock me)).
Definition push_back (s : leq_t) (me : Thread) : Thread :=
  mkThread (s :: snapshots me) (clock me).
Definition drop (me : Thread) : Thread :=
  mkThread (tail (snapshots me)) (clock me).
Definition clear (me : Thread) : Thread :=
  mkThread [] (clock me).

(** How a loop body ends. *)
Inductive Flow :=
| Return (r : leq_t) (me : Thread) (tx : RStep)
| Break (me : Thread)
| OutOfFuel
| Undefined.

Section WithMap.

(** [STMCAS::END_OF_TIME], the template flag, and the fields of the map. *)
Variable END_OF_TIME : N.
Variable AVOID_OREC_CHECKS : bool.
Variable head tail : nat.
Variable SNAPSHOT_FREQUENCY : Z.

Section WithMem.

Variable mem : Mem.

(** [tx.check_orec(obj)]. *)
Definition check_orec (me : Thread) (tx : RStep) (obj : nat)
    : option (N * Thread * RStep) :=
  v ← check_orec_at mem (clock me) obj;
  Some (v, tick me,
        if decide (v = END_OF_TIME) then tx else Checked obj v :: tx).

(** [tx.check_continuation(obj, val)]. *)
Definition check_continuation (me : Thread) (tx : RStep) (obj : nat) (val : N)
    : option (bool * Thread * RStep) :=
  match check_continuation_at mem (clock me) obj val with
  | Some ok => Some (ok, tick me, if ok then Continued obj val :: tx else tx)
  | None => None
  end.

(** The two exits
<<
  if (AVOID_OREC_CHECKS &&
      (curr._ver = tx.check_orec(curr._obj)) == STMCAS::END_OF_TIME)
    break;
  return curr;
>> *)
Definition return_curr (me : Thread) (tx : RStep) (curr : leq_t) : Flow :=
  if AVOID_OREC_CHECKS then
    match check_orec me tx (_obj curr) with
    | None => Undefined
    | Some (v, me, tx) =>
        if decide (v = END_OF_TIME) then Break me
        else Return (mk_leq (_obj curr) v) me tx
    end
  else Return curr me tx.

(** The inner [while (true)] of [get_leq], one iteration per unit of
    fuel. *)
Fixpoint traverse (fuel : nat) (key : Z) (lt_mode : bool)
    (me : Thread) (tx : RStep) (curr : leq_t) (nodes_until_snapshot : Z)
    : Flow :=
  match fuel with
  | O => OutOfFuel
  | S fuel' =>
      (* auto *next = curr._obj->next.get(tx); *)
      match next_at mem (clock me) (_obj curr) with
      | None => Undefined
      | Some next =>
          let me := tick me in
          (* if (!AVOID_OREC_CHECKS) { next_ver = tx.check_orec(next); ... } *)
          match (if AVOID_OREC_CHECKS then Some (0, me, tx)
                 else check_orec me tx next) with
          | None => Undefined
          | Some (next_ver, me, tx) =>
              if negb AVOID_OREC_CHECKS && bool_decide (next_ver = END_OF_TIME)
              then Break me
              else if decide (next = tail) then return_curr me tx curr
              else
                (* data_t *dn = static_cast<data_t *>(next); *)
                match key_of mem next with
                | None => Undefined
                | Some dn_key =>
                    if (if lt_mode then (key <=? dn_key)%Z else (key <? dn_key)%Z)
                    then return_curr me tx curr
                    else if decide (dn_key = key) then
                      if AVOID_OREC_CHECKS then
                        match check_orec me tx next with
                        | None => Undefined
                        | Some (v, me, tx) =>
                            if decide (v = END_OF_TIME) then Break me
                            else Return (mk_leq next v) me tx
                        end
                      else Return (mk_leq next next_ver) me tx
                    else
                      (* if (--nodes_until_snapshot == 0) { ... } *)
                      let n := (nodes_until_snapshot - 1)%Z in
                      match
                        (if decide (n = 0%Z) then
                           if AVOID_OREC_CHECKS then
                             '(v, me, tx) ← check_orec me tx (_obj curr);
                             let curr := mk_leq (_obj curr) v in
                             Some (curr,
                                   if decide (v = END_OF_TIME) then me
                                   else push_back curr me,
                                   tx, SNAPSHOT_FREQUENCY)
                           else Some (curr, push_back curr me, tx,
                                      SNAPSHOT_FREQUENCY)
                         else Some (curr, me, tx, n))
                      with
                      | None => Undefined
                      | Some (curr, me, tx, n) =>
                          (* curr._obj = next;
                             if (!AVOID_OREC_CHECKS) curr._ver = next_ver; *)
                          traverse fuel' key lt_mode me tx
                            (mk_leq next
                               (if AVOID_OREC_CHECKS then _ver curr
                                else next_ver))
                            n
                      end
                end
          end
      end
  end.

(** [get_leq]: the outer [while (true)], one read-only step per unit of
    fuel. *)
Fixpoint get_leq (fuel : nat) (me : Thread) (key : Z) (lt_mode : bool)
    : Flow :=
  match fuel with
  | O => OutOfFuel
  | S fuel' =>
      (* RSTEP tx(me); *)
      let tx : RStep := [] in
      let curr :=
        match snapshots me with
        | [] => mk_leq head 0
        | top :: _ => top
        end in
      let search me tx curr :=
        match traverse fuel key lt_mode me tx curr SNAPSHOT_FREQUENCY with
        | Break me => get_leq fuel' me key lt_mode
        | flow => flow
        end in
      if decide (_obj curr = head) then
        match check_orec me tx (_obj curr) with
        | None => Undefined
        | Some (v, me, tx) =>
            if decide (v = END_OF_TIME) then get_leq fuel' me key lt_mode
            else search me tx (mk_leq (_obj curr) v)
        end
      else
        match check_continuation me tx (_obj curr) (_ver curr) with
        | None => Undefined
        | Some (ok, me, tx) =>
            if ok then search me tx curr
            else get_leq fuel' (drop me) key lt_mode
        end
  end.

End WithMem.

(** *** The list in memory, for an operation that runs alone *)

(** [node_t] and [data_t]: the successor, and the key and value of a node
    that is no sentinel.  The orecs of the nodes are kept apart, under the
    same addresses. *)
Record Node := mkNode {
  next : nat;
  data : option (Z * Z)
}.

Record Heap := mkHeap {
  nodes : gmap nat Node;
  orecs : gmap nat ExoTM.Orec
}.

(** The memory a traversal sees while nothing else runs. *)
Definition mem_of (h : Heap) : Mem :=
  mkMem
    (λ _ p, next <$> nodes h !! p)
    (λ p, nd ← nodes h !! p; kv ← data nd; Some kv.1)
    (λ _ p, ExoTM.check_orec END_OF_TIME (orecs h) p)
    (λ _ p v, ExoTM.check_continuation (orecs h) p v).

(** [new data_t(key, val)]: an address not in use; its orec starts
    unlocked at version 0 (spec 3, "Versioned Object"). *)
Definition new_data_t (h : Heap) : nat := fresh (dom (nodes h) ∪ dom (orecs h)).

(** [obj->next.set(n, tx)]. *)
Definition set_next (h : Heap) (obj n : nat) : option Heap :=
  nd ← nodes h !! obj;
  Some (mkHeap (<[obj := mkNode n (data nd)]> (nodes h)) (orecs h)).

Inductive Result :=
| Done (r : bool) (h : Heap) (me : Thread) (op : Raii.Descriptor)
| NoFuel
| Undef.

(** [insert]: the [while (true)], one attempt per unit of fuel. *)
Fixpoint insert_loop (fuel : nat) (h : Heap) (me : Thread)
    (op : Raii.Descriptor) (key val : Z) : Result :=
  match fuel with
  | O => NoFuel
  | S fuel' =>
      match get_leq (mem_of h) fuel me key false with
      | Return n me _ =>
          (* if (n._obj != head && static_cast<data_t *>(n._obj)->key == key)
               return false; *)
          match (if decide (_obj n = head) then Some false
                 else k ← key_of (mem_of h) (_obj n);
                      Some (bool_decide (k = key))) with
          | None => Undef
          | Some true => Done false h me op
          | Some false =>
              (* WSTEP tx(me);
                 if (!tx.acquire_continuation(n._obj, n._ver)) *)
              match Raii.acquire_continuation (orecs h) op (_obj n) (_ver n) with
              | None => Undef
              | Some (false, o, op) =>
                  (* tx.unwind(); continue; and ~WStep *)
                  let '(o, op) := Raii.unwind END_OF_TIME o op in
                  let '(o, op) := Raii.wo_end END_OF_TIME o op in
                  insert_loop fuel' (mkHeap (nodes h) o) me op key val
              | Some (true, o, op) =>
                  let h := mkHeap (nodes h) o in
                  (* data_t *new_dn = new data_t(key, val); *)
                  let new_dn := new_data_t h in
                  match nodes h !! _obj n with
                  | None => Undef
                  | Some nd =>
                      (* new_dn->next.set(n._obj->next.get(tx), tx); *)
                      let h :=
                        mkHeap
                          (<[new_dn := mkNode (next nd) (Some (key, val))]>
                             (nodes h))
                          (<[new_dn := ExoTM.Unlocked 0]> (orecs h)) in
                      (* n._obj->next.set(new_dn, tx); *)
                      match set_next h (_obj n) new_dn with
                      | None => Undef
                      | Some h =>
                          (* return true; and ~WStep *)
                          let '(o, op) := Raii.wo_end END_OF_TIME (orecs h) op in
                          Done true (mkHeap (nodes h) o) me op
                      end
                  end
              end
          end
      | Break _ | OutOfFuel => NoFuel
      | Undefined => Undef
      end
  end.

(** [insert(me, key, val)]. *)
Definition insert (fuel : nat) (h : Heap) (me : Thread)
    (op : Raii.Descriptor) (key val : Z) : Result :=
  insert_loop fuel h (clear me) op key val.

(** [static_cast<data_t *>(obj)->val]. *)
Definition val_of (h : Heap) (obj : nat) : option Z :=
  nd ← nodes h !! obj; kv ← data nd; Some kv.2.

(** [new node_t()]: an address not in use, its [next] the null pointer and
    its orec unlocked at version 0. *)
Definition new_node_t (nullptr : nat) (h : Heap) : nat * Heap :=
  let n := fresh (dom (nodes h) ∪ dom (orecs h)) in
  (n, mkHeap (<[n := mkNode nullptr None]> (nodes h))
             (<[n := ExoTM.Unlocked 0]> (orecs h))).

(** The constructor [slist_omap(me, cfg)]:
<<
  : head(new node_t()), tail(new node_t()), ...
  WSTEP tx(me);
  head->next.set(tail, tx);
>>
    It returns the two sentinels. *)
Definition slist_omap (nullptr : nat) (h : Heap) (op : Raii.Descriptor)
    : option (nat * nat * Heap * Raii.Descriptor) :=
  let '(new_head, h) := new_node_t nullptr h in
  let '(new_tail, h) := new_node_t nullptr h in
  h ← set_next h new_head new_tail;
  let '(o, op) := Raii.wo_end END_OF_TIME (orecs h) op in
  Some (new_head, new_tail, mkHeap (nodes h) o, op).

(** What [get] returns: [Some val] for [true] with the reference parameter
    set to [val], [None] for [false]. *)
Inductive GetResult :=
| Got (r : option Z) (h : Heap) (me : Thread) (op : Raii.Descriptor)
| GetNoFuel
| GetUndef.

(** [std::is_scalar<V>::value]. *)
Variable V_is_scalar : bool.

(** [get]: the [while (true)], one attempt per unit of fuel. *)
Fixpoint get_loop (fuel : nat) (h : Heap) (me : Thread)
    (op : Raii.Descriptor) (key : Z) : GetResult :=
  match fuel with
  | O => GetNoFuel
  | S fuel' =>
      match get_leq (mem_of h) fuel me key false with
      | Return n me _ =>
          (* if (n._obj == head ||
                 static_cast<data_t *>(n._obj)->key != key) return false; *)
          match (if decide (_obj n = head) then Some true
                 else k ← key_of (mem_of h) (_obj n);
                      Some (bool_decide (k ≠ key))) with
          | None => GetUndef
          | Some true => Got None h me op
          | Some false =>
              if V_is_scalar then
                (* RSTEP tx(me); V val_copy = ...(&dn->val)->load(...); *)
                match val_of h (_obj n) with
                | None => GetUndef
                | Some val_copy =>
                    (* if (!tx.check_continuation(n._obj, n._ver)) continue; *)
                    match check_continuation (mem_of h) me [] (_obj n) (_ver n) with
                    | None => GetUndef
                    | Some (false, me, _) => get_loop fuel' h me op key
                    | Some (true, me, _) => Got (Some val_copy) h me op
                    end
                end
              else
                (* WSTEP tx(me);
                   if (!tx.acquire_continuation(n._obj, n._ver)) *)
                match Raii.acquire_continuation (orecs h) op (_obj n) (_ver n) with
                | None => GetUndef
                | Some (false, o, op) =>
                    (* tx.unwind(); continue; and ~WStep *)
                    let '(o, op) := Raii.unwind END_OF_TIME o op in
                    let '(o, op) := Raii.wo_end END_OF_TIME o op in
                    get_loop fuel' (mkHeap (nodes h) o) me op key
                | Some (true, o, op) =>
                    (* val = static_cast<data_t *>(n._obj)->val; *)
                    match val_of h (_obj n) with
                    | None => GetUndef
                    | Some val =>
                        (* tx.unwind(); return true; and ~WStep *)
                        let '(o, op) := Raii.unwind END_OF_TIME o op in
                        let '(o, op) := Raii.wo_end END_OF_TIME o op in
                        Got (Some val) (mkHeap (nodes h) o) me op
                    end
                end
          end
      | Break _ | OutOfFuel => GetNoFuel
      | Undefined => GetUndef
      end
  end.

(** [get(me, key, val)]. *)
Definition get (fuel : nat) (h : Heap) (me : Thread)
    (op : Raii.Descriptor) (key : Z) : GetResult :=
  get_loop fuel h (clear me) op key.

(** What [remove] returns, with the objects handed to [reclaim]. *)
Inductive RemoveResult :=
| Removed (r : bool) (h : Heap) (me : Thread) (op : Raii.Descriptor)
    (smr : list nat)
| RemoveNoFuel
| RemoveUndef.

(** [remove]: the [while (true)], one attempt per unit of fuel. *)
Fixpoint remove_loop (fuel : nat) (h : Heap) (me : Thread)
    (op : Raii.Descriptor) (smr : list nat) (key : Z) : RemoveResult :=
  match fuel with
  | O => RemoveNoFuel
  | S fuel' =>
      (* auto prev = get_leq(me, key, true); *)
      match get_leq (mem_of h) fuel me key true with
      | Return prev me _ =>
          (* WSTEP tx(me);
             if (!tx.acquire_continuation(prev._obj, prev._ver)) *)
          match Raii.acquire_continuation (orecs h) op (_obj prev) (_ver prev) with
          | None => RemoveUndef
          | Some (false, o, op) =>
              (* tx.unwind(); continue; and ~WStep *)
              let '(o, op) := Raii.unwind END_OF_TIME o op in
              let '(o, op) := Raii.wo_end END_OF_TIME o op in
              remove_loop fuel' (mkHeap (nodes h) o) me op smr key
          | Some (true, o, op) =>
              let h := mkHeap (nodes h) o in
              (* auto curr = prev._obj->next.get(tx); *)
              match nodes h !! _obj prev with
              | None => RemoveUndef
              | Some prev_node =>
                  let curr := next prev_node in
                  (* if (curr == tail ||
                         static_cast<data_t *>(curr)->key != key) *)
                  match (if decide (curr = tail) then Some true
                         else k ← key_of (mem_of h) curr;
                              Some (bool_decide (k ≠ key))) with
                  | None => RemoveUndef
                  | Some true =>
                      (* tx.unwind(); return false; and ~WStep *)
                      let '(o, op) := Raii.unwind END_OF_TIME (orecs h) op in
                      let '(o, op) := Raii.wo_end END_OF_TIME o op in
                      Removed false (mkHeap (nodes h) o) me op smr
                  | Some false =>
                      (* if (!tx.acquire_aggressive(curr)) *)
                      match Raii.acquire_aggressive (orecs h) op curr with
                      | None => RemoveUndef
                      | Some (false, o, op) =>
                          (* tx.unwind(); continue; and ~WStep *)
                          let '(o, op) := Raii.unwind END_OF_TIME o op in
                          let '(o, op) := Raii.wo_end END_OF_TIME o op in
                          remove_loop fuel' (mkHeap (nodes h) o) me op smr key
                      | Some (true, o, op) =>
                          let h := mkHeap (nodes h) o in
                          (* auto next = curr->next.get(tx); *)
                          match nodes h !! curr with
                          | None => RemoveUndef
                          | Some curr_node =>
                              (* prev._obj->next.set(next, tx); *)
                              match set_next h (_obj prev) (next curr_node) with
                              | None => RemoveUndef
                              | Some h =>
                                  (* tx.reclaim(curr); return true; and ~WStep *)
                                  let smr := Raii.reclaim smr curr in
                                  let '(o, op) :=
                                    Raii.wo_end END_OF_TIME (orecs h) op in
                                  Removed true (mkHeap (nodes h) o) me op smr
                              end
                          end
                      end
                  end
              end
          end
      | Break _ | OutOfFuel => RemoveNoFuel
      | Undefined => RemoveUndef
      end
  end.

(** [remove(me, key)]. *)
Definition remove (fuel : nat) (h : Heap) (me : Thread)
    (op : Raii.Descriptor) (smr : list nat) (key : Z) : RemoveResult :=
  remove_loop fuel h (clear me) op smr key.

(** *** Vocabulary of the properties *)

(** A node a search for [key] may stand on: the head, or a data node with
    a smaller key; in no case the tail. *)
Definition before (mem : Mem) (key : Z) (obj : nat) : Prop :=
  obj ≠ tail ∧ (obj = head ∨ ∃ k, key_of mem obj = Some k ∧ (k < key)%Z).

(** What [get_leq] may return. *)
Definition leq_ok (mem : Mem) (key : Z) (lt_mode : bool) (obj : nat) : Prop :=
  obj ≠ tail
  ∧ (obj = head
     ∨ ∃ k, key_of mem obj = Some k
         ∧ if lt_mode then (k < key)%Z else (k ≤ key)%Z).

(** The pair was validated in the step: by a [check_orec] that returned
    its version, or by a [check_continuation] that confirmed it. *)
Definition validated (tx : RStep) (r : leq_t) : Prop :=
  Checked (_obj r) (_ver r) ∈ tx ∨ Continued (_obj r) (_ver r) ∈ tx.

(** What a flow of [get_leq] for [key] promises. *)
Definition flow_ok (mem : Mem) (key : Z) (lt_mode : bool) (f : Flow) : Prop :=
  match f with
  | Return r me tx =>
      leq_ok mem key lt_mode (_obj r) ∧ validated tx r
      ∧ Forall (λ s, before mem key (_obj s)) (snapshots me)
  | Break me => Forall (λ s, before mem key (_obj s)) (snapshots me)
  | OutOfFuel | Undefined => True
  end.

(** The data nodes linked after [p], up to the tail. *)
Inductive list_from (h : Heap) : nat → list (nat * Z * Z) → Prop :=
| list_from_tail p nd :
    nodes h !! p = Some nd → next nd = tail → list_from h p []
| list_from_cons p nd ndq k v l :
    nodes h !! p = Some nd → next nd ≠ tail →
    nodes h !! next nd = Some ndq → data ndq = Some (k, v) →
    list_from h (next nd) l →
    list_from h p ((next nd, k, v) :: l).

Definition keys (l : list (nat * Z * Z)) : list Z := (λ e, e.1.2) <$> l.
Definition addrs (l : list (nat * Z * Z)) : list nat := (λ e, e.1.1) <$> l.

(** Every orec of the list is unlocked, at a version that is not the
    sentinel. *)
Definition quiet (h : Heap) (l : list (nat * Z * Z)) : Prop :=
  ∀ p, p = head ∨ p = tail ∨ p ∈ addrs l →
    ∃ v, orecs h !! p = Some (ExoTM.Unlocked v) ∧ v ≠ END_OF_TIME.

(** A well-formed list: two distinct sentinels, the data nodes between
    them in strictly increasing key order, at distinct addresses. *)
Definition well_formed (h : Heap) (l : list (nat * Z * Z)) : Prop :=
  list_from h head l
  ∧ StronglySorted Z.lt (keys l)
  ∧ NoDup (head :: tail :: addrs l).

(** The node [get_leq] stops on when it runs alone from [curr]. *)
Fixpoint pred_of (key : Z) (lt_mode : bool) (curr : nat)
    (l : list (nat * Z * Z)) : nat :=
  match l with
  | [] => curr
  | (q, k, _) :: l' =>
      if (if lt_mode then (key <=? k)%Z else (key <? k)%Z) then curr
      else if decide (k = key) then q
      else pred_of key lt_mode q l'
  end.

(** Where [(key, val)] goes in a sorted list. *)
Fixpoint place (e : nat * Z * Z) (l : list (nat * Z * Z))
    : list (nat * Z * Z) :=
  match l with
  | [] => [e]
  | e' :: l' =>
      if (e.1.2 <? e'.1.2)%Z then e :: l else e' :: place e l'
  end.

(** The mapping the list holds. *)
Definition to_map (l : list (nat * Z * Z)) : gmap Z Z :=
  list_to_map ((λ e, (e.1.2, e.2)) <$> l).

(** The list without the node of [key]. *)
Definition without (key : Z) (l : list (nat * Z * Z)) : list (nat * Z * Z) :=
  filter (λ e, e.1.2 ≠ key) l.

(** Every orec of the list is unlocked, at a version below [b]. *)
Definition settled (b : N) (h : Heap) (l : list (nat * Z * Z)) : Prop :=
  ∀ p, p = head ∨ p = tail ∨ p ∈ addrs l →
    ∃ v, orecs h !! p = Some (ExoTM.Unlocked v) ∧ v < b.

(** A thread that uses the map: the heap, the thread's snapshots, its
    descriptor and the objects it has handed to [reclaim]. *)
Record Session := mkSession {
  heap : Heap;
  thread : Thread;
  descriptor : Raii.Descriptor;
  smr : list nat
}.

Inductive Call :=
| CallGet (key : Z)
| CallInsert (key val : Z)
| CallRemove (key : Z).

Inductive Answer :=
| AnsGet (r : option Z)
| AnsBool (r : bool).

#[global] Instance Answer_eq_dec : EqDecision Answer.
Proof. solve_decision. Defined.

Definition do_call (fuel : nat) (s : Session) (c : Call)
    : option (Session * Answer) :=
  match c with
  | CallGet key =>
      match get fuel (heap s) (thread s) (descriptor s) key with
      | Got r h me op => Some (mkSession h me op (smr s), AnsGet r)
      | _ => None
      end
  | CallInsert key val =>
      match insert fuel (heap s) (thread s) (descriptor s) key val with
      | Done r h me op => Some (mkSession h me op (smr s), AnsBool r)
      | _ => None
      end
  | CallRemove key =>
      match remove fuel (heap s) (thread s) (descriptor s) (smr s) key with
      | Removed r h me op smr => Some (mkSession h me op smr, AnsBool r)
      | _ => None
      end
  end.

Fixpoint do_calls (fuel : nat) (s : Session) (cs : list Call)
    : option (Session * list Answer) :=
  match cs with
  | [] => Some (s, [])
  | c :: cs =>
      '(s, a) ← do_call fuel s c;
      '(s, answers) ← do_calls fuel s cs;
      Some (s, a :: answers)
  end.

(** The same calls on a finite map: what the documentation of the three
    operations says they do. *)
Definition map_call (m : gmap Z Z) (c : Call) : gmap Z Z * Answer :=
  match c with
  | CallGet key => (m, AnsGet (m !! key))
  | CallInsert key val =>
      match m !! key with
      | Some _ => (m, AnsBool false)
      | None => (<[key := val]> m, AnsBool true)
      end
  | CallRemove key => (delete key m, AnsBool (bool_decide (is_Some (m !! key))))
  end.

Fixpoint map_calls (m : gmap Z Z) (cs : list Call) : gmap Z Z * list Answer :=
  match cs with
  | [] => (m, [])
  | c :: cs =>
      let '(m, a) := map_call m c in
      let '(m, answers) := map_calls m cs in
      (m, a :: answers)
  end.

End WithMap.

End SList.

(** * The ticket-lock external binary search tree

    [ticket.h] (the ASCYLIB [bst_tk] tree): versioned ticket locks, one per
    child pointer of a node, and the tree that uses them. *)

Module Ticket.

#[local] Open Scope Z_scope.

(** [uint16_t] arithmetic wraps. *)
Definition wrap16 (z : Z) : Z := z mod 2 ^ 16.

(** [tl32_t]: a version and a ticket, 16 bits each.  Through the union
    the pair is also one 32-bit word, [to_uint32]; on the little-endian
    targets of the code the version is its low half. *)
Record tl32_t := mk_tl32 {
  version : Z;
  ticket : Z
}.

#[global] Instance tl32_t_eq_dec : EqDecision tl32_t.
Proof. solve_decision. Defined.

Definition to_uint32 (l : tl32_t) : Z := version l + 2 ^ 16 * ticket l.

Definition of_uint32 (w : Z) : tl32_t :=
  mk_tl32 (w mod 2 ^ 16) ((w / 2 ^ 16) mod 2 ^ 16).

(** [tl_t]: the two locks [lr[0]] (left) and [lr[1]] (right) of a node,
    and through the union one 64-bit word, [to_uint64]. *)
Record tl_t := mk_tl {
  lr0 : tl32_t;
  lr1 : tl32_t
}.

#[global] Instance tl_t_eq_dec : EqDecision tl_t.
Proof. solve_decision. Defined.

Definition to_uint64 (tl : tl_t) : Z :=
  to_uint32 (lr0 tl) + 2 ^ 32 * to_uint32 (lr1 tl).

Definition of_uint64 (w : Z) : tl_t :=
  mk_tl (of_uint32 (w mod 2 ^ 32)) (of_uint32 ((w / 2 ^ 32) mod 2 ^ 32)).

(** [tl->lr[right]]; [right] is 0 or 1 at every call. *)
Definition lr (tl : tl_t) (right : bool) : tl32_t :=
  if right then lr1 tl else lr0 tl.

Definition set_lr (tl : tl_t) (right : bool) (l : tl32_t) : tl_t :=
  if right then mk_tl (lr0 tl) l else mk_tl l (lr1 tl).

(** [#define TLN_REMOVED 0x0000FFFF0000FFFF0000LL] *)
Definition TLN_REMOVED : Z := 0xFFFF0000FFFF0000.

(** [CASV(ptr, old, new) == old] on one 32-bit half and on the whole
    word: the new lock and whether the exchange took place. *)
Definition CASV32 (tl : tl_t) (right : bool) (old new : Z) : tl_t * bool :=
  if decide (to_uint32 (lr tl right) = old)
  then (set_lr tl right (of_uint32 new), true)
  else (tl, false).

Definition CASV64 (tl : tl_t) (old new : Z) : tl_t * bool :=
  if decide (to_uint64 tl = old) then (of_uint64 new, true) else (tl, false).

(** [tl_trylock_version(tl, tl_old, right)]:
<<
  uint16_t version = tl_old->lr[right].version;
  if (unlikely(version != tl_old->lr[right].ticket)) return 0;
  tl32_t tlo = {{version, version}};
  tl32_t tln = {{version, (uint16_t)(version + 1)}};
  return CASV(&tl->lr[right].to_uint32, tlo.to_uint32, tln.to_uint32)
         == tlo.to_uint32;
>> *)
Definition tl_trylock_version (tl tl_old : tl_t) (right : bool) : tl_t * bool :=
  let version := version (lr tl_old right) in
  if decide (version ≠ ticket (lr tl_old right)) then (tl, false)
  else
    let tlo := mk_tl32 version version in
    let tln := mk_tl32 version (wrap16 (version + 1)) in
    CASV32 tl right (to_uint32 tlo) (to_uint32 tln).

(** [tl_trylock_version_both(tl, tl_old)]:
<<
  uint16_t v0 = tl_old->lr[0].version;
  uint16_t v1 = tl_old->lr[1].version;
  if (unlikely(v0 != tl_old->lr[0].ticket || v1 != tl_old->lr[1].ticket))
    return 0;
  tl_t tlo = {.to_uint64 = tl_old->to_uint64};
  return CASV(&tl->to_uint64, tlo.to_uint64, TLN_REMOVED) == tlo.to_uint64;
>> *)
Definition tl_trylock_version_both (tl tl_old : tl_t) : tl_t * bool :=
  let v0 := version (lr0 tl_old) in
  let v1 := version (lr1 tl_old) in
  if decide (v0 ≠ ticket (lr0 tl_old) ∨ v1 ≠ ticket (lr1 tl_old))
  then (tl, false)
  else CASV64 tl (to_uint64 tl_old) TLN_REMOVED.

(** [tl_unlock]: [tl->lr[right].version = tl->lr[right].version + 1]. *)
Definition tl_unlock (tl : tl_t) (right : bool) : tl_t :=
  set_lr tl right
    (mk_tl32 (wrap16 (version (lr tl right) + 1)) (ticket (lr tl right))).

(** [tl_revert]: [tl->lr[right].ticket = tl->lr[right].ticket - 1]. *)
Definition tl_revert (tl : tl_t) (right : bool) : tl_t :=
  set_lr tl right
    (mk_tl32 (version (lr tl right)) (wrap16 (ticket (lr tl right) - 1))).

(** *** Vocabulary of the properties *)

(** The fields are 16-bit values. *)
Definition in_range (l : tl32_t) : Prop :=
  0 ≤ version l < 2 ^ 16 ∧ 0 ≤ ticket l < 2 ^ 16.

Definition tl_in_range (tl : tl_t) : Prop :=
  in_range (lr0 tl) ∧ in_range (lr1 tl).

(** A side is free when its ticket is its version. *)
Definition free (tl : tl_t) (right : bool) : Prop :=
  version (lr tl right) = ticket (lr tl right).

End Ticket.

(** [ticket]: the external binary search tree.  Keys and values are
    integers; a node is known by its address, [NULL] is [None]. *)

Module TicketBST.

Import Ticket.

#[local] Open Scope Z_scope.

(** [node_t]. *)
Record node_t := mk_node {
  key : Z;
  val : Z;
  left : option nat;
  right : option nat;
  lock : tl_t
}.

Definition set_key (k : Z) (n : node_t) : node_t :=
  mk_node k (val n) (left n) (right n) (lock n).
Definition set_val (v : Z) (n : node_t) : node_t :=
  mk_node (key n) v (left n) (right n) (lock n).
Definition set_left (l : option nat) (n : node_t) : node_t :=
  mk_node (key n) (val n) l (right n) (lock n).
Definition set_right (r : option nat) (n : node_t) : node_t :=
  mk_node (key n) (val n) (left n) r (lock n).
Definition set_lock (tl : tl_t) (n : node_t) : node_t :=
  mk_node (key n) (val n) (left n) (right n) tl.

Definition Heap : Type := gmap nat node_t.

(** How a member function ends: with a result, out of fuel, or in
    undefined behaviour (a null or dangling pointer was dereferenced). *)
Inductive Res (A : Type) :=
| Ret (a : A)
| OutOfFuel
| Undefined.

Arguments Ret {A} a.
Arguments OutOfFuel {A}.
Arguments Undefined {A}.

Section WithTree.

(** The template parameters [_KEY_MIN], [_KEY_MAX] and [_VAL_RESERVED]. *)
Variable KEY_MIN KEY_MAX NO_VALUE : Z.

(** [new_node_no_init]:
<<
  auto node = new node_t<skey_t, sval_t, D>();
  node->lock.to_uint64 = 0;
  node->val = NO_VALUE;
>>
    [new T()] zero-initializes the node first. *)
Definition new_node_no_init (h : Heap) : nat * Heap :=
  let node := fresh (dom h) in
  let h := <[node := mk_node 0 0 None None (of_uint64 0)]> h in
  let h := alter (set_lock (of_uint64 0)) node h in
  let h := alter (set_val NO_VALUE) node h in
  (node, h).

(** [new_node(key, val, l, r)]. *)
Definition new_node (h : Heap) (k v : Z) (l r : option nat) : nat * Heap :=
  let '(node, h) := new_node_no_init h in
  let h := alter (set_val v) node h in
  let h := alter (set_key k) node h in
  let h := alter (set_left l) node h in
  let h := alter (set_right r) node h in
  (node, h).

(** The constructor:
<<
  _min = new_node(KEY_MIN, NO_VALUE, NULL, NULL);
  _max = new_node(KEY_MAX, NO_VALUE, NULL, NULL);
  root = new_node(KEY_MAX, NO_VALUE, _min, _max);
>>
    It returns [root]. *)
Definition ticket (h : Heap) : nat * Heap :=
  let '(_min, h) := new_node h KEY_MIN NO_VALUE None None in
  let '(_max, h) := new_node h KEY_MAX NO_VALUE None None in
  new_node h KEY_MAX NO_VALUE (Some _min) (Some _max).

(** The loop of [get_internal]:
<<
  while (likely(curr->left != NULL)) {
    if (key < curr->key) curr = curr->left; else curr = curr->right;
  }
>> *)
Fixpoint descend (fuel : nat) (h : Heap) (curr : nat) (k : Z) : Res nat :=
  match fuel with
  | O => OutOfFuel
  | S fuel' =>
      match h !! curr with
      | None => Undefined
      | Some n =>
          match left n with
          | None => Ret curr
          | Some l =>
              if (k <? key n) then descend fuel' h l k
              else
                match right n with
                | Some r => descend fuel' h r k
                | None => Undefined
                end
          end
      end
  end.

(** [get_internal(me, key, val)]. *)
Definition get_internal (fuel : nat) (h : Heap) (root : nat) (k : Z) : Res Z :=
  match descend fuel h root k with
  | Ret curr =>
      match h !! curr with
      | None => Undefined
      | Some n => if decide (key n = k) then Ret (val n) else Ret NO_VALUE
      end
  | OutOfFuel => OutOfFuel
  | Undefined => Undefined
  end.

(** The locals of [insert_internal] and [remove_internal] that a search
    sets and a retry keeps. *)
Record Locals := mk_locals {
  curr : option nat;
  pred : option nat;
  ppred : option nat;
  pred_ver : Z;
  ppred_ver : Z;
  right_ : bool;
  pright : bool
}.

(** [curr = NULL... pred = NULL, ppred = NULL; curr_ver = 0;
    pred_ver = 0, ppred_ver = 0, right = 0, pright = 0]. *)
Definition Locals_init : Locals :=
  mk_locals None None None 0 0 false false.

(** The loop of [remove_internal]; [insert_internal] has the same loop
    without [ppred], [ppred_ver] and [pright]:
<<
  do {
    curr_ver = curr->lock.to_uint64;
    ppred = pred; ppred_ver = pred_ver; pright = right;
    pred = curr; pred_ver = curr_ver;
    if (key < curr->key) { right = 0; curr = curr->left; }
    else { right = 1; curr = curr->right; }
  } while (likely(curr->left != NULL));
>> *)
Fixpoint search (fuel : nat) (h : Heap) (s : Locals) (k : Z) : Res Locals :=
  match fuel with
  | O => OutOfFuel
  | S fuel' =>
      match curr s ≫= (h !!.) with
      | None => Undefined
      | Some n =>
          let curr_ver := to_uint64 (lock n) in
          let go_right := negb (k <? key n) in
          let s :=
            mk_locals (if go_right then right n else left n)
              (curr s) (pred s) curr_ver (pred_ver s) go_right (right_ s) in
          match curr s ≫= (h !!.) with
          | None => Undefined
          | Some next =>
              match left next with
              | Some _ => search fuel' h s k
              | None => Ret s
              end
          end
      end
  end.

Definition set_curr (c : option nat) (s : Locals) : Locals :=
  mk_locals c (pred s) (ppred s) (pred_ver s) (ppred_ver s) (right_ s)
    (pright s).

(** [pred->left = n] or [pred->right = n], by [right]. *)
Definition set_child (r : bool) (c : option nat) (n : node_t) : node_t :=
  if r then set_right c n else set_left c n.

(** [tl_trylock_version(&p->lock, &ver, r)], the word [ver] read as a
    [tl_t]. *)
Definition trylock_version (h : Heap) (p : option nat) (ver : Z) (r : bool)
    : Res (Heap * bool) :=
  match p with
  | None => Undefined
  | Some a =>
      match h !! a with
      | None => Undefined
      | Some n =>
          let '(tl, ok) := tl_trylock_version (lock n) (of_uint64 ver) r in
          Ret (<[a := set_lock tl n]> h, ok)
      end
  end.

(** [tl_trylock_version_both(&p->lock, &ver)], the word [ver] read as
    a [tl_t]. *)
Definition trylock_version_both (h : Heap) (p : option nat) (ver : Z)
    : Res (Heap * bool) :=
  match p with
  | None => Undefined
  | Some a =>
      match h !! a with
      | None => Undefined
      | Some n =>
          let '(tl, ok) := tl_trylock_version_both (lock n) (of_uint64 ver) in
          Ret (<[a := set_lock tl n]> h, ok)
      end
  end.

(** [insert_internal(me, key, val)], one attempt per unit of fuel; the
    locals live across the [goto retry]. *)
Fixpoint insert_attempt (fuel : nat) (h : Heap) (root : nat) (s : Locals)
    (k v : Z) : Res (Z * Heap) :=
  match fuel with
  | O => OutOfFuel
  | S fuel' =>
      (* retry: curr = root; do { ... } while (...); *)
      match search fuel h (set_curr (Some root) s) k with
      | OutOfFuel => OutOfFuel
      | Undefined => Undefined
      | Ret s =>
          match curr s ≫= (h !!.), pred s with
          | Some c, Some p =>
              (* if (curr->key == key) return curr->val; *)
              if decide (key c = k) then Ret (val c, h)
              else
                (* nn = new_node(key, val, NULL, NULL);
                   nr = new_node_no_init(); *)
                let '(nn, h) := new_node h k v None None in
                let '(nr, h) := new_node_no_init h in
                (* if (!tl_trylock_version(&pred->lock, &pred_ver, right))
                     goto retry; *)
                match trylock_version h (pred s) (pred_ver s) (right_ s) with
                | Ret (h, false) => insert_attempt fuel' h root s k v
                | Ret (h, true) =>
                    (* if (key < curr->key) { nr->key = curr->key;
                         nr->left = nn; nr->right = curr; }
                       else { nr->key = key; nr->left = curr;
                         nr->right = nn; } *)
                    let h :=
                      if (k <? key c)
                      then alter (set_right (curr s))
                             nr (alter (set_left (Some nn))
                                   nr (alter (set_key (key c)) nr h))
                      else alter (set_right (Some nn))
                             nr (alter (set_left (curr s))
                                   nr (alter (set_key k) nr h)) in
                    (* if (right) pred->right = nr; else pred->left = nr; *)
                    let h := alter (set_child (right_ s) (Some nr)) p h in
                    (* tl_unlock(&pred->lock, right); *)
                    let h :=
                      alter (λ n, set_lock (tl_unlock (lock n) (right_ s)) n)
                        p h in
                    Ret (NO_VALUE, h)
                | OutOfFuel => OutOfFuel
                | Undefined => Undefined
                end
          | _, _ => Undefined
          end
      end
  end.

Definition insert_internal (fuel : nat) (h : Heap) (root : nat) (k v : Z)
    : Res (Z * Heap) :=
  insert_attempt fuel h root Locals_init k v.

(** [remove_internal(me, key)]; the objects passed to [me->reclaim] are
    added to [smr]. *)
Fixpoint remove_attempt (fuel : nat) (h : Heap) (smr : list nat) (root : nat)
    (s : Locals) (k : Z) : Res (Z * Heap * list nat) :=
  match fuel with
  | O => OutOfFuel
  | S fuel' =>
      match search fuel h (set_curr (Some root) s) k with
      | OutOfFuel => OutOfFuel
      | Undefined => Undefined
      | Ret s =>
          match curr s, curr s ≫= (h !!.), pred s with
          | Some ca, Some c, Some pa =>
              (* if (curr->key != key) return NO_VALUE; *)
              if decide (key c ≠ k) then Ret (NO_VALUE, h, smr)
              else
                (* if (!tl_trylock_version(&ppred->lock, &ppred_ver, pright))
                     goto retry; *)
                match trylock_version h (ppred s) (ppred_ver s) (pright s) with
                | Ret (h, false) => remove_attempt fuel' h smr root s k
                | Ret (h, true) =>
                    (* if (!tl_trylock_version_both(&pred->lock, &pred_ver)) {
                         tl_revert(&ppred->lock, pright); goto retry; } *)
                    match trylock_version_both h (pred s) (pred_ver s) with
                    | Ret (h, false) =>
                        let h :=
                          match ppred s with
                          | Some ppa =>
                              alter (λ n, set_lock (tl_revert (lock n) (pright s)) n)
                                ppa h
                          | None => h
                          end in
                        remove_attempt fuel' h smr root s k
                    | Ret (h, true) =>
                        match h !! pa, ppred s with
                        | Some p, Some ppa =>
                            (* ppred->right (or left) =
                                 right ? pred->left : pred->right; *)
                            let sibling :=
                              if right_ s then left p else right p in
                            let h := alter (set_child (pright s) sibling) ppa h in
                            (* tl_unlock(&ppred->lock, pright); *)
                            let h :=
                              alter (λ n, set_lock (tl_unlock (lock n) (pright s)) n)
                                ppa h in
                            (* me->reclaim(curr); me->reclaim(pred);
                               return curr->val; *)
                            let smr := pa :: ca :: smr in
                            match h !! ca with
                            | Some c => Ret (val c, h, smr)
                            | None => Undefined
                            end
                        | _, _ => Undefined
                        end
                    | OutOfFuel => OutOfFuel
                    | Undefined => Undefined
                    end
                | OutOfFuel => OutOfFuel
                | Undefined => Undefined
                end
          | _, _, _ => Undefined
          end
      end
  end.

Definition remove_internal (fuel : nat) (h : Heap) (smr : list nat)
    (root : nat) (k : Z) : Res (Z * Heap * list nat) :=
  remove_attempt fuel h smr root Locals_init k.

(** [get(me, key, val)]: [Some v] is [true] with [val = v]. *)
Definition get (fuel : nat) (h : Heap) (root : nat) (k : Z)
    : Res (option Z) :=
  match get_internal fuel h root k with
  | Ret v => if decide (v = NO_VALUE) then Ret None else Ret (Some v)
  | OutOfFuel => OutOfFuel
  | Undefined => Undefined
  end.

(** [insert(me, key, val)]: [NO_VALUE == insert_internal(me, k, v)]. *)
Definition insert (fuel : nat) (h : Heap) (root : nat) (k v : Z)
    : Res (bool * Heap) :=
  match insert_internal fuel h root k v with
  | Ret (r, h) => Ret (bool_decide (NO_VALUE = r), h)
  | OutOfFuel => OutOfFuel
  | Undefined => Undefined
  end.

(** [remove(me, key)]: [NO_VALUE != remove_internal(me, k)]. *)
Definition remove (fuel : nat) (h : Heap) (smr : list nat) (root : nat)
    (k : Z) : Res (bool * Heap * list nat) :=
  match remove_internal fuel h smr root k with
  | Ret (r, h, smr) => Ret (bool_decide (NO_VALUE ≠ r), h, smr)
  | OutOfFuel => OutOfFuel
  | Undefined => Undefined
  end.

(** *** A thread that uses the tree *)

Record Session := mkSession {
  heap : Heap;
  smr : list nat
}.

Definition do_call (fuel : nat) (root : nat) (s : Session) (c : SList.Call)
    : option (Session * SList.Answer) :=
  match c with
  | SList.CallGet k =>
      match get fuel (heap s) root k with
      | Ret r => Some (s, SList.AnsGet r)
      | _ => None
      end
  | SList.CallInsert k v =>
      match insert fuel (heap s) root k v with
      | Ret (r, h) => Some (mkSession h (smr s), SList.AnsBool r)
      | _ => None
      end
  | SList.CallRemove k =>
      match remove fuel (heap s) (smr s) root k with
      | Ret (r, h, smr) => Some (mkSession h smr, SList.AnsBool r)
      | _ => None
      end
  end.

Fixpoint do_calls (fuel : nat) (root : nat) (s : Session)
    (cs : list SList.Call) : option (Session * list SList.Answer) :=
  match cs with
  | [] => Some (s, [])
  | c :: cs =>
      '(s, a) ← do_call fuel root s c;
      '(s, answers) ← do_calls fuel root s cs;
      Some (s, a :: answers)
  end.

(** *** Vocabulary of the properties *)

(** The tree a heap holds: leaves carry the keys and values, inner nodes
    route. *)
Inductive tree :=
| Leaf (a : nat) (k v : Z)
| Node (a : nat) (k : Z) (l r : tree).

Definition addr (t : tree) : nat :=
  match t with Leaf a _ _ | Node a _ _ _ => a end.

Fixpoint addrs (t : tree) : list nat :=
  match t with
  | Leaf a _ _ => [a]
  | Node a _ l r => a :: addrs l ++ addrs r
  end.

Fixpoint leaves (t : tree) : list (Z * Z) :=
  match t with
  | Leaf _ k v => [(k, v)]
  | Node _ _ l r => leaves l ++ leaves r
  end.

(** Both sides of a lock are free. *)
Definition unlocked (tl : tl_t) : Prop :=
  tl_in_range tl ∧ free tl false ∧ free tl true.

Fixpoint shape (h : Heap) (t : tree) : Prop :=
  match t with
  | Leaf a k v =>
      ∃ n, h !! a = Some n ∧ key n = k ∧ val n = v ∧ left n = None
  | Node a k l r =>
      (∃ n, h !! a = Some n ∧ key n = k
         ∧ left n = Some (addr l) ∧ right n = Some (addr r)
         ∧ unlocked (lock n))
      ∧ shape h l ∧ shape h r
  end.

(** Smaller keys to the left, the others to the right. *)
Fixpoint ordered (t : tree) : Prop :=
  match t with
  | Leaf _ _ _ => True
  | Node _ k l r =>
      (∀ x, x ∈ (leaves l).*1 → x < k)
      ∧ (∀ x, x ∈ (leaves r).*1 → k ≤ x)
      ∧ ordered l ∧ ordered r
  end.

(** The leaf a search for [k] ends on. *)
Fixpoint leaf_of (t : tree) (k : Z) : nat * Z * Z :=
  match t with
  | Leaf a k' v => (a, k', v)
  | Node _ kn l r => if (k <? kn) then leaf_of l k else leaf_of r k
  end.

(** The tree with a leaf for [k]: the leaf the search ends on is replaced
    by the inner node [nr] over that leaf and the new leaf [nn]. *)
Fixpoint ins (nn nr : nat) (k v : Z) (t : tree) : tree :=
  match t with
  | Leaf a k' v' =>
      if decide (k' = k) then t
      else if (k <? k') then Node nr k' (Leaf nn k v) t
      else Node nr k t (Leaf nn k v)
  | Node a kn l r =>
      if (k <? kn) then Node a kn (ins nn nr k v l) r
      else Node a kn l (ins nn nr k v r)
  end.

(** The tree without the leaf of [k]: the parent of the leaf gives way to
    the sibling of the leaf. *)
Fixpoint del (k : Z) (t : tree) : tree :=
  match t with
  | Leaf _ _ _ => t
  | Node a kn l r =>
      if (k <? kn) then
        match l with
        | Leaf _ k' _ => if decide (k' = k) then r else t
        | Node _ _ _ _ => Node a kn (del k l) r
        end
      else
        match r with
        | Leaf _ k' _ => if decide (k' = k) then l else t
        | Node _ _ _ _ => Node a kn l (del k r)
        end
  end.

(** The parent of the leaf a search for [k] ends on, with the side the
    leaf is on ([true] for right), and the parent of that parent. *)
Fixpoint parent_of (t : tree) (k : Z) : option (nat * bool) :=
  match t with
  | Leaf _ _ _ => None
  | Node a kn l r =>
      let d := negb (k <? kn) in
      match parent_of (if d then r else l) k with
      | Some p => Some p
      | None => Some (a, d)
      end
  end.

Fixpoint gparent_of (t : tree) (k : Z) : option (nat * bool) :=
  match t with
  | Leaf _ _ _ => None
  | Node a kn l r =>
      let d := negb (k <? kn) in
      let c := if d then r else l in
      match gparent_of c k with
      | Some g => Some g
      | None =>
          match parent_of c k with
          | Some _ => Some (a, d)
          | None => None
          end
      end
  end.

Definition size (t : tree) : nat := length (addrs t).

(** [pred->left] or [pred->right], by [right]. *)
Definition child (d : bool) (n : node_t) : option nat :=
  if d then right n else left n.

(** Where the search for [k] from the root of [t] leaves the locals:
    [curr] on the leaf, [pred] on its parent with the lock word read on
    the way, [ppred] on the parent of the parent, or as it was before the
    search when the parent is the root. *)
Definition found (h : Heap) (k : Z) (t : tree) (s s' : Locals) : Prop :=
  ∃ P D nP,
    curr s' = Some (leaf_of t k).1.1
    ∧ parent_of t k = Some (P, D)
    ∧ P ∈ addrs t
    ∧ h !! P = Some nP ∧ pred s' = Some P ∧ right_ s' = D
    ∧ pred_ver s' = to_uint64 (lock nP) ∧ unlocked (lock nP)
    ∧ child D nP = Some (leaf_of t k).1.1
    ∧ match gparent_of t k with
      | Some (G, DG) =>
          ∃ nG, h !! G = Some nG ∧ G ∈ addrs t ∧ G ≠ P
            ∧ ppred s' = Some G ∧ pright s' = DG
            ∧ ppred_ver s' = to_uint64 (lock nG) ∧ unlocked (lock nG)
            ∧ child DG nG = Some P
      | None =>
          ppred s' = pred s ∧ ppred_ver s' = pred_ver s
          ∧ pright s' = right_ s
      end.

Definition is_node (t : tree) : Prop :=
  match t with Leaf _ _ _ => False | Node _ _ _ _ => True end.

Definition search_ok (h : Heap) (k : Z) (t : tree) : Prop :=
  ∀ fuel s,
    shape h t → NoDup (addrs t) → is_node t →
    curr s = Some (addr t) → (size t ≤ fuel)%nat →
    ∃ s', search fuel h s k = Ret s' ∧ found h k t s s'.

(** The mapping the tree holds: [NO_VALUE] marks a key as absent. *)
Definition to_map (t : tree) : gmap Z Z :=
  filter (λ kv, kv.2 ≠ NO_VALUE) (list_to_map (leaves t) : gmap Z Z).

(** A tree as the constructor and the operations leave it: the root
    routes every key below [KEY_MAX] to the left, where the leaf of
    [KEY_MIN] is, and has the leaf of [KEY_MAX] to the right; the two
    sentinel leaves are the only ones that hold [NO_VALUE]. *)
Definition well_formed (h : Heap) (root : nat) (t : tree) : Prop :=
  (∃ l amax, t = Node root KEY_MAX l (Leaf amax KEY_MAX NO_VALUE)
     ∧ (KEY_MIN, NO_VALUE) ∈ leaves l)
  ∧ shape h t ∧ ordered t ∧ NoDup (addrs t)
  ∧ (∀ k, (k, NO_VALUE) ∈ leaves t → k = KEY_MIN ∨ k = KEY_MAX).

(** A call a user of the map makes: the key is no sentinel and the value
    is not the reserved one. *)
Definition proper (c : SList.Call) : Prop :=
  match c with
  | SList.CallGet k | SList.CallRemove k => KEY_MIN < k < KEY_MAX
  | SList.CallInsert k v => KEY_MIN < k < KEY_MAX ∧ v ≠ NO_VALUE
  end.

End WithTree.

End TicketBST.

(* ================================================================== *)
(** * Properties *)
(* ================================================================== *)

Lemma wrap64_small n : n < WORD → wrap64 n = n.
Proof. intros. unfold wrap64. by apply N.mod_small. Qed.

Lemma INT_MAX_lt_WORD : INT_MAX + 1 < WORD.
Proof. reflexivity. Qed.

Module EpochsTheory.
Import Epochs.

#[local] Arguments write_slot : simpl never.
#[local] Arguments slot : simpl never.
#[local] Arguments wrap64 : simpl never.

(** *** Shared memory, traces *)

Lemma N_to_nat_ne i j : i ≠ j → N.to_nat i ≠ N.to_nat j.
Proof. lia. Qed.

Lemma write_slot_Some g i v g' :
  write_slot g i v = Some g' →
  slot g' i = Some v
  ∧ (∀ j, j ≠ i → slot g' j = slot g j)
  ∧ idGenerator g' = idGenerator g
  ∧ token g' = token g
  ∧ length (epochs g') = length (epochs g).
Proof.
  unfold write_slot, slot. intros H. case_decide; simplify_eq. simpl.
  repeat split.
  - by apply list_lookup_insert_eq.
  - intros j Hj. apply list_lookup_insert_ne. by apply N_to_nat_ne.
  - by rewrite length_insert.
Qed.

Lemma write_slot_is_Some g i v :
  is_Some (slot g i) → is_Some (write_slot g i v).
Proof.
  unfold write_slot, slot. intros H%lookup_lt_is_Some.
  case_decide; [by eexists | lia].
Qed.

Lemma live_step_app tr e :
  live_step (tr ++ e) = foldl live_step_after (live_step tr) e.
Proof. unfold live_step. by rewrite foldl_app. Qed.

Lemma goto_goto p q m : goto p (goto q m) = goto p m.
Proof. done. Qed.

Lemma goto_pc m : goto (pc m) m = m.
Proof. by destruct m. Qed.

Lemma seen_past_mono time j tr e : seen_past time j tr → seen_past time j (tr ++ e).
Proof. intros (v & ? & ?). exists v. split; [|done]. apply elem_of_app. by left. Qed.

Lemma seen_idle_mono j tr e : seen_idle j tr → seen_idle j (tr ++ e).
Proof. unfold seen_idle. intros ?. apply elem_of_app. by left. Qed.

Lemma never_read_app j tr e :
  never_read j tr → never_read j e → never_read j (tr ++ e).
Proof. intros H1 H2 v [?|?]%elem_of_app; [by eapply H1 | by eapply H2]. Qed.

Lemma not_returned_app tr e :
  not_returned tr → not_returned e → not_returned (tr ++ e).
Proof. intros H1 H2 op r [?|?]%elem_of_app; [by eapply H1 | by eapply H2]. Qed.

Lemma not_elem_of_app_2 (x : Event) tr e : x ∉ tr → x ∉ e → x ∉ tr ++ e.
Proof. intros H1 H2 [?|?]%elem_of_app; done. Qed.

Lemma returned_app e tr r :
  returned tr = Some r → returned (e ++ tr) = Some r.
Proof.
  unfold returned. rewrite last_app. destruct (last tr); [done|]. done.
Qed.

Ltac step_inv H :=
  unfold Epochs.run1, step, step_IrrevocQuiesce, step_Basic, ret, jump,
    clearEpoch, setEpoch in H;
  repeat (case_match; simplify_eq; try done);
  simplify_option_eq.

Ltac elem_inv H :=
  simpl in H;
  repeat first
    [ apply elem_of_nil in H; destruct H
    | apply elem_of_cons in H as [H|H]; simplify_eq ].

Ltac slot_facts :=
  repeat match goal with
  | H : write_slot _ _ _ = Some _ |- _ =>
      apply write_slot_Some in H as (? & ? & ? & ? & ?)
  end.

Ltac trace_facts :=
  repeat match goal with
  | |- never_read _ (_ ++ _) => apply never_read_app; [done|]
  | |- not_returned (_ ++ _) => apply not_returned_app; [done|]
  | |- never_read _ _ => let v := fresh in let H := fresh in
                         intros v H; by elem_inv H
  | |- not_returned _ => let v := fresh in let r := fresh in let H := fresh in
                         intros v r H; by elem_inv H
  | |- seen_idle _ (_ ++ _) => apply seen_idle_mono
  | |- _ ∉ _ ++ _ => apply not_elem_of_app_2; [done|]
  | |- _ ∉ _ => let H := fresh in intros H; by elem_inv H
  end.

Ltac absurd_in :=
  match goal with
  | Hret : not_returned ?tr, H : EvRet _ _ ∈ ?tr ++ _ |- _ =>
      apply elem_of_app in H as [H|H]; [by apply Hret in H | by elem_inv H]
  end.

Section WithMaxThreads.

Variable MAXTHREADS : N.

#[local] Abbreviation BasicEpochManager := (BasicEpochManager MAXTHREADS).
#[local] Abbreviation construct := (construct MAXTHREADS).
#[local] Abbreviation spawn := (spawn MAXTHREADS).
#[local] Abbreviation Globals_init := (Globals_init MAXTHREADS).
#[local] Abbreviation env_apply := (env_apply MAXTHREADS).
#[local] Abbreviation run1 := (run1 MAXTHREADS).
#[local] Abbreviation run := (run MAXTHREADS).
#[local] Abbreviation call := (call MAXTHREADS).
#[local] Abbreviation call_by := (call_by MAXTHREADS).
#[local] Abbreviation calls_by := (calls_by MAXTHREADS).
#[local] Abbreviation World_init := (World_init MAXTHREADS).
#[local] Abbreviation reachable := (reachable MAXTHREADS).
#[local] Abbreviation reachable_any := (reachable_any MAXTHREADS).

Lemma BasicEpochManager_fatal g :
  MAXTHREADS ≤ idGenerator g → (BasicEpochManager g).2 = None.
Proof.
  intros Hle. unfold Epochs.BasicEpochManager.
  destruct (N.leb_spec MAXTHREADS (idGenerator g)); [done | lia].
Qed.

Lemma BasicEpochManager_epochs g : epochs (BasicEpochManager g).1 = epochs g.
Proof. unfold Epochs.BasicEpochManager. by case_match. Qed.

(** *** Interference *)

Lemma env_apply_frame me g a g' :
  foreign me a = true → env_apply g a = Some g' →
  slot g' me = slot g me.
Proof.
  destruct a as [i v| v |]; simpl; intros Hf H.
  - apply bool_decide_eq_true in Hf.
    apply write_slot_Some in H as (_ & H & _). by apply H.
  - by simplify_eq.
  - unfold Epochs.BasicEpochManager in H. by repeat case_match; simplify_eq.
Qed.

(** *** Runs *)

Lemma step_id p g m g' m' e :
  step p g m = Some (g', m', e) → id m' = id m.
Proof. intros H. destruct p; step_inv H; done. Qed.

Lemma run1_id p g m it g' m' e :
  run1 p g m it = Some (g', m', e) → id m' = id m.
Proof.
  destruct it; simpl; intros H.
  - unfold jump in H. case_decide; by simplify_eq.
  - by eapply step_id.
  - by simplify_option_eq.
Qed.

Lemma run_cons p g m it sched g' m' e :
  run p g m (it :: sched) = Some (g', m', e) →
  ∃ g1 m1 e1 e2,
    run1 p g m it = Some (g1, m1, e1)
    ∧ run p g1 m1 sched = Some (g', m', e2)
    ∧ e = e1 ++ e2.
Proof.
  simpl. intros H.
  destruct (run1 p g m it) as [[[g1 m1] e1]|] eqn:E1; simpl in H; [|done].
  destruct (run p g1 m1 sched) as [[[g2 m2] e2]|] eqn:E2; simpl in H; [|done].
  simplify_eq. by eexists _, _, _, _.
Qed.

(** An invariant of every item of a schedule is an invariant of its runs. *)
Lemma run_invariant p (Q : Item → bool)
    (P : Globals → Manager → list Event → Prop) :
  (∀ g m tr it g' m' e,
     P g m tr → Q it = true → run1 p g m it = Some (g', m', e) →
     P g' m' (tr ++ e)) →
  ∀ sched g m tr g' m' e,
    P g m tr → forallb Q sched = true →
    run p g m sched = Some (g', m', e) → P g' m' (tr ++ e).
Proof.
  intros Hstep. induction sched as [|it sched IH]; intros g m tr g' m' e HP HQ Hrun.
  - simpl in Hrun. simplify_eq. by rewrite app_nil_r.
  - apply run_cons in Hrun as (g1 & m1 & e1 & e2 & H1 & H2 & ->).
    simpl in HQ. apply andb_true_iff in HQ as [HQ1 HQ2].
    rewrite app_assoc. eapply IH; [|done|done]. by eapply Hstep.
Qed.

(** *** The caller's own slot *)

Lemma onBegin_inv_run1 me g m it g' m' e :
  id m = me → onBegin_inv g m → is_env_ok me it = true →
  run1 IrrevocQuiesce g m it = Some (g', m', e) →
  onBegin_inv g' m'.
Proof.
  intros Hid HP HQ H. destruct it as [op| |a].
  - simpl in H. unfold jump in H. case_decide; simplify_eq.
    by destruct op.
  - unfold onBegin_inv in *. destruct (pc m) as [|[]| | | | | | | | | |] eqn:Hpc;
      step_inv H; slot_facts; simpl; try done.
  - simpl in H. destruct (env_apply g a) as [g1|] eqn:Ha; simplify_eq/=.
    unfold onBegin_inv in *. erewrite env_apply_frame by done.
    by destruct (pc m').
Qed.

Lemma onBegin_inv_run g m sched g' m' tr :
  onBegin_inv g m → forallb (is_env_ok (id m)) sched = true →
  run IrrevocQuiesce g m sched = Some (g', m', tr) →
  onBegin_inv g' m' ∧ id m' = id m.
Proof.
  intros HP HQ Hrun.
  eapply (run_invariant IrrevocQuiesce (is_env_ok (id m))
    (λ g1 m1 _, onBegin_inv g1 m1 ∧ id m1 = id m)) with (tr := []);
    [|split; [exact HP|done]|exact HQ|exact Hrun].
  clear HP HQ Hrun. intros g1 m1 _ it g2 m2 e [HP Hid] HQ H. split.
  - by eapply onBegin_inv_run1.
  - apply run1_id in H. congruence.
Qed.

Lemma finish_Idle p fuel g m :
  pc m = Idle → finish p fuel g m = Some (g, m, []).
Proof. intros H. destruct fuel; simpl; by rewrite decide_True. Qed.

Lemma finish_step p fuel g m g1 m1 e1 :
  pc m ≠ Idle → step p g m = Some (g1, m1, e1) →
  finish p (S fuel) g m
  = '(g2, m2, e2) ← finish p fuel g1 m1; Some (g2, m2, e1 ++ e2).
Proof. intros H Hs. simpl. rewrite decide_False by done. by rewrite Hs. Qed.

Lemma call_unfold p fuel g m op :
  pc m = Idle →
  call p fuel g m op
  = '(g2, m2, e2) ← finish p fuel g (goto (Entry op) m);
    Some (g2, m2, EvCall op :: e2).
Proof.
  intros H. unfold Epochs.call, Epochs.run1, jump.
  by rewrite decide_True.
Qed.

(** Alone and with the token clear, [onBegin] returns after two accesses. *)
Lemma onBegin_returns g m time :
  pc m = Idle → token g = 0 → is_Some (slot g (id m)) →
  ∃ g', call IrrevocQuiesce 2 g m (OpOnBegin time)
          = Some (g', m, [EvCall (OpOnBegin time);
                          EvWrite (LEpoch (id m)) time;
                          EvRead LToken 0;
                          EvRet (OpOnBegin time) None])
        ∧ slot g' (id m) = Some time ∧ token g' = 0.
Proof.
  intros Hpc Htok Hs.
  destruct (write_slot_is_Some g (id m) time Hs) as [g' Hw].
  exists g'. pose proof Hw as Hw'.
  apply write_slot_Some in Hw' as (? & ? & ? & Ht & ?).
  split; [|split; [done | congruence]].
  rewrite call_unfold by done.
  erewrite finish_step; [|done|]; last first.
  { unfold step, step_IrrevocQuiesce, setEpoch. simpl. by rewrite Hw. }
  erewrite finish_step; [|done|]; last first.
  { unfold step, step_IrrevocQuiesce. simpl.
    rewrite decide_True by congruence. done. }
  rewrite finish_Idle by done. simpl.
  rewrite Ht, Htok. destruct m; simpl in *; by subst.
Qed.

(** C3.  In every run of a thread of the [IrrevocQuiesceEpochManager],
    whatever the other threads do to the token and to their own slots:
    while the thread is at the token test of [onBegin(time)] its slot holds
    [time]; the step on which [onBegin(time)] returns is a read of the
    token that finds it clear, taken at the token test, hence with [time]
    published; when the test finds the token held the thread goes on to
    reset its slot to -1, and its slot is -1 whenever it is at the spin
    loop.  With the token clear and no interference the call returns. *)
Theorem onBegin_returns_published_token_clear g m sched g' m' tr time :
  pc m = Idle →
  forallb (is_env_ok (id m)) sched = true →
  run IrrevocQuiesce g m sched = Some (g', m', tr) →
  (pc m' = OnBegin_test time → slot g' (id m') = Some time)
  ∧ (pc m' = OnBegin_spin time → slot g' (id m') = Some IDLE)
  ∧ (∀ g'' m'' e,
       step IrrevocQuiesce g' m' = Some (g'', m'', e) →
       EvRet (OpOnBegin time) None ∈ e →
       pc m' = OnBegin_test time ∧ token g' = 0
       ∧ slot g' (id m') = Some time ∧ g'' = g')
  ∧ (pc m' = OnBegin_test time → token g' ≠ 0 →
       step IrrevocQuiesce g' m'
       = Some (g', goto (OnBegin_clear time) m', [EvRead LToken (token g')]))
  ∧ (pc m' = OnBegin_clear time →
       ∀ g'' m'' e, step IrrevocQuiesce g' m' = Some (g'', m'', e) →
       pc m'' = OnBegin_spin time ∧ slot g'' (id m'') = Some IDLE)
  ∧ (∀ g'' m'' e,
       step IrrevocQuiesce g' m' = Some (g'', m'', e) →
       pc m'' = OnBegin_spin time →
       pc m' = OnBegin_clear time ∨ (pc m' = OnBegin_spin time ∧ token g' ≠ 0))
  ∧ (token g = 0 → is_Some (slot g (id m)) →
       ∃ g1, call IrrevocQuiesce 2 g m (OpOnBegin time)
             = Some (g1, m, [EvCall (OpOnBegin time);
                             EvWrite (LEpoch (id m)) time;
                             EvRead LToken 0;
                             EvRet (OpOnBegin time) None])
           ∧ slot g1 (id m) = Some time).
Proof.
  intros Hpc HQ Hrun.
  assert (onBegin_inv g m) as H0 by (unfold onBegin_inv; by rewrite Hpc).
  destruct (onBegin_inv_run _ _ _ _ _ _ H0 HQ Hrun) as [Hinv Hid].
  unfold onBegin_inv in Hinv.
  split; [|split; [|split; [|split; [|split; [|split]]]]].
  - intros Hpc'. by rewrite Hpc' in Hinv.
  - intros Hpc'. by rewrite Hpc' in Hinv.
  - intros g'' m'' e Hstep Hret.
    destruct (pc m') as [|[]| | | | | | | | | |] eqn:Hpc';
      step_inv Hstep; elem_inv Hret; done.
  - intros Hpc' Htok. unfold step, step_IrrevocQuiesce, jump.
    rewrite Hpc'. by rewrite decide_False.
  - intros Hpc' g'' m'' e Hstep. rewrite Hpc' in Hinv.
    step_inv Hstep. slot_facts. done.
  - intros g'' m'' e Hstep Hpc''.
    destruct (pc m') as [|[]| | | | | | | | | |] eqn:Hpc';
      step_inv Hstep; simpl in *; simplify_eq; eauto.
  - intros Htok Hs.
    destruct (onBegin_returns g m time Hpc Htok Hs) as (g1 & ? & ? & ?). eauto.
Qed.

Lemma own_slot_inv_run1 me g m tr it g' m' e :
  id m = me → own_slot_inv g m tr → times_inv m tr →
  is_env_ok me it && begins_not_idle it = true →
  run1 IrrevocQuiesce g m it = Some (g', m', e) →
  own_slot_inv g' m' (tr ++ e) ∧ times_inv m' (tr ++ e).
Proof.
  intros Hid HP [HT1 HT2] [HQ HB]%andb_true_iff H.
  unfold own_slot_inv, times_inv in *. rewrite live_step_app.
  destruct it as [op| |a].
  - simpl in H. unfold jump in H. case_decide as Hpc; simplify_eq.
    rewrite Hpc in HP. simpl in *.
    destruct op; simpl in *; try done; by case_bool_decide.
  - destruct (pc m) as [|[]| | | | | | | | | |] eqn:Hpc;
      step_inv H; slot_facts; simpl; try done.
    all: try (split; [congruence|done]).
    all: try (split; [done|]; split; [congruence|done]).
  - simpl in H. destruct (env_apply g a) as [g1|] eqn:Ha; simplify_eq/=.
    erewrite env_apply_frame by done. done.
Qed.

Lemma own_slot_inv_run g m sched g' m' tr :
  own_slot_inv g m [] → times_inv m [] →
  forallb (is_env_ok (id m)) sched = true →
  forallb begins_not_idle sched = true →
  run IrrevocQuiesce g m sched = Some (g', m', tr) →
  own_slot_inv g' m' tr ∧ times_inv m' tr ∧ id m' = id m.
Proof.
  intros HP HT HQ HB Hrun.
  eapply (run_invariant IrrevocQuiesce
    (λ it, is_env_ok (id m) it && begins_not_idle it)
    (λ g1 m1 tr1, own_slot_inv g1 m1 tr1 ∧ times_inv m1 tr1 ∧ id m1 = id m))
    with (tr := []);
    [|split; [exact HP|split; [exact HT|done]]| |exact Hrun].
  - clear HP HT HQ HB Hrun.
    intros g1 m1 tr1 it g2 m2 e (HP & HT & Hid) HQ H.
    destruct (own_slot_inv_run1 (id m) g1 m1 tr1 it g2 m2 e Hid HP HT HQ H).
    apply run1_id in H. split; [done|]. split; [done|congruence].
  - clear Hrun. induction sched as [|it sched IH]; [done|].
    simpl in *. apply andb_true_iff in HQ as [-> ?].
    apply andb_true_iff in HB as [-> ?]. simpl. by apply IH.
Qed.


(** *** Waiting on the other threads *)

(** With every other slot at or past [time] and no interference, the wait
    loop of [quiesce] runs to its end. *)
Lemma quiesce_wait_returns g m time count (k : nat) i :
  i + N.of_nat k = count →
  (∀ j, i ≤ j → j < count → j ≠ id m → ∃ v, slot g j = Some v ∧ time ≤ v) →
  ∃ tr, finish IrrevocQuiesce (S k) g (goto (Quiesce_wait time count i) m)
        = Some (g, goto Idle m, tr).
Proof.
  revert i. induction k as [|k IH]; intros i Hik Hs.
  - eexists. erewrite finish_step; [|done|]; last first.
    { unfold step, step_IrrevocQuiesce, ret. simpl.
      rewrite decide_False by lia. done. }
    by rewrite finish_Idle.
  - destruct (IH (i + 1)) as [tr Htr]; [lia|intros; apply Hs; lia|].
    destruct (decide (i = id m)) as [Hi|Hi].
    + eexists. erewrite finish_step; [|done|]; last first.
      { unfold step, step_IrrevocQuiesce, jump. simpl.
        rewrite decide_True by lia. rewrite decide_True by done. done. }
      rewrite goto_goto, Htr. done.
    + destruct (Hs i) as (v & Hv & Hle); [lia..|done|].
      eexists. erewrite finish_step; [|done|]; last first.
      { unfold step, step_IrrevocQuiesce, jump. simpl.
        rewrite decide_True by lia. rewrite decide_False by done.
        rewrite Hv. simpl. rewrite decide_False by lia. done. }
      rewrite goto_goto, Htr. done.
Qed.

Lemma quiesce_returns g m time :
  pc m = Idle →
  (∀ j, j < idGenerator g → j ≠ id m → ∃ v, slot g j = Some v ∧ time ≤ v) →
  ∃ tr, call IrrevocQuiesce (N.to_nat (idGenerator g) + 2) g m (OpQuiesce time)
        = Some (g, m, tr).
Proof.
  intros Hpc Hs. rewrite call_unfold by done.
  destruct (quiesce_wait_returns g m time (idGenerator g)
              (N.to_nat (idGenerator g)) 0) as [tr Htr];
    [lia|intros; apply Hs; lia|].
  eexists. replace (N.to_nat (idGenerator g) + 2)%nat
    with (S (S (N.to_nat (idGenerator g)))) by lia.
  erewrite finish_step; [|done|]; last first.
  { unfold step, step_IrrevocQuiesce, jump. simpl. done. }
  rewrite goto_goto, Htr. simpl. rewrite <- Hpc.
  destruct m; simpl in *; by subst.
Qed.

(** *** [tryIrrevoc] *)

Lemma tryIrrevoc_holder g m fuel :
  pc m = Idle → hasToken m = true →
  call IrrevocQuiesce (S fuel) g m OpTryIrrevoc
  = Some (g, m, [EvCall OpTryIrrevoc; EvRet OpTryIrrevoc (Some true)]).
Proof.
  intros Hpc Hh. rewrite call_unfold by done.
  erewrite finish_step; [|done|]; last first.
  { unfold step, step_IrrevocQuiesce, ret. simpl. rewrite Hh. done. }
  rewrite finish_Idle by done. simpl.
  destruct m; simpl in *; by subst.
Qed.

Lemma tryIrrevoc_token_held g m fuel :
  pc m = Idle → hasToken m = false → token g ≠ 0 →
  call IrrevocQuiesce (S fuel) g m OpTryIrrevoc
  = Some (g, m, [EvCall OpTryIrrevoc; EvRead LToken (token g);
                 EvRet OpTryIrrevoc (Some false)]).
Proof.
  intros Hpc Hh Ht. rewrite call_unfold by done.
  erewrite finish_step; [|done|]; last first.
  { unfold step, step_IrrevocQuiesce, ret. simpl. rewrite Hh.
    rewrite decide_False by done. done. }
  rewrite finish_Idle by done. simpl.
  destruct m; simpl in *; by subst.
Qed.

Lemma tryIrrevoc_cas_fails g m :
  pc m = Try_cas → token g ≠ 0 →
  step IrrevocQuiesce g m
  = Some (g, goto Idle m, [EvCas LToken 0 1 false;
                           EvRet OpTryIrrevoc (Some false)]).
Proof.
  intros Hpc Ht. unfold step, step_IrrevocQuiesce, ret. rewrite Hpc.
  by rewrite decide_False.
Qed.

(** With every other slot idle and no interference, the wait loop of
    [tryIrrevoc] runs to its end and the caller marks itself. *)
Lemma tryIrrevoc_wait_returns g m count (k : nat) i :
  i + N.of_nat k = count →
  (∀ j, i ≤ j → j < count → j ≠ id m → slot g j = Some IDLE) →
  ∃ tr, finish IrrevocQuiesce (S k) g (goto (Try_wait count i) m)
        = Some (g, goto Idle (set_hasToken true m), tr)
      ∧ returned tr = Some (Some true).
Proof.
  revert i. induction k as [|k IH]; intros i Hik Hs.
  - eexists. erewrite finish_step; [|done|]; last first.
    { unfold step, step_IrrevocQuiesce, ret. simpl.
      rewrite decide_False by lia. done. }
    by rewrite finish_Idle.
  - destruct (IH (i + 1)) as (tr & Htr & Hr); [lia|intros; apply Hs; lia|].
    destruct (decide (i = id m)) as [Hi|Hi].
    + eexists. erewrite finish_step; [|done|]; last first.
      { unfold step, step_IrrevocQuiesce, jump. simpl.
        rewrite decide_True by lia. rewrite decide_True by done. done. }
      rewrite goto_goto, Htr. simpl. done.
    + pose proof (Hs i ltac:(lia) ltac:(lia) Hi) as Hv.
      eexists. erewrite finish_step; [|done|]; last first.
      { unfold step, step_IrrevocQuiesce, jump. simpl.
        rewrite decide_True by lia. rewrite decide_False by done.
        rewrite Hv. simpl. done. }
      rewrite goto_goto, Htr. simpl. split; [done|].
      by apply (returned_app [_]).
Qed.

(** With the token clear, every other slot idle and no interference,
    [tryIrrevoc] takes the token and returns [true]. *)
Lemma tryIrrevoc_returns g m :
  pc m = Idle → hasToken m = false → token g = 0 →
  (∀ j, j < idGenerator g → j ≠ id m → slot g j = Some IDLE) →
  ∃ tr, call IrrevocQuiesce (N.to_nat (idGenerator g) + 4) g m OpTryIrrevoc
        = Some (set_token 1 g, set_hasToken true m, tr)
      ∧ returned tr = Some (Some true).
Proof.
  intros Hpc Hh Ht Hs. rewrite call_unfold by done.
  destruct (tryIrrevoc_wait_returns (set_token 1 g) m (idGenerator g)
              (N.to_nat (idGenerator g)) 0) as (tr & Htr & Hr);
    [lia|intros; apply Hs; lia|].
  replace (N.to_nat (idGenerator g) + 4)%nat
    with (S (S (S (S (N.to_nat (idGenerator g)))))) by lia.
  erewrite finish_step; [|done|]; last first.
  { unfold step, step_IrrevocQuiesce, jump. simpl. rewrite Hh.
    rewrite decide_True by done. done. }
  erewrite finish_step; [|done|]; last first.
  { unfold step, step_IrrevocQuiesce, jump. simpl.
    rewrite decide_True by done. done. }
  erewrite finish_step; [|done|]; last first.
  { unfold step, step_IrrevocQuiesce, jump. simpl. done. }
  rewrite !goto_goto. simpl idGenerator. rewrite Htr. simpl.
  eexists. split.
  - do 2 f_equal. destruct m; simpl in *; by subst.
  - rewrite Ht. by apply (returned_app [_; _; _; _]).
Qed.

(** *** Whole calls, one after the other *)

Lemma finish_inv_Idle p fuel g m c :
  pc m = Idle → finish p fuel g m = Some c → c = (g, m, []).
Proof. intros H. rewrite finish_Idle by done. congruence. Qed.

Lemma finish_inv p fuel g m c :
  pc m ≠ Idle → finish p fuel g m = Some c →
  ∃ fuel' g1 m1 e1 g2 m2 e2,
    fuel = S fuel' ∧ step p g m = Some (g1, m1, e1)
    ∧ finish p fuel' g1 m1 = Some (g2, m2, e2) ∧ c = (g2, m2, e1 ++ e2).
Proof.
  intros Hpc H. destruct fuel as [|fuel]; simpl in H;
    rewrite decide_False in H by done; [done|].
  destruct (step p g m) as [[[g1 m1] e1]|] eqn:E1; simpl in H; [|done].
  destruct (finish p fuel g1 m1) as [[[g2 m2] e2]|] eqn:E2; simpl in H; [|done].
  simplify_eq. by eexists _, _, _, _, _, _, _.
Qed.

Lemma call_inv p fuel g m op c :
  call p fuel g m op = Some c →
  pc m = Idle
  ∧ ∃ g2 m2 e2, finish p fuel g (goto (Entry op) m) = Some (g2, m2, e2)
      ∧ c = (g2, m2, EvCall op :: e2).
Proof.
  unfold Epochs.call, Epochs.run1, jump. intros H.
  destruct (decide (pc m = Idle)); simpl in H; [|done]. split; [done|].
  destruct (finish p fuel g (goto (Entry op) m)) as [[[g2 m2] e2]|];
    simpl in H; [|done].
  simplify_eq. by eexists _, _, _.
Qed.

Lemma finish_try_wait fuel g m count i g' m' tr :
  pc m = Try_wait count i →
  finish IrrevocQuiesce fuel g m = Some (g', m', tr) →
  g' = g ∧ m' = goto Idle (set_hasToken true m).
Proof.
  revert m i tr. induction fuel as [|fuel IH]; intros m i tr Hpc H.
  - simpl in H. by rewrite Hpc in H.
  - apply finish_inv in H as (? & ? & ? & ? & ? & ? & ? & [= <-] & Hs & Hf & [= -> -> ->]);
      [|by rewrite Hpc].
    unfold step, step_IrrevocQuiesce, ret, jump in Hs. rewrite Hpc in Hs.
    repeat case_decide; simplify_option_eq.
    all: try (eapply IH in Hf as [-> ->]; [done|done]).
    rewrite finish_Idle in Hf by done. by simplify_eq.
Qed.

(** What a whole call of [tryIrrevoc] leaves behind. *)
Lemma call_tryIrrevoc_cases fuel g m g' m' tr :
  call IrrevocQuiesce fuel g m OpTryIrrevoc = Some (g', m', tr) →
  pc m = Idle
  ∧ ((g' = g ∧ m' = m ∧ returned tr = Some (Some (hasToken m))
        ∧ (hasToken m = false → token g ≠ 0))
     ∨ (hasToken m = false ∧ token g = 0
        ∧ g' = set_token 1 g ∧ m' = set_hasToken true m)).
Proof.
  intros H. apply call_inv in H as (Hpc & g2 & m2 & e2 & H & [= -> -> ->]).
  split; [done|].
  apply finish_inv in H as (? & ? & ? & ? & ? & ? & ? & -> & Hs & Hf & [= -> -> ->]);
    [|done].
  unfold step, step_IrrevocQuiesce, ret, jump in Hs. simpl in Hs.
  destruct (hasToken m) eqn:Hh; [|destruct (decide (token g = 0)) as [Ht|Ht]];
    simplify_eq.
  - rewrite finish_Idle in Hf by done. simplify_eq. left.
    split; [done|]. split; [destruct m; simpl in *; by subst|]. done.
  - right. do 2 (split; [done|]).
    apply finish_inv in Hf as (? & ? & ? & ? & ? & ? & ? & -> & Hs & Hf & [= -> -> ->]);
      [|done].
    unfold step, step_IrrevocQuiesce, ret, jump in Hs. simpl in Hs.
    rewrite decide_True in Hs by done. simplify_eq.
    apply finish_inv in Hf as (? & ? & ? & ? & ? & ? & ? & -> & Hs & Hf & [= -> -> ->]);
      [|done].
    unfold step, step_IrrevocQuiesce, ret, jump in Hs. simpl in Hs. simplify_eq.
    eapply finish_try_wait in Hf as [-> ->]; [|done].
    split; [done|]. destruct m; simpl in *; by subst.
  - rewrite finish_Idle in Hf by done. simplify_eq. left.
    split; [done|]. split; [destruct m; simpl in *; by subst|]. done.
Qed.

(** What a whole call of [onCommitIrrevoc] leaves behind. *)
Lemma call_onCommitIrrevoc_cases fuel g m g' m' tr :
  call IrrevocQuiesce fuel g m OpOnCommitIrrevoc = Some (g', m', tr) →
  pc m = Idle ∧ token g' = 0 ∧ m' = set_hasToken false m.
Proof.
  intros H. apply call_inv in H as (Hpc & g2 & m2 & e2 & H & [= -> -> ->]).
  split; [done|].
  apply finish_inv in H as (? & ? & ? & ? & ? & ? & ? & -> & Hs & Hf & [= -> -> ->]);
    [|done].
  unfold step, step_IrrevocQuiesce, ret, jump, clearEpoch in Hs. simpl in Hs.
  destruct (write_slot g (id m) IDLE) as [gw|] eqn:Hw; simplify_eq/=.
  apply finish_inv in Hf as (? & ? & ? & ? & ? & ? & ? & -> & Hs & Hf & [= -> -> ->]);
    [|done].
  unfold step, step_IrrevocQuiesce, ret, jump in Hs. simpl in Hs. simplify_eq.
  apply finish_inv in Hf as (? & ? & ? & ? & ? & ? & ? & -> & Hs & Hf & [= -> -> ->]);
    [|done].
  unfold step, step_IrrevocQuiesce, ret, jump in Hs. simpl in Hs. simplify_eq.
  rewrite finish_Idle in Hf by done. simplify_eq.
  split; [done|]. destruct m; simpl in *; by subst.
Qed.

Lemma existIrrevoc_returns g m fuel :
  pc m = Idle →
  call IrrevocQuiesce (S fuel) g m OpExistIrrevoc
  = Some (g, m, [EvCall OpExistIrrevoc; EvRead LToken (token g);
                 EvRet OpExistIrrevoc (Some (bool_decide (token g ≠ 0)))]).
Proof.
  intros Hpc. rewrite call_unfold by done.
  erewrite finish_step; [|done|]; last first.
  { unfold step, step_IrrevocQuiesce, ret. simpl. done. }
  rewrite finish_Idle by done. simpl.
  destruct m; simpl in *; by subst.
Qed.

Lemma call_by_inv p fuel w k op w' r :
  call_by p fuel w k op = Some (w', r) →
  ∃ m g' m' evs,
    threads w !! k = Some m
    ∧ call p fuel (globals w) m op = Some (g', m', evs)
    ∧ w' = mkWorld g' (<[k := m']> (threads w))
    ∧ r = returned evs.
Proof.
  unfold Epochs.call_by. intros H.
  destruct (threads w !! k) as [m|] eqn:Hk; simpl in H; [|done].
  destruct (call p fuel (globals w) m op) as [[[g' m'] evs]|] eqn:Hc;
    simpl in H; [|done].
  simplify_eq. by eexists _, _, _, _.
Qed.

Lemma holds_token_insert w g k m' k' :
  (k < length (threads w))%nat →
  holds_token (mkWorld g (<[k := m']> (threads w))) k'
  ↔ (k' = k ∧ hasToken m' = true) ∨ (k' ≠ k ∧ holds_token w k').
Proof.
  intros Hk. unfold holds_token. simpl. split.
  - intros (m & Hm & Hh). destruct (decide (k' = k)) as [->|Hne].
    + rewrite list_lookup_insert_eq in Hm by done. simplify_eq. by left.
    + rewrite list_lookup_insert_ne in Hm by done. right. eauto.
  - intros [[-> Hh]|[Hne (m & Hm & Hh)]].
    + exists m'. by rewrite list_lookup_insert_eq.
    + exists m. by rewrite list_lookup_insert_ne.
Qed.

Lemma World_init_token_inv n w : World_init n = Some w → token_inv w.
Proof.
  unfold Epochs.World_init. intros H.
  destruct (spawn n Globals_init) as [[g ms]|] eqn:Hs; simpl in H; [|done].
  simplify_eq.
  assert (∀ k m, ms !! k = Some m → pc m = Idle ∧ hasToken m = false) as Hms.
  { revert Hs. generalize Globals_init. revert g ms.
    induction n as [|n IH]; intros g ms g0 Hs k m Hk; simpl in Hs.
    - by simplify_eq.
    - unfold Epochs.construct, Epochs.BasicEpochManager in Hs.
      destruct (MAXTHREADS <=? idGenerator g0); simpl in Hs; [done|].
      destruct (Epochs.spawn MAXTHREADS n _) as [[g1 ms1]|] eqn:Hs1; [|done].
      simplify_eq. destruct k as [|k]; simpl in Hk.
      + by simplify_eq.
      + by eapply IH. }
  split; [|split].
  - intros k m Hk. by apply Hms in Hk as [? ?].
  - intros k1 k2 (m & Hm & Hh). apply Hms in Hm as [_ ?]. congruence.
  - intros k (m & Hm & Hh). apply Hms in Hm as [_ ?]. congruence.
Qed.

Lemma reachable_token_inv n w : reachable n w → token_inv w.
Proof.
  induction 1 as [w Hw|w k fuel w' r _ IH Hc|w k fuel w' r _ IH Hk Hc].
  - by eapply World_init_token_inv.
  - destruct IH as (Hidle & Hone & Htok).
    apply call_by_inv in Hc as (m & g' & m' & evs & Hm & Hc & -> & ->).
    pose proof (lookup_lt_Some _ _ _ Hm) as Hlt.
    apply call_tryIrrevoc_cases in Hc
      as (Hpc & [(-> & -> & _)|(Hh & Ht & -> & ->)]).
    { rewrite list_insert_id by done. by destruct w. }
    split; [|split].
    + intros k' m' Hk'. simpl in Hk'. destruct (decide (k' = k)) as [->|Hne].
      * rewrite list_lookup_insert_eq in Hk' by done. by simplify_eq.
      * rewrite list_lookup_insert_ne in Hk' by done. by eapply Hidle.
    + intros k1 k2 H1 H2.
      apply holds_token_insert in H1 as [[-> _]|[_ H1]]; [|by apply Htok in H1|done].
      apply holds_token_insert in H2 as [[-> _]|[_ H2]]; [done|by apply Htok in H2|done].
    + intros k' _. simpl. done.
  - destruct IH as (Hidle & Hone & Htok).
    apply call_by_inv in Hc as (m & g' & m' & evs & Hm & Hc & -> & ->).
    pose proof (lookup_lt_Some _ _ _ Hm) as Hlt.
    apply call_onCommitIrrevoc_cases in Hc as (Hpc & Ht & ->).
    assert (∀ k', ¬ holds_token
              (mkWorld g' (<[k := set_hasToken false m]> (threads w))) k')
      as Hnone.
    { intros k' [[_ ?]|[Hne H']]%holds_token_insert; [done| |done].
      apply Hne. by apply Hone. }
    split; [|split].
    + intros k' m' Hk'. simpl in Hk'. destruct (decide (k' = k)) as [->|Hne].
      * rewrite list_lookup_insert_eq in Hk' by done. simplify_eq. done.
      * rewrite list_lookup_insert_ne in Hk' by done. by eapply Hidle.
    + intros k1 k2 H1 _. by apply Hnone in H1.
    + intros k' H1. by apply Hnone in H1.
Qed.


End WithMaxThreads.

(** *** What depends on [MAXTHREADS] being an [int] *)

Section WithIntMaxThreads.

Variable MAXTHREADS : N.
Hypothesis MAXTHREADS_int : MAXTHREADS ≤ INT_MAX.

#[local] Abbreviation BasicEpochManager := (BasicEpochManager MAXTHREADS).
#[local] Abbreviation construct := (construct MAXTHREADS).
#[local] Abbreviation spawn := (spawn MAXTHREADS).
#[local] Abbreviation Globals_init := (Globals_init MAXTHREADS).
#[local] Abbreviation env_apply := (env_apply MAXTHREADS).
#[local] Abbreviation run1 := (run1 MAXTHREADS).
#[local] Abbreviation run := (run MAXTHREADS).
#[local] Abbreviation call := (call MAXTHREADS).
#[local] Abbreviation call_by := (call_by MAXTHREADS).
#[local] Abbreviation calls_by := (calls_by MAXTHREADS).
#[local] Abbreviation World_init := (World_init MAXTHREADS).
#[local] Abbreviation reachable := (reachable MAXTHREADS).
#[local] Abbreviation reachable_any := (reachable_any MAXTHREADS).

Lemma BasicEpochManager_ok g :
  idGenerator g < MAXTHREADS →
  BasicEpochManager g = (set_idGenerator (idGenerator g + 1) g, Some (idGenerator g)).
Proof.
  intros Hlt. unfold Epochs.BasicEpochManager.
  pose proof INT_MAX_lt_WORD.
  rewrite wrap64_small by lia.
  destruct (N.leb_spec MAXTHREADS (idGenerator g)); [lia | done].
Qed.

Lemma spawn_ok n g :
  idGenerator g + N.of_nat n ≤ MAXTHREADS →
  spawn n g =
    Some (set_idGenerator (idGenerator g + N.of_nat n) g,
          (λ k, mkManager (idGenerator g + N.of_nat k) false Idle) <$> seq 0 n).
Proof.
  revert g. induction n as [|n IH]; intros g Hle.
  - simpl. rewrite N.add_0_r. by destruct g.
  - simpl. unfold Epochs.construct.
    rewrite BasicEpochManager_ok by lia. simpl.
    rewrite IH by (simpl; lia). simpl.
    rewrite N.add_0_r. do 2 f_equal.
    + destruct g; unfold set_idGenerator; simpl. f_equal. lia.
    + f_equal. rewrite <- seq_shift, <- list_fmap_compose.
      apply list_fmap_ext. intros _ k _. simpl. f_equal. lia.
Qed.

Lemma spawn_fatal n g :
  idGenerator g ≤ MAXTHREADS → MAXTHREADS < idGenerator g + N.of_nat n →
  spawn n g = None.
Proof.
  revert g. induction n as [|n IH]; intros g Hge Hlt; [lia|].
  simpl. unfold Epochs.construct.
  destruct (decide (idGenerator g < MAXTHREADS)) as [Hin|Hout].
  - rewrite BasicEpochManager_ok by done. simpl.
    rewrite IH; [done | simpl; lia | simpl; lia].
  - pose proof (BasicEpochManager_fatal MAXTHREADS g ltac:(lia)) as Hf.
    destruct (BasicEpochManager g) as [g' r]. simpl in Hf. by subst r.
Qed.

(** C6.  Starting from fresh globals, the managers constructed one after
    the other receive the ids 0, 1, 2, ... in this order; the epoch table
    keeps its [MAXTHREADS] slots; and as soon as more than [MAXTHREADS]
    managers are constructed, the constructor whose id reaches
    [MAXTHREADS] terminates the process. *)
Theorem assign_id_sequential_or_fatal (n : nat) :
  (N.of_nat n ≤ MAXTHREADS →
     ∃ g ms, spawn n Globals_init = Some (g, ms)
       ∧ id <$> ms = N.of_nat <$> seq 0 n
       ∧ idGenerator g = N.of_nat n
       ∧ epochs g = epochs Globals_init
       ∧ length (epochs g) = N.to_nat MAXTHREADS)
  ∧ (MAXTHREADS < N.of_nat n → spawn n Globals_init = None)
  ∧ (∀ g, MAXTHREADS ≤ idGenerator g → (construct g).2 = None)
  ∧ (∀ g, idGenerator g < MAXTHREADS →
       (construct g).2 = Some (mkManager (idGenerator g) false Idle)
       ∧ idGenerator (construct g).1 = idGenerator g + 1
       ∧ epochs (construct g).1 = epochs g).
Proof.
  repeat split.
  - intros Hle. eexists _, _. split; [by apply spawn_ok|]. simpl.
    repeat split.
    + rewrite <- list_fmap_compose. by apply list_fmap_ext.
    + by rewrite length_replicate.
  - intros Hlt. apply spawn_fatal; simpl; lia.
  - intros g Hle. unfold Epochs.construct.
    pose proof (BasicEpochManager_fatal MAXTHREADS g Hle) as Hf.
    destruct (BasicEpochManager g) as [g' r]. simpl in *. by subst r.
  - unfold Epochs.construct. by rewrite BasicEpochManager_ok.
  - unfold Epochs.construct. by rewrite BasicEpochManager_ok.
  - unfold Epochs.construct. by rewrite BasicEpochManager_ok.
Qed.

Lemma env_apply_idGenerator g a g' :
  env_apply g a = Some g' → idGenerator g ≤ idGenerator g'.
Proof.
  destruct a as [i v| v |]; simpl; intros H.
  - apply write_slot_Some in H as (_ & _ & -> & _). lia.
  - simplify_eq. simpl. lia.
  - unfold Epochs.BasicEpochManager in H.
    destruct (N.leb_spec MAXTHREADS (idGenerator g)); simplify_eq. simpl.
    pose proof INT_MAX_lt_WORD. rewrite wrap64_small; lia.
Qed.

Lemma quiesce_inv_run1 me base time g m tr it g' m' e :
  quiesce_inv me base time g m tr → no_invoke it = true →
  run1 IrrevocQuiesce g m it = Some (g', m', e) →
  quiesce_inv me base time g' m' (tr ++ e).
Proof.
  intros (Hb & Hid & Hnr & HP) HQ H. unfold quiesce_inv.
  destruct it as [op| |a]; [done| |].
  - destruct (pc m) as [|[]| | | | | | | | | |] eqn:Hpc; try done.
    + unfold Epochs.run1, step, step_IrrevocQuiesce in H. by rewrite Hpc in H.
    + unfold Epochs.run1, step, step_IrrevocQuiesce, jump in H.
      rewrite Hpc in H. simplify_eq. simpl.
      repeat split; try done.
      * apply never_read_app; [done|]. intros v Hv. by elem_inv Hv.
      * intros j Hj. lia.
    + destruct HP as (-> & Hc & Hseen).
      unfold Epochs.run1, step, step_IrrevocQuiesce, jump, ret in H.
      rewrite Hpc in H.
      destruct (decide (i < count)); [destruct (decide (i = id m))|].
      * simplify_eq. simpl. rewrite app_nil_r.
        repeat split; try done. intros j Hj Hne. apply Hseen; [lia|done].
      * destruct (slot g i) as [v|] eqn:Hv; simplify_eq/=.
        destruct (decide (v < time)); simplify_eq/=.
        -- repeat split; try done.
           ++ apply never_read_app; [done|]. intros w Hw. by elem_inv Hw.
           ++ intros j Hj Hne. by apply seen_past_mono, Hseen.
        -- repeat split; try done.
           ++ apply never_read_app; [done|]. intros w Hw. by elem_inv Hw.
           ++ intros j Hj Hne. destruct (decide (j = i)) as [->|].
              ** exists v. split; [|lia]. apply elem_of_app. right. by left.
              ** apply seen_past_mono, Hseen; [lia|done].
      * simplify_eq/=. repeat split; try done.
        -- apply never_read_app; [done|]. intros w Hw. by elem_inv Hw.
        -- intros j Hj Hne. apply seen_past_mono, Hseen; [lia|done].
  - simpl in H. destruct (env_apply g a) as [g1|] eqn:Ha; simplify_eq/=.
    rewrite app_nil_r. apply env_apply_idGenerator in Ha.
    repeat split; [lia|done..].
Qed.

(** A call of [quiesce(time)] that has returned has read the slot of every
    other manager constructed before the call at or past [time], and has
    not read the caller's slot. *)
Lemma quiesce_observed g m sched g' m' tr time :
  pc m = Idle → forallb no_invoke sched = true →
  run IrrevocQuiesce g m (Invoke (OpQuiesce time) :: sched) = Some (g', m', tr) →
  pc m' = Idle →
  (∀ j, j < idGenerator g → j ≠ id m → seen_past time j tr)
  ∧ never_read (id m) tr.
Proof.
  intros Hpc HQ Hrun Hpc'.
  apply run_cons in Hrun as (g1 & m1 & e1 & e2 & H1 & H2 & ->).
  simpl in H1. unfold jump in H1. rewrite decide_True in H1 by done.
  simplify_eq.
  assert (quiesce_inv (id m) (idGenerator g1) time g1
            (goto (Entry (OpQuiesce time)) m) [EvCall (OpQuiesce time)])
    as Hinv0.
  { repeat split; simpl; try done; try lia. intros v Hv. by elem_inv Hv. }
  pose proof (run_invariant MAXTHREADS IrrevocQuiesce no_invoke
    (quiesce_inv (id m) (idGenerator g1) time)
    (λ g m tr it g' m' e, quiesce_inv_run1 _ _ _ g m tr it g' m' e)
    sched _ _ _ _ _ _ Hinv0 HQ H2) as (_ & _ & Hnr & HP).
  rewrite Hpc' in HP. done.
Qed.

Lemma tryIrrevoc_inv_run1 me base g m tr it g' m' e :
  tryIrrevoc_inv me base g m tr → no_invoke it = true →
  run1 IrrevocQuiesce g m it = Some (g', m', e) →
  tryIrrevoc_inv me base g' m' (tr ++ e).
Proof.
  intros (Hb & Hid & Hnr & HP) HQ H. unfold tryIrrevoc_inv.
  destruct it as [op| |a]; [done| |].
  - destruct (pc m) as [|[]| | | | | | | | | |] eqn:Hpc; try done.
    + unfold Epochs.run1, step, step_IrrevocQuiesce in H. by rewrite Hpc in H.
    + destruct HP as (Hh & Hret & Hcas).
      unfold Epochs.run1, step, step_IrrevocQuiesce, jump, ret in H.
      rewrite Hpc, Hh in H. destruct (decide (token g = 0)); simplify_eq/=.
      * repeat split; try done; trace_facts.
      * repeat split; try done; trace_facts.
        all: absurd_in.
    + destruct HP as (Hh & Hret & Hcas).
      unfold Epochs.run1, step, step_IrrevocQuiesce, jump, ret in H.
      rewrite Hpc in H. destruct (decide (token g = 0)); simplify_eq/=.
      * repeat split; try done; trace_facts. apply elem_of_app. right. by left.
      * repeat split; try done; trace_facts.
        all: absurd_in.
    + destruct HP as (Hh & Hret & Hcas).
      unfold Epochs.run1, step, step_IrrevocQuiesce, jump, ret in H.
      rewrite Hpc in H. simplify_eq/=.
      repeat split; try done; trace_facts.
      * apply elem_of_app. by left.
      * intros j Hj. lia.
    + destruct HP as (Hh & Hret & Hcas & Hc & Hseen).
      unfold Epochs.run1, step, step_IrrevocQuiesce, jump, ret in H.
      rewrite Hpc in H.
      destruct (decide (i < count)); [destruct (decide (i = id m))|].
      * simplify_eq/=. rewrite app_nil_r.
        repeat split; try done. intros j Hj Hne. apply Hseen; [lia|done].
      * destruct (slot g i) as [v|] eqn:Hv; simplify_eq/=.
        destruct (decide (v = IDLE)); simplify_eq/=.
        -- repeat split; try done; trace_facts.
           ++ apply elem_of_app. by left.
           ++ intros j Hj Hne. destruct (decide (j = i)) as [->|].
              ** apply elem_of_app. right. by left.
              ** apply seen_idle_mono, Hseen; [lia|done].
        -- repeat split; try done; trace_facts.
           ++ apply elem_of_app. by left.
           ++ intros j Hj Hne. by apply seen_idle_mono, Hseen.
      * simplify_eq/=. repeat split; try done; trace_facts.
        -- apply elem_of_app. by left.
        -- intros j Hj Hne. apply seen_idle_mono, Hseen; [lia|done].
        -- exfalso. match goal with Hn : _ ∉ _ |- _ => apply Hn end.
           apply elem_of_app. right. by left.
        -- exfalso. match goal with Hn : EvRet _ _ ∉ _ |- _ => apply Hn end.
           apply elem_of_app. right. by left.
  - simpl in H. destruct (env_apply g a) as [g1|] eqn:Ha; simplify_eq/=.
    rewrite app_nil_r. apply env_apply_idGenerator in Ha.
    repeat split; [lia|done..].
Qed.

(** A call of [tryIrrevoc] by a thread that did not hold the token, once
    returned: it returned [true] exactly when its compare-and-swap took
    the token, and then it holds the token, after it has read the slot of
    every other manager constructed before the call as idle. *)
Lemma tryIrrevoc_observed g m sched g' m' tr :
  pc m = Idle → hasToken m = false → forallb no_invoke sched = true →
  run IrrevocQuiesce g m (Invoke OpTryIrrevoc :: sched) = Some (g', m', tr) →
  pc m' = Idle →
  (EvRet OpTryIrrevoc (Some true) ∈ tr →
     hasToken m' = true ∧ EvCas LToken 0 1 true ∈ tr
     ∧ ∀ j, j < idGenerator g → j ≠ id m → seen_idle j tr)
  ∧ (EvRet OpTryIrrevoc (Some true) ∉ tr →
       hasToken m' = false ∧ EvCas LToken 0 1 true ∉ tr)
  ∧ never_read (id m) tr.
Proof.
  intros Hpc Hh HQ Hrun Hpc'.
  apply run_cons in Hrun as (g1 & m1 & e1 & e2 & H1 & H2 & ->).
  simpl in H1. unfold jump in H1. rewrite decide_True in H1 by done.
  simplify_eq.
  assert (tryIrrevoc_inv (id m) (idGenerator g1) g1
            (goto (Entry OpTryIrrevoc) m) [EvCall OpTryIrrevoc])
    as Hinv0.
  { repeat split; simpl; try done; try lia; trace_facts. }
  pose proof (run_invariant MAXTHREADS IrrevocQuiesce no_invoke
    (tryIrrevoc_inv (id m) (idGenerator g1))
    (λ g m tr it g' m' e, tryIrrevoc_inv_run1 _ _ g m tr it g' m' e)
    sched _ _ _ _ _ _ Hinv0 HQ H2) as (_ & _ & Hnr & HP).
  rewrite Hpc' in HP. destruct HP as [HP1 HP2]. done.
Qed.

End WithIntMaxThreads.

(** *** Concrete runs *)

(** Three managers for a table of two slots: the third constructor is
    fatal. *)
Lemma assign_id_sequential_or_fatal_witness :
  2 ≤ INT_MAX ∧ spawn 2 3 (Globals_init 2) = None
  ∧ ∃ g ms, spawn 2 2 (Globals_init 2) = Some (g, ms) ∧ id <$> ms = [0; 1].
Proof.
  assert (2 ≤ INT_MAX) as H by (by vm_compute).
  split; [exact H|].
  destruct (assign_id_sequential_or_fatal 2 H 3) as (_ & Hfatal & _).
  destruct (assign_id_sequential_or_fatal 2 H 2) as (Hok & _).
  split; [apply Hfatal; by vm_compute|].
  destruct Hok as (g & ms & Hs & Hids & _); [by vm_compute|].
  by exists g, ms.
Defined.

(** A thread begins at time 7 while another thread holds the token, spins
    with its slot idle, and gets through once the token is released. *)
Lemma onBegin_returns_published_token_clear_witness :
  let g := mkGlobals 2 [IDLE; IDLE] 0 in
  let m := mkManager 0 false Idle in
  let onBegin_schedule :=
    [Env (EnvToken 1); Invoke (OpOnBegin 7); Step; Step; Step; Step;
     Env (EnvToken 0); Env (EnvEpoch 1 9); Step; Step] in
  ∃ g' m' tr,
    run 2 IrrevocQuiesce g m onBegin_schedule = Some (g', m', tr)
    ∧ pc m' = OnBegin_test 7
    ∧ slot g' (id m') = Some 7
    ∧ step IrrevocQuiesce g' m'
      = Some (g', goto Idle m', [EvRead LToken 0; EvRet (OpOnBegin 7) None]).
Proof.
  intros g m onBegin_schedule.
  destruct (run 2 IrrevocQuiesce g m onBegin_schedule)
    as [[[g' m'] tr]|] eqn:Hrun; [|by vm_compute in Hrun].
  exists g', m', tr. split; [done|].
  assert (pc m' = OnBegin_test 7) as Hpc by (by vm_compute in Hrun; simplify_eq).
  split; [done|].
  destruct (onBegin_returns_published_token_clear 2 g m onBegin_schedule
              g' m' tr 7) as (Hslot & _); [done|by vm_compute|done|].
  split; [by apply Hslot|].
  by vm_compute in Hrun; simplify_eq.
Defined.





End EpochsTheory.
(** ** The list-based epoch manager *)

Module CCSTMTheory.
Import CCSTM.

Lemma cc_goto_goto p q m : goto p (goto q m) = goto p m.
Proof. done. Qed.

Lemma cc_returned_app e tr r :
  returned tr = Some r → returned (e ++ tr) = Some r.
Proof.
  unfold returned. rewrite last_app. destruct (last tr); [done|]. done.
Qed.

Lemma cc_not_elem_of_app (x : Event) tr e : x ∉ tr → x ∉ e → x ∉ tr ++ e.
Proof. intros H1 H2 [?|?]%elem_of_app; done. Qed.

Lemma cc_seen_past_mono time d tr e :
  seen_past time d tr → seen_past time d (tr ++ e).
Proof. intros (v & ? & ?). exists v. split; [|done]. apply elem_of_app. by left. Qed.

Lemma cc_never_read_app d tr e :
  never_read d tr → never_read d e → never_read d (tr ++ e).
Proof. intros H1 H2 v [?|?]%elem_of_app; [by eapply H1 | by eapply H2]. Qed.

Lemma cc_not_returned_app tr e :
  not_returned tr → not_returned e → not_returned (tr ++ e).
Proof. intros H1 H2 op r [?|?]%elem_of_app; [by eapply H1 | by eapply H2]. Qed.

(** The list does not change under the feet of a walk: the other threads
    write start times and link new descriptors in front. *)
Lemma chain_env g a g' p l :
  env_apply g a = Some g' → chain g p l → chain g' p l.
Proof.
  intros Ha Hc. induction Hc as [|d desc l Hd _ IH]; [constructor|].
  destruct a as [d' v|v|d' v]; simpl in Ha.
  - destruct (descriptors g !! d') as [desc'|] eqn:Hd'; simpl in Ha; [|done].
    injection Ha as <-.
    destruct (decide (d = d')) as [->|Hne].
    + apply chain_cons with (desc := mkDescriptor (next desc') v).
      * simpl. by rewrite lookup_insert_eq.
      * simpl. assert (desc' = desc) as -> by congruence. exact IH.
    + apply chain_cons with (desc := desc); [|exact IH].
      simpl. by rewrite lookup_insert_ne.
  - injection Ha as <-. by apply chain_cons with (desc := desc).
  - destruct (descriptors g !! d') as [desc'|] eqn:Hd'; [done|].
    injection Ha as <-.
    apply chain_cons with (desc := desc); [|exact IH]. simpl.
    rewrite lookup_insert_ne; [done|]. intros ->. congruence.
Qed.

Lemma chain_env_head g a g' l :
  env_apply g a = Some g' → chain g (all_threads g) l →
  ∃ l', chain g' (all_threads g') l' ∧ ∀ d, d ∈ l → d ∈ l'.
Proof.
  intros Ha Hc. pose proof (chain_env _ _ _ _ _ Ha Hc) as Hc'.
  destruct a as [d' v|v|d' v]; simpl in Ha.
  - destruct (descriptors g !! d'); simplify_eq/=. eauto.
  - simplify_eq/=. eauto.
  - destruct (descriptors g !! d') eqn:Hd'; simplify_eq/=.
    exists (d' :: l). split.
    + eapply chain_cons; [simpl; by rewrite lookup_insert_eq|done].
    + intros d Hd. by right.
Qed.

Lemma chain_inj g p l1 l2 : chain g p l1 → chain g p l2 → l1 = l2.
Proof.
  intros H1. revert l2. induction H1 as [|d desc l Hd _ IH]; intros l2 H2.
  - by inversion H2.
  - inversion H2; simplify_eq. f_equal. by apply IH.
Qed.

Ltac cc_elem_inv H :=
  simpl in H;
  repeat first
    [ apply elem_of_nil in H; destruct H
    | apply elem_of_cons in H as [H|H]; simplify_eq ].

Ltac cc_trace_facts :=
  repeat match goal with
  | |- never_read _ (_ ++ _) => apply cc_never_read_app; [done|]
  | |- not_returned (_ ++ _) => apply cc_not_returned_app; [done|]
  | |- never_read _ _ => let v := fresh in let H := fresh in
                         intros v H; by cc_elem_inv H
  | |- not_returned _ => let v := fresh in let r := fresh in let H := fresh in
                         intros v r H; by cc_elem_inv H
  | |- _ ∉ _ ++ _ => apply cc_not_elem_of_app; [done|]
  | |- _ ∉ _ => let H := fresh in intros H; by cc_elem_inv H
  end.

Ltac cc_absurd_in :=
  match goal with
  | Hret : not_returned ?tr, H : EvRet _ _ ∈ ?tr ++ _ |- _ =>
      apply elem_of_app in H as [H|H]; [by apply Hret in H | by cc_elem_inv H]
  end.

Lemma chain_descriptors g g' p l :
  descriptors g' = descriptors g → chain g p l → chain g' p l.
Proof.
  intros Heq Hc. induction Hc as [|d desc l Hd _ IH]; [constructor|].
  apply chain_cons with (desc := desc); [by rewrite Heq|done].
Qed.

Ltac cc_registry :=
  match goal with
  | Hreg : ∃ l, chain _ _ l ∧ _ |- ∃ l, chain _ _ l ∧ _ =>
      let l0 := fresh in let Hc0 := fresh in let Hall0 := fresh in
      destruct Hreg as (l0 & Hc0 & Hall0); exists l0;
      split; [by eapply chain_descriptors; [|exact Hc0]|done]
  end.

Lemma walk_inv_mono (seen : nat → list Event → Prop) registered g m curr tr e :
  (∀ d, seen d tr → seen d (tr ++ e)) →
  walk_inv seen registered g m curr tr →
  walk_inv seen registered g m curr (tr ++ e).
Proof.
  intros Hmono (rest & Hc & Hall). exists rest. split; [done|].
  intros d Hd Hne. destruct (Hall d Hd Hne); [by left|right; by apply Hmono].
Qed.

Lemma walk_inv_next (seen : nat → list Event → Prop) registered g m curr n tr :
  get_next g curr = Some n →
  walk_inv seen registered g m (Some curr) tr →
  (curr ≠ me m → seen curr tr) →
  walk_inv seen registered g m n tr.
Proof.
  unfold get_next. intros Hn (rest & Hc & Hall) Hseen.
  inversion Hc as [|d desc l Hd Hl]; simplify_eq.
  rewrite Hd in Hn. simplify_eq/=. exists l. split; [done|].
  intros d Hd' Hne. destruct (Hall d Hd' Hne) as [Hin|?]; [|by right].
  apply elem_of_cons in Hin as [->|?]; [right; by apply Hseen|by left].
Qed.

Lemma walk_inv_end (seen : nat → list Event → Prop) registered g m tr :
  walk_inv seen registered g m None tr →
  ∀ d, d ∈ registered → d ≠ me m → seen d tr.
Proof.
  intros (rest & Hc & Hall) d Hd Hne. inversion Hc; simplify_eq.
  destruct (Hall d Hd Hne) as [Hin|?]; [|done]. by apply elem_of_nil in Hin.
Qed.

Lemma walk_inv_start (seen : nat → list Event → Prop) registered g m tr :
  (∃ l, chain g (all_threads g) l ∧ ∀ d, d ∈ registered → d ∈ l) →
  walk_inv seen registered g m (all_threads g) tr.
Proof. intros (l & Hc & Hall). exists l. split; [done|]. intros d Hd _. left. auto. Qed.

Lemma walk_inv_env (seen : nat → list Event → Prop) registered g m curr tr a g' :
  env_apply g a = Some g' →
  walk_inv seen registered g m curr tr →
  walk_inv seen registered g' m curr tr.
Proof.
  intros Ha (rest & Hc & Hall). exists rest. split; [|done].
  by eapply chain_env.
Qed.

Section WithExoTM.

Variable END_OF_TIME : N.

#[local] Abbreviation seen_idle := (seen_idle END_OF_TIME).

Lemma cc_seen_idle_mono d tr e : seen_idle d tr → seen_idle d (tr ++ e).
Proof. unfold CCSTM.seen_idle. intros ?. apply elem_of_app. by left. Qed.

Section WithQuiesce.

Variable QUIESCE : bool.

#[local] Abbreviation step := (step END_OF_TIME QUIESCE).
#[local] Abbreviation run1 := (run1 END_OF_TIME QUIESCE).
#[local] Abbreviation run := (run END_OF_TIME QUIESCE).
#[local] Abbreviation finish := (finish END_OF_TIME QUIESCE).
#[local] Abbreviation call := (call END_OF_TIME QUIESCE).

Lemma cc_run_cons g m it sched g' m' e :
  run g m (it :: sched) = Some (g', m', e) →
  ∃ g1 m1 e1 e2,
    run1 g m it = Some (g1, m1, e1)
    ∧ run g1 m1 sched = Some (g', m', e2)
    ∧ e = e1 ++ e2.
Proof.
  simpl. intros H.
  destruct (run1 g m it) as [[[g1 m1] e1]|] eqn:E1; simpl in H; [|done].
  destruct (run g1 m1 sched) as [[[g2 m2] e2]|] eqn:E2; simpl in H; [|done].
  simplify_eq. by eexists _, _, _, _.
Qed.

Lemma cc_run_invariant (Q : Item → bool)
    (P : Globals → Manager → list Event → Prop) :
  (∀ g m tr it g' m' e,
     P g m tr → Q it = true → run1 g m it = Some (g', m', e) →
     P g' m' (tr ++ e)) →
  ∀ sched g m tr g' m' e,
    P g m tr → forallb Q sched = true →
    run g m sched = Some (g', m', e) → P g' m' (tr ++ e).
Proof.
  intros Hstep. induction sched as [|it sched IH]; intros g m tr g' m' e HP HQ Hrun.
  - simpl in Hrun. simplify_eq. by rewrite app_nil_r.
  - apply cc_run_cons in Hrun as (g1 & m1 & e1 & e2 & H1 & H2 & ->).
    simpl in HQ. apply andb_true_iff in HQ as [HQ1 HQ2].
    rewrite app_assoc. eapply IH; [|done|done]. by eapply Hstep.
Qed.

Lemma cc_finish_Idle fuel g m :
  pc m = Idle → finish fuel g m = Some (g, m, []).
Proof. intros H. destruct fuel; simpl; by rewrite decide_True. Qed.

Lemma cc_finish_step fuel g m g1 m1 e1 :
  pc m ≠ Idle → step g m = Some (g1, m1, e1) →
  finish (S fuel) g m
  = '(g2, m2, e2) ← finish fuel g1 m1; Some (g2, m2, e1 ++ e2).
Proof. intros H Hs. simpl. rewrite decide_False by done. by rewrite Hs. Qed.

Lemma cc_call_unfold fuel g m op :
  pc m = Idle →
  call fuel g m op
  = '(g2, m2, e2) ← finish fuel g (goto (Entry op) m);
    Some (g2, m2, EvCall op :: e2).
Proof.
  intros H. unfold CCSTM.call, CCSTM.run1, jump.
  by rewrite decide_True.
Qed.

Lemma cc_tryIrrevoc_inv_run1 self registered g m tr it g' m' e :
  tryIrrevoc_inv END_OF_TIME self registered g m tr → no_invoke it = true →
  run1 g m it = Some (g', m', e) →
  tryIrrevoc_inv END_OF_TIME self registered g' m' (tr ++ e).
Proof.
  intros (Hid & Hnr & Hreg & HP) HQ H. unfold tryIrrevoc_inv.
  destruct it as [op| |a]; [done| |].
  - destruct (pc m) as [|[]| | | | |[curr|]|curr| |] eqn:Hpc; try done.
    + unfold CCSTM.run1, CCSTM.step in H. by rewrite Hpc in H.
    + destruct HP as (Hh & Hret & Hcas).
      unfold CCSTM.run1, CCSTM.step, jump, ret in H.
      rewrite Hpc, Hh in H. destruct (decide (token g = 0)); simplify_eq/=.
      * repeat split; try done; cc_trace_facts.
      * repeat split; try done; cc_trace_facts.
        all: cc_absurd_in.
    + destruct HP as (Hh & Hret & Hcas).
      unfold CCSTM.run1, CCSTM.step, jump, ret in H.
      rewrite Hpc in H. destruct (decide (token g = 0)); simplify_eq/=.
      * split; [done|]. split; [cc_trace_facts|]. split; [cc_registry|].
        repeat split; try done; cc_trace_facts. apply elem_of_app. right. by left.
      * repeat split; try done; cc_trace_facts.
        all: cc_absurd_in.
    + destruct HP as (Hh & Hret & Hcas).
      unfold CCSTM.run1, CCSTM.step, jump, ret in H.
      rewrite Hpc in H. simplify_eq/=.
      repeat split; try done; cc_trace_facts.
      * apply elem_of_app. by left.
      * by apply walk_inv_start.
    + destruct HP as (Hh & Hret & Hcas & Hwalk).
      unfold CCSTM.run1, CCSTM.step, jump, ret in H.
      rewrite Hpc in H.
      destruct (decide (curr = me m)).
      * simplify_eq/=. rewrite app_nil_r. repeat split; try done.
      * unfold get_start_time in H.
        destruct (descriptors g !! curr) as [desc|] eqn:Hd; simplify_eq/=.
        destruct (decide (start_time desc = END_OF_TIME)) as [Hv|Hv];
          simpl in H; injection H as <- <- <-.
        -- repeat split; try done; cc_trace_facts.
           ++ apply elem_of_app. by left.
           ++ apply walk_inv_mono; [intros ?; apply cc_seen_idle_mono|done].
           ++ intros _. apply elem_of_app. right. rewrite Hv. by left.
        -- repeat split; try done; cc_trace_facts.
           ++ apply elem_of_app. by left.
           ++ apply walk_inv_mono; [intros ?; apply cc_seen_idle_mono|done].
    + destruct HP as (Hh & Hret & Hcas & Hwalk).
      unfold CCSTM.run1, CCSTM.step, jump, ret in H.
      rewrite Hpc in H. simplify_eq/=.
      pose proof (walk_inv_end _ _ _ _ _ Hwalk) as Hall.
      repeat split; try done; cc_trace_facts.
      * apply elem_of_app. by left.
      * intros d Hd Hne. apply cc_seen_idle_mono. by apply Hall.
      * exfalso. match goal with Hn : _ ∉ _ |- _ => apply Hn end.
        apply elem_of_app. right. by left.
      * exfalso. match goal with Hn : EvRet _ _ ∉ _ |- _ => apply Hn end.
        apply elem_of_app. right. by left.
    + destruct HP as (Hh & Hret & Hcas & Hwalk & Hseen).
      unfold CCSTM.run1, CCSTM.step, jump, ret in H.
      rewrite Hpc in H.
      destruct (get_next g curr) as [n|] eqn:Hn; simplify_eq/=.
      repeat split; try done; cc_trace_facts.
      * apply elem_of_app. by left.
      * apply walk_inv_mono; [intros ?; apply cc_seen_idle_mono|].
        by eapply walk_inv_next.
  - simpl in H. destruct (env_apply g a) as [g1|] eqn:Ha; simplify_eq/=.
    rewrite app_nil_r.
    split; [done|]. split; [done|]. split.
    { destruct Hreg as (l & Hc & Hall).
      destruct (chain_env_head _ _ _ _ Ha Hc) as (l' & Hc' & Hsub).
      exists l'. split; [done|]. auto. }
    destruct (pc m') as [|[]| | | | |curr|curr| |]; try done.
    + destruct HP as (? & ? & ? & ?). repeat split; try done.
      by eapply walk_inv_env.
    + destruct HP as (? & ? & ? & ? & ?). repeat split; try done.
      by eapply walk_inv_env.
Qed.

Lemma cc_tryIrrevoc_holder g m fuel :
  pc m = Idle → hasToken m = true →
  call (S fuel) g m OpTryIrrevoc
  = Some (g, m, [EvCall OpTryIrrevoc; EvRet OpTryIrrevoc (Some true)]).
Proof.
  intros Hpc Hh. rewrite cc_call_unfold by done.
  erewrite cc_finish_step; [|done|]; last first.
  { unfold CCSTM.step, ret. simpl. rewrite Hh. done. }
  rewrite cc_finish_Idle by done. simpl.
  destruct m; simpl in *; by subst.
Qed.

Lemma cc_tryIrrevoc_token_held g m fuel :
  pc m = Idle → hasToken m = false → token g ≠ 0 →
  call (S fuel) g m OpTryIrrevoc
  = Some (g, m, [EvCall OpTryIrrevoc; EvReadToken (token g);
                 EvRet OpTryIrrevoc (Some false)]).
Proof.
  intros Hpc Hh Ht. rewrite cc_call_unfold by done.
  erewrite cc_finish_step; [|done|]; last first.
  { unfold CCSTM.step, ret. simpl. rewrite Hh.
    rewrite decide_False by done. done. }
  rewrite cc_finish_Idle by done. simpl.
  destruct m; simpl in *; by subst.
Qed.

Lemma cc_tryIrrevoc_cas_fails g m :
  pc m = Try_cas → token g ≠ 0 →
  step g m
  = Some (g, goto Idle m, [EvCasToken 0 1 false;
                           EvRet OpTryIrrevoc (Some false)]).
Proof.
  intros Hpc Ht. unfold CCSTM.step, ret. rewrite Hpc.
  by rewrite decide_False.
Qed.

Lemma cc_tryIrrevoc_observed g m registered sched g' m' tr :
  pc m = Idle → hasToken m = false →
  chain g (all_threads g) registered →
  forallb no_invoke sched = true →
  run g m (Invoke OpTryIrrevoc :: sched) = Some (g', m', tr) →
  pc m' = Idle →
  (EvRet OpTryIrrevoc (Some true) ∈ tr →
     hasToken m' = true ∧ EvCasToken 0 1 true ∈ tr
     ∧ ∀ d, d ∈ registered → d ≠ me m → seen_idle d tr)
  ∧ (EvRet OpTryIrrevoc (Some true) ∉ tr →
       hasToken m' = false ∧ EvCasToken 0 1 true ∉ tr)
  ∧ never_read (me m) tr.
Proof.
  intros Hpc Hh Hreg HQ Hrun Hpc'.
  apply cc_run_cons in Hrun as (g1 & m1 & e1 & e2 & H1 & H2 & ->).
  simpl in H1. unfold jump in H1. rewrite decide_True in H1 by done.
  simplify_eq.
  assert (tryIrrevoc_inv END_OF_TIME (me m) registered g1
            (goto (Entry OpTryIrrevoc) m) [EvCall OpTryIrrevoc])
    as Hinv0.
  { split; [done|]. split; [cc_trace_facts|]. split; [by exists registered|].
    simpl. repeat split; try done; cc_trace_facts. }
  pose proof (cc_run_invariant no_invoke
    (tryIrrevoc_inv END_OF_TIME (me m) registered)
    (λ g m tr it g' m' e, cc_tryIrrevoc_inv_run1 _ _ g m tr it g' m' e)
    sched _ _ _ _ _ _ Hinv0 HQ H2) as (_ & Hnr & _ & HP).
  rewrite Hpc' in HP. destruct HP as [HP1 HP2]. done.
Qed.

(** Alone, with every other registered thread idle, the walk of
    [tryIrrevoc] reaches the end of the list. *)
Lemma cc_tryIrrevoc_walk_returns g m curr rest :
  chain g curr rest →
  (∀ d, d ∈ rest → d ≠ me m → get_start_time g d = Some END_OF_TIME) →
  ∃ tr, finish (2 * length rest + 1) g (goto (Try_wait curr) m)
        = Some (g, goto Idle (set_hasToken true m), tr)
      ∧ returned tr = Some (Some true).
Proof.
  intros Hc. induction Hc as [|d desc l Hd Hl IH]; intros Hs.
  - eexists. simpl length. simpl Nat.add.
    erewrite cc_finish_step; [|done|]; last first.
    { unfold CCSTM.step, ret. simpl. done. }
    by rewrite cc_finish_Idle.
  - destruct IH as (tr & Htr & Hr); [intros; apply Hs; [by right|done]|].
    replace (2 * length (d :: l) + 1)%nat
      with (S (S (2 * length l + 1))) by (simpl; lia).
    assert (step g (goto (Try_next d) m)
            = Some (g, goto (Try_wait (next desc)) m, [EvReadNext d (next desc)]))
      as Hnext.
    { unfold CCSTM.step, jump, get_next. simpl. rewrite Hd. done. }
    destruct (decide (d = me m)) as [Hi|Hi].
    + eexists. erewrite cc_finish_step; [|done|]; last first.
      { unfold CCSTM.step, jump. simpl. rewrite decide_True by done. done. }
      rewrite cc_goto_goto. erewrite cc_finish_step; [|done|exact Hnext].
      rewrite Htr. simpl. split; [done|]. by apply (cc_returned_app [_]).
    + pose proof (Hs d ltac:(by left) Hi) as Hv.
      eexists. erewrite cc_finish_step; [|done|]; last first.
      { unfold CCSTM.step, jump. simpl. rewrite decide_False by done.
        rewrite Hv. simpl. rewrite decide_True by done. done. }
      rewrite cc_goto_goto. erewrite cc_finish_step; [|done|exact Hnext].
      rewrite Htr. simpl. split; [done|]. by apply (cc_returned_app [_; _]).
Qed.

Lemma chain_set_token g v p l : chain g p l → chain (set_token v g) p l.
Proof. by apply chain_descriptors. Qed.

(** With the token clear, every other registered thread idle and no
    interference, [tryIrrevoc] takes the token and returns [true]. *)
Lemma cc_tryIrrevoc_returns g m registered :
  pc m = Idle → hasToken m = false → token g = 0 →
  chain g (all_threads g) registered →
  (∀ d, d ∈ registered → d ≠ me m → get_start_time g d = Some END_OF_TIME) →
  ∃ tr, call (2 * length registered + 4) g m OpTryIrrevoc
        = Some (set_token 1 g, set_hasToken true m, tr)
      ∧ returned tr = Some (Some true).
Proof.
  intros Hpc Hh Ht Hc Hs. rewrite cc_call_unfold by done.
  destruct (cc_tryIrrevoc_walk_returns (set_token 1 g) m (all_threads g)
              registered) as (tr & Htr & Hr);
    [by apply chain_set_token|done|].
  replace (2 * length registered + 4)%nat
    with (S (S (S (2 * length registered + 1)))) by lia.
  erewrite cc_finish_step; [|done|]; last first.
  { unfold CCSTM.step, jump. simpl. rewrite Hh.
    rewrite decide_True by done. done. }
  erewrite cc_finish_step; [|done|]; last first.
  { unfold CCSTM.step, jump. simpl.
    rewrite decide_True by done. done. }
  erewrite cc_finish_step; [|done|]; last first.
  { unfold CCSTM.step, jump. simpl. done. }
  rewrite !cc_goto_goto. simpl all_threads. rewrite Htr. simpl.
  eexists. split.
  - do 2 f_equal. destruct m; simpl in *; by subst.
  - rewrite Ht. by apply (cc_returned_app [_; _; _; _]).
Qed.

End WithQuiesce.

(** *** [quiesce], with [QUIESCE] set *)

Lemma cc_quiesce_inv_run1 self registered time g m tr it g' m' e :
  quiesce_inv self registered time g m tr → no_invoke it = true →
  CCSTM.run1 END_OF_TIME true g m it = Some (g', m', e) →
  quiesce_inv self registered time g' m' (tr ++ e).
Proof.
  intros (Hid & Hnr & Hreg & HP) HQ H. unfold quiesce_inv.
  destruct it as [op| |a]; [done| |].
  - destruct (pc m) as [|[]| | | | | | |t [curr|]|t curr] eqn:Hpc; try done.
    + unfold CCSTM.run1, CCSTM.step in H. by rewrite Hpc in H.
    + unfold CCSTM.run1, CCSTM.step, jump in H. rewrite Hpc in H.
      simplify_eq/=. repeat split; try done; cc_trace_facts.
      by apply walk_inv_start.
    + destruct HP as (-> & Hwalk).
      unfold CCSTM.run1, CCSTM.step, jump, ret in H. rewrite Hpc in H.
      destruct (decide (curr = me m)).
      * simplify_eq/=. rewrite app_nil_r. repeat split; try done.
      * unfold get_start_time in H.
        destruct (descriptors g !! curr) as [desc|] eqn:Hd; simplify_eq/=.
        destruct (decide (start_time desc < time)) as [Hv|Hv];
          simpl in H; injection H as <- <- <-.
        -- repeat split; try done; cc_trace_facts.
           apply walk_inv_mono; [intros ?; apply cc_seen_past_mono|done].
        -- repeat split; try done; cc_trace_facts.
           ++ apply walk_inv_mono; [intros ?; apply cc_seen_past_mono|done].
           ++ intros _. exists (start_time desc). split; [|lia].
              apply elem_of_app. right. by left.
    + destruct HP as (-> & Hwalk).
      unfold CCSTM.run1, CCSTM.step, jump, ret in H. rewrite Hpc in H.
      simplify_eq/=.
      pose proof (walk_inv_end _ _ _ _ _ Hwalk) as Hall.
      repeat split; try done; cc_trace_facts.
      intros d Hd Hne. apply cc_seen_past_mono. by apply Hall.
    + destruct HP as (-> & Hwalk & Hseen).
      unfold CCSTM.run1, CCSTM.step, jump, ret in H. rewrite Hpc in H.
      destruct (get_next g curr) as [n|] eqn:Hn; simplify_eq/=.
      repeat split; try done; cc_trace_facts.
      apply walk_inv_mono; [intros ?; apply cc_seen_past_mono|].
      by eapply walk_inv_next.
  - simpl in H. destruct (env_apply g a) as [g1|] eqn:Ha; simplify_eq/=.
    rewrite app_nil_r.
    split; [done|]. split; [done|]. split.
    { destruct Hreg as (l & Hc & Hall).
      destruct (chain_env_head _ _ _ _ Ha Hc) as (l' & Hc' & Hsub).
      exists l'. split; [done|]. auto. }
    destruct (pc m') as [|[]| | | | | | |t curr|t curr]; try done.
    + destruct HP as (? & ?). split; [done|]. by eapply walk_inv_env.
    + destruct HP as (? & ? & ?). repeat split; try done.
      by eapply walk_inv_env.
Qed.

(** A call of [quiesce(time)] that has returned has read the start time of
    every other thread registered before the call at or past [time], and
    has not read the caller's. *)
Lemma cc_quiesce_observed g m registered sched g' m' tr time :
  pc m = Idle → chain g (all_threads g) registered →
  forallb no_invoke sched = true →
  CCSTM.run END_OF_TIME true g m (Invoke (OpQuiesce time) :: sched)
  = Some (g', m', tr) →
  pc m' = Idle →
  (∀ d, d ∈ registered → d ≠ me m → seen_past time d tr)
  ∧ never_read (me m) tr.
Proof.
  intros Hpc Hreg HQ Hrun Hpc'.
  apply cc_run_cons in Hrun as (g1 & m1 & e1 & e2 & H1 & H2 & ->).
  simpl in H1. unfold jump in H1. rewrite decide_True in H1 by done.
  simplify_eq.
  assert (quiesce_inv (me m) registered time g1
            (goto (Entry (OpQuiesce time)) m) [EvCall (OpQuiesce time)])
    as Hinv0.
  { split; [done|]. split; [cc_trace_facts|]. split; [by exists registered|].
    done. }
  pose proof (cc_run_invariant true no_invoke
    (quiesce_inv (me m) registered time)
    (λ g m tr it g' m' e, cc_quiesce_inv_run1 _ _ _ g m tr it g' m' e)
    sched _ _ _ _ _ _ Hinv0 HQ H2) as (_ & Hnr & _ & HP).
  rewrite Hpc' in HP. done.
Qed.

Lemma cc_quiesce_walk_returns g m time curr rest :
  chain g curr rest →
  (∀ d, d ∈ rest → d ≠ me m →
     ∃ v, get_start_time g d = Some v ∧ time ≤ v) →
  ∃ tr, CCSTM.finish END_OF_TIME true (2 * length rest + 1) g
          (goto (Quiesce_wait time curr) m)
        = Some (g, goto Idle m, tr).
Proof.
  intros Hc. induction Hc as [|d desc l Hd Hl IH]; intros Hs.
  - eexists. simpl length. simpl Nat.add.
    erewrite cc_finish_step; [|done|]; last first.
    { unfold CCSTM.step, ret. simpl. done. }
    by rewrite cc_finish_Idle.
  - destruct IH as (tr & Htr); [intros; apply Hs; [by right|done]|].
    replace (2 * length (d :: l) + 1)%nat
      with (S (S (2 * length l + 1))) by (simpl; lia).
    assert (CCSTM.step END_OF_TIME true g (goto (Quiesce_next time d) m)
            = Some (g, goto (Quiesce_wait time (next desc)) m,
                    [EvReadNext d (next desc)]))
      as Hnext.
    { unfold CCSTM.step, jump, get_next. simpl. rewrite Hd. done. }
    destruct (decide (d = me m)) as [Hi|Hi].
    + eexists. erewrite cc_finish_step; [|done|]; last first.
      { unfold CCSTM.step, jump. simpl. rewrite decide_True by done. done. }
      rewrite cc_goto_goto. erewrite cc_finish_step; [|done|exact Hnext].
      rewrite Htr. simpl. done.
    + destruct (Hs d ltac:(by left) Hi) as (v & Hv & Hle).
      eexists. erewrite cc_finish_step; [|done|]; last first.
      { unfold CCSTM.step, jump. simpl. rewrite decide_False by done.
        rewrite Hv. simpl. rewrite decide_False by lia. done. }
      rewrite cc_goto_goto. erewrite cc_finish_step; [|done|exact Hnext].
      rewrite Htr. simpl. done.
Qed.

(** Alone, with every other registered thread at or past [time],
    [quiesce(time)] returns. *)
Lemma cc_quiesce_returns g m registered time :
  pc m = Idle → chain g (all_threads g) registered →
  (∀ d, d ∈ registered → d ≠ me m →
     ∃ v, get_start_time g d = Some v ∧ time ≤ v) →
  ∃ tr, CCSTM.call END_OF_TIME true (2 * length registered + 2) g m
          (OpQuiesce time)
        = Some (g, m, tr).
Proof.
  intros Hpc Hc Hs. rewrite cc_call_unfold by done.
  destruct (cc_quiesce_walk_returns g m time (all_threads g) registered)
    as (tr & Htr); [done|done|].
  replace (2 * length registered + 2)%nat
    with (S (2 * length registered + 1)) by lia.
  erewrite cc_finish_step; [|done|]; last first.
  { unfold CCSTM.step, jump. simpl. done. }
  rewrite cc_goto_goto, Htr. simpl.
  eexists. do 2 f_equal. destruct m; simpl in *; by subst.
Qed.

End WithExoTM.

End CCSTMTheory.

(** ** Both quiescing managers *)

(** C1.  When a call of [quiesce(time)] has returned, on the
    [IrrevocQuiesceEpochManager] and on the [CCSTMEpochManager] with
    [QUIESCE] set, whatever the other threads did meanwhile: for every other
    thread registered before the call (a manager constructed, a descriptor
    linked in the list) the call has read that thread's slot and found it
    idle or at least [time]; and it has never read the caller's own slot.
    When every other slot is already idle or at least [time], the call
    returns. *)
Theorem quiesce_observes_every_other_slot :
  (∀ MAXTHREADS g m sched g' m' tr time,
     MAXTHREADS ≤ INT_MAX →
     Epochs.pc m = Epochs.Idle →
     forallb Epochs.no_invoke sched = true →
     Epochs.run MAXTHREADS Epochs.IrrevocQuiesce g m
       (Epochs.Invoke (Epochs.OpQuiesce time) :: sched) = Some (g', m', tr) →
     Epochs.pc m' = Epochs.Idle →
     (∀ j, j < Epochs.idGenerator g → j ≠ Epochs.id m →
        ∃ v, Epochs.EvRead (Epochs.LEpoch j) v ∈ tr ∧ (v = IDLE ∨ time ≤ v))
     ∧ (∀ v, Epochs.EvRead (Epochs.LEpoch (Epochs.id m)) v ∉ tr))
  ∧ (∀ MAXTHREADS g m time,
       time < WORD →
       Epochs.pc m = Epochs.Idle →
       (∀ j, j < Epochs.idGenerator g → j ≠ Epochs.id m →
          ∃ v, Epochs.slot g j = Some v ∧ (v = IDLE ∨ time ≤ v)) →
       ∃ tr, Epochs.call MAXTHREADS Epochs.IrrevocQuiesce
               (N.to_nat (Epochs.idGenerator g) + 2) g m (Epochs.OpQuiesce time)
             = Some (g, m, tr))
  ∧ (∀ END_OF_TIME g m registered sched g' m' tr time,
       CCSTM.pc m = CCSTM.Idle →
       CCSTM.chain g (CCSTM.all_threads g) registered →
       forallb CCSTM.no_invoke sched = true →
       CCSTM.run END_OF_TIME true g m
         (CCSTM.Invoke (CCSTM.OpQuiesce time) :: sched) = Some (g', m', tr) →
       CCSTM.pc m' = CCSTM.Idle →
       (∀ d, d ∈ registered → d ≠ CCSTM.me m →
          ∃ v, CCSTM.EvReadStart d v ∈ tr ∧ (v = END_OF_TIME ∨ time ≤ v))
       ∧ (∀ v, CCSTM.EvReadStart (CCSTM.me m) v ∉ tr))
  ∧ (∀ END_OF_TIME g m registered time,
       CCSTM.pc m = CCSTM.Idle →
       CCSTM.chain g (CCSTM.all_threads g) registered →
       (∀ d, d ∈ registered → d ≠ CCSTM.me m →
          ∃ v, CCSTM.get_start_time g d = Some v ∧ time ≤ v) →
       ∃ tr, CCSTM.call END_OF_TIME true (2 * length registered + 2) g m
               (CCSTM.OpQuiesce time)
             = Some (g, m, tr)).
Proof.
  split; [|split; [|split]].
  - intros MAXTHREADS g m sched g' m' tr time Hmax Hpc HQ Hrun Hpc'.
    destruct (EpochsTheory.quiesce_observed MAXTHREADS Hmax g m sched g' m' tr
                time Hpc HQ Hrun Hpc') as [Hseen Hnr].
    split; [|exact Hnr].
    intros j Hj Hne. destruct (Hseen j Hj Hne) as (v & Hv & Hle). eauto.
  - intros MAXTHREADS g m time Htime Hpc Hs.
    apply EpochsTheory.quiesce_returns; [done|].
    intros j Hj Hne. destruct (Hs j Hj Hne) as (v & Hv & [->|Hle]); [|eauto].
    exists IDLE. split; [done|].
    assert (0 < WORD) by done. unfold IDLE. lia.
  - intros END_OF_TIME g m registered sched g' m' tr time Hpc Hc HQ Hrun Hpc'.
    destruct (CCSTMTheory.cc_quiesce_observed END_OF_TIME g m registered sched
                g' m' tr time Hpc Hc HQ Hrun Hpc') as [Hseen Hnr].
    split; [|exact Hnr].
    intros d Hd Hne. destruct (Hseen d Hd Hne) as (v & Hv & Hle). eauto.
  - intros END_OF_TIME g m registered time Hpc Hc Hs.
    by apply CCSTMTheory.cc_quiesce_returns.
Qed.


(** A caller waits for slot 2 to pass time 4; the registered threads of
    the list are 1, then 0. *)
Lemma quiesce_observes_every_other_slot_witness :
  let g := Epochs.mkGlobals 3 [5; IDLE; 2] 0 in
  let m := Epochs.mkManager 0 false Epochs.Idle in
  let sched := [Epochs.Step; Epochs.Step; Epochs.Step; Epochs.Step;
                Epochs.Env (Epochs.EnvEpoch 2 9); Epochs.Step; Epochs.Step] in
  let cg := CCSTM.mkGlobals (Some 1%nat) 0
              {[ 0%nat := CCSTM.mkDescriptor None 0;
                 1%nat := CCSTM.mkDescriptor (Some 0%nat) 3 ]} in
  let cm := CCSTM.mkManager 0 false CCSTM.Idle in
  let csched := [CCSTM.Step; CCSTM.Step; CCSTM.Env (CCSTM.EnvStart 1 6);
                 CCSTM.Step; CCSTM.Step; CCSTM.Step; CCSTM.Step;
                 CCSTM.Step] in
  (∃ g' m' tr,
     Epochs.run 3 Epochs.IrrevocQuiesce g m
       (Epochs.Invoke (Epochs.OpQuiesce 4) :: sched) = Some (g', m', tr)
     ∧ (∃ v, Epochs.EvRead (Epochs.LEpoch 1) v ∈ tr ∧ (v = IDLE ∨ 4 ≤ v))
     ∧ (∃ v, Epochs.EvRead (Epochs.LEpoch 2) v ∈ tr ∧ (v = IDLE ∨ 4 ≤ v)))
  ∧ (∃ g' m' tr,
       CCSTM.run 100 true cg cm
         (CCSTM.Invoke (CCSTM.OpQuiesce 4) :: csched) = Some (g', m', tr)
       ∧ ∃ v, CCSTM.EvReadStart 1 v ∈ tr ∧ (v = 100 ∨ 4 ≤ v)).
Proof.
  intros g m sched cg cm csched.
  destruct quiesce_observes_every_other_slot as (Harr & _ & Hlist & _).
  split.
  - destruct (Epochs.run 3 Epochs.IrrevocQuiesce g m
                (Epochs.Invoke (Epochs.OpQuiesce 4) :: sched))
      as [[[g' m'] tr]|] eqn:Hrun; [|by vm_compute in Hrun].
    assert (Epochs.pc m' = Epochs.Idle) as Hpc'
      by (by vm_compute in Hrun; simplify_eq).
    destruct (Harr 3 g m sched g' m' tr 4) as [Hseen _];
      [by vm_compute|done|done|done|done|].
    exists g', m', tr. split; [done|]. split; by apply Hseen.
  - destruct (CCSTM.run 100 true cg cm
                (CCSTM.Invoke (CCSTM.OpQuiesce 4) :: csched))
      as [[[g' m'] tr]|] eqn:Hrun; [|by vm_compute in Hrun].
    assert (CCSTM.pc m' = CCSTM.Idle) as Hpc'
      by (by vm_compute in Hrun; simplify_eq).
    destruct (Hlist 100 cg cm [1%nat; 0%nat] csched g' m' tr 4) as [Hseen _];
      [done| |done|done|done|].
    { eapply CCSTM.chain_cons; [by vm_compute|]. simpl.
      eapply CCSTM.chain_cons; [by vm_compute|]. simpl. constructor. }
    exists g', m', tr. split; [done|]. apply Hseen; [by left|done].
Defined.

(** ** [raii.h]: unwinding a write-step *)

Module RaiiTheory.

Section WithEndOfTime.

Variable END_OF_TIME : N.

#[local] Abbreviation unwind := (Raii.unwind END_OF_TIME).
#[local] Abbreviation wo_end := (Raii.wo_end END_OF_TIME).

Lemma unwind_orecs orecs op :
  (unwind orecs op).1
  = foldl ExoTM.release_revert orecs (ExoTM.acquired (Raii.exo op)).
Proof. done. Qed.

Lemma unwind_acquired orecs op :
  ExoTM.acquired (Raii.exo (unwind orecs op).2) = [].
Proof. done. Qed.

Lemma wo_end_acquired orecs op :
  ExoTM.acquired (Raii.exo (wo_end orecs op).2) = [].
Proof. done. Qed.

Lemma unwind_released orecs op :
  ExoTM.acquired (Raii.exo op) = [] → (unwind orecs op).1 = orecs.
Proof. intros Hacq. by rewrite unwind_orecs, Hacq. Qed.

(** One acquisition, reverted: the orec is back at the version it had. *)
Lemma acquire_revert orecs exo obj val orecs' exo' :
  ExoTM.acquire_continuation orecs exo obj val = Some (true, orecs', exo') →
  ExoTM.release_revert orecs' (obj, val) = orecs
  ∧ ExoTM.acquired exo' = (obj, val) :: ExoTM.acquired exo.
Proof.
  unfold ExoTM.acquire_continuation, ExoTM.release_revert.
  destruct (orecs !! obj) as [o|] eqn:Hobj; [|done].
  destruct (decide (o = ExoTM.Unlocked val)) as [->|]; [|done].
  intros [= <- <-]. simpl. split; [|done].
  by rewrite insert_insert_eq, insert_id.
Qed.

(** C7.  [unwind] is idempotent.  After a first [unwind], which reverts
    every orec the write-step acquired and leaves the step with nothing
    acquired, a second [unwind] changes no orec and leaves the step as it
    is, also when other threads have changed the orecs in between; the same
    holds for an [unwind] after the step released its orecs at its end; and
    the first [unwind] gives an orec acquired by the step the version it had
    before. *)
Theorem unwind_idempotent :
  (∀ orecs op,
     unwind (unwind orecs op).1 (unwind orecs op).2 = unwind orecs op)
  ∧ (∀ orecs op later,
       unwind later (unwind orecs op).2 = (later, (unwind orecs op).2))
  ∧ (∀ orecs op later,
       (unwind later (wo_end orecs op).2).1 = later)
  ∧ (∀ orecs op obj val orecs' op',
       ExoTM.acquired (Raii.exo op) = [] →
       Raii.acquire_continuation orecs op obj val = Some (true, orecs', op') →
       (unwind orecs' op').1 = orecs
       ∧ unwind (unwind orecs' op').1 (unwind orecs' op').2
         = unwind orecs' op').
Proof.
  split; [done|]. split; [done|]. split; [done|].
  intros orecs op obj val orecs' op' Hacq Hac. split; [|done].
  unfold Raii.acquire_continuation in Hac.
  destruct (ExoTM.acquire_continuation orecs (Raii.exo op) obj val)
    as [[[ok o] e]|] eqn:Hexo; [|done].
  simpl in Hac. injection Hac as -> <- <-.
  apply acquire_revert in Hexo as [Hrev Hlist].
  rewrite unwind_orecs. simpl. rewrite Hlist, Hacq. simpl. done.
Qed.

End WithEndOfTime.

Lemma unwind_idempotent_witness :
  let orecs : gmap nat ExoTM.Orec :=
    {[ 0%nat := ExoTM.Unlocked 4; 1%nat := ExoTM.Unlocked 7 ]} in
  let op := Raii.mkDescriptor (ExoTM.mkExo 2 5 []) in
  ∃ orecs' op',
    Raii.acquire_continuation orecs op 1%nat 7 = Some (true, orecs', op')
    ∧ orecs' !! 1%nat = Some (ExoTM.Locked 2)
    ∧ (Raii.unwind 100 orecs' op').1 = orecs
    ∧ Raii.unwind 100 (Raii.unwind 100 orecs' op').1 (Raii.unwind 100 orecs' op').2
      = Raii.unwind 100 orecs' op'.
Proof.
  intros orecs op.
  destruct (Raii.acquire_continuation orecs op 1%nat 7)
    as [[[ok orecs'] op']|] eqn:Hac; [|by vm_compute in Hac].
  assert (ok = true) as -> by (by vm_compute in Hac; simplify_eq).
  exists orecs', op'. split; [done|]. split.
  { by vm_compute in Hac; simplify_eq. }
  destruct (unwind_idempotent 100) as (_ & _ & _ & Hrevert).
  by apply (Hrevert orecs op 1%nat 7).
Defined.

End RaiiTheory.

(** ** The list *)

Module SListTheory.
Import SList.

Section WithMap.

Variable END_OF_TIME : N.
Variable AVOID_OREC_CHECKS : bool.
Variable head tail : nat.
Variable SNAPSHOT_FREQUENCY : Z.

#[local] Abbreviation check_orec := (check_orec END_OF_TIME).
#[local] Abbreviation return_curr := (return_curr END_OF_TIME AVOID_OREC_CHECKS).
#[local] Abbreviation traverse :=
  (traverse END_OF_TIME AVOID_OREC_CHECKS tail SNAPSHOT_FREQUENCY).
#[local] Abbreviation get_leq :=
  (get_leq END_OF_TIME AVOID_OREC_CHECKS head tail SNAPSHOT_FREQUENCY).
#[local] Abbreviation before := (before head tail).
#[local] Abbreviation leq_ok := (leq_ok head tail).

Section WithMem.

Variable mem : Mem.

#[local] Abbreviation flow_ok := (flow_ok head tail mem).

Lemma check_orec_Some me tx obj v me' tx' :
  check_orec mem me tx obj = Some (v, me', tx') →
  snapshots me' = snapshots me
  ∧ (∀ x, x ∈ tx → x ∈ tx')
  ∧ (v ≠ END_OF_TIME → Checked obj v ∈ tx').
Proof.
  unfold SList.check_orec. intros H.
  destruct (check_orec_at mem (clock me) obj) as [w|]; simplify_eq/=.
  split; [done|]. case_decide.
  - split; [done|]. done.
  - split; [intros x ?; by right|]. intros _. by left.
Qed.

Lemma check_continuation_Some me tx obj val ok me' tx' :
  check_continuation mem me tx obj val = Some (ok, me', tx') →
  snapshots me' = snapshots me
  ∧ (∀ x, x ∈ tx → x ∈ tx')
  ∧ (ok = true → Continued obj val ∈ tx').
Proof.
  unfold SList.check_continuation. intros H.
  destruct (check_continuation_at mem (clock me) obj val) as [[]|]; simplify_eq/=.
  - split; [done|]. split; [intros x ?; by right|]. intros _. by left.
  - done.
Qed.

Lemma validated_mono tx tx' r :
  (∀ x, x ∈ tx → x ∈ tx') → validated tx r → validated tx' r.
Proof. intros Hsub [?|?]; [left|right]; auto. Qed.

Lemma before_leq_ok key lt_mode obj : before mem key obj → leq_ok mem key lt_mode obj.
Proof.
  intros [Hne [->|(k & Hk & Hlt)]]; (split; [done|]); [by left|].
  right. exists k. split; [done|]. destruct lt_mode; lia.
Qed.

Lemma return_curr_ok key lt_mode me tx curr :
  before mem key (_obj curr) →
  (AVOID_OREC_CHECKS = false → validated tx curr) →
  Forall (λ s, before mem key (_obj s)) (snapshots me) →
  flow_ok key lt_mode (return_curr mem me tx curr).
Proof.
  intros Hb Hv Hs. unfold SList.return_curr.
  destruct AVOID_OREC_CHECKS.
  - destruct (check_orec mem me tx (_obj curr)) as [[[v me'] tx']|] eqn:Hc;
      [|done].
    apply check_orec_Some in Hc as (Hsn & Hsub & Hck).
    case_decide; simpl; rewrite Hsn; [done|].
    split; [by apply before_leq_ok|]. split; [|done]. left. by apply Hck.
  - simpl. split; [by apply before_leq_ok|]. split; [by apply Hv|done].
Qed.

Lemma traverse_ok fuel key lt_mode me tx curr n :
  before mem key (_obj curr) →
  (AVOID_OREC_CHECKS = false → validated tx curr) →
  Forall (λ s, before mem key (_obj s)) (snapshots me) →
  flow_ok key lt_mode (traverse mem fuel key lt_mode me tx curr n).
Proof.
  revert me tx curr n. induction fuel as [|fuel IH]; intros me tx curr n Hb Hv Hs;
    [done|].
  simpl.
  destruct (next_at mem (clock me) (_obj curr)) as [next|]; [|done].
  destruct (if AVOID_OREC_CHECKS then Some (0, tick me, tx)
            else check_orec mem (tick me) tx next)
    as [[[next_ver me1] tx1]|] eqn:Hnv; [|done].
  assert (snapshots me1 = snapshots me ∧ (∀ x, x ∈ tx → x ∈ tx1)
          ∧ (AVOID_OREC_CHECKS = false → next_ver ≠ END_OF_TIME →
             Checked next next_ver ∈ tx1)) as (Hsn1 & Hsub1 & Hck1).
  { destruct AVOID_OREC_CHECKS; [by simplify_eq|].
    apply check_orec_Some in Hnv as (? & ? & ?). by repeat split. }
  assert (Forall (λ s, before mem key (_obj s)) (snapshots me1)) as Hs1
    by by rewrite Hsn1.
  assert (AVOID_OREC_CHECKS = false → validated tx1 curr) as Hv1
    by (intros; eapply validated_mono; eauto).
  destruct (negb AVOID_OREC_CHECKS && bool_decide (next_ver = END_OF_TIME))
    eqn:Hbrk; [done|].
  assert (AVOID_OREC_CHECKS = false → next_ver ≠ END_OF_TIME) as Hne.
  { intros ->. simpl in Hbrk. by apply bool_decide_eq_false in Hbrk. }
  destruct (decide (next = tail)) as [->|Hnt]; [by apply return_curr_ok|].
  destruct (key_of mem next) as [dn_key|] eqn:Hkey; [|done].
  destruct (if lt_mode then (key <=? dn_key)%Z else (key <? dn_key)%Z) eqn:Hcmp;
    [by apply return_curr_ok|].
  destruct (decide (dn_key = key)) as [->|Hnk].
  { (* the match *)
    assert (lt_mode = false) as -> by (destruct lt_mode; [lia|done]).
    assert (leq_ok mem key false next) as Hok.
    { split; [done|]. right. exists key. split; [done|]. simpl. lia. }
    destruct AVOID_OREC_CHECKS eqn:Havoid.
    - destruct (check_orec mem me1 tx1 next) as [[[v me2] tx2]|] eqn:Hc; [|done].
      apply check_orec_Some in Hc as (Hsn2 & Hsub2 & Hck2).
      destruct (decide (v = END_OF_TIME)); simpl; rewrite Hsn2; [done|].
      split; [done|]. split; [|done]. left. by apply Hck2.
    - simpl. split; [done|]. split; [|done]. left. by apply Hck1; auto. }
  (* keep traversing *)
  assert (before mem key next) as Hbn.
  { split; [done|]. right. exists dn_key. split; [done|].
    destruct lt_mode; lia. }
  destruct (if decide ((n - 1)%Z = 0%Z) then _ else _)
    as [[[[curr' me2] tx2] n']|] eqn:Hsnap; [|done].
  apply IH.
  - done.
  - intros Havoid. rewrite Havoid in *. simpl.
    assert (∀ x, x ∈ tx1 → x ∈ tx2) as Hsub2.
    { destruct (decide ((n - 1)%Z = 0%Z));
        by injection Hsnap as <- <- <- <-. }
    left. simpl. apply Hsub2. by apply Hck1; auto.
  - destruct (decide ((n - 1)%Z = 0%Z)); [|by injection Hsnap as <- <- <- <-].
    destruct AVOID_OREC_CHECKS.
    + destruct (check_orec mem me1 tx1 (_obj curr)) as [[[v me3] tx3]|] eqn:Hc;
        simpl in Hsnap; [|done].
      injection Hsnap as <- <- <- <-.
      apply check_orec_Some in Hc as (Hsn3 & _ & _).
      destruct (decide (v = END_OF_TIME)); simpl; rewrite Hsn3; [done|].
      by constructor.
    + injection Hsnap as <- <- <- <-. by constructor.
Qed.

#[local] Arguments SList.traverse : simpl never.

Lemma get_leq_ok fuel me key lt_mode :
  head ≠ tail →
  Forall (λ s, before mem key (_obj s)) (snapshots me) →
  flow_ok key lt_mode (get_leq mem fuel me key lt_mode).
Proof.
  intros Hht. revert me. induction fuel as [|fuel IH]; intros me Hs; [done|].
  simpl.
  set (curr := match snapshots me with [] => mk_leq head 0 | top :: _ => top end).
  assert (before mem key (_obj curr)) as Hb.
  { subst curr. destruct Hs; [|done]. split; [done|by left]. }
  assert (∀ me1 tx1 curr1,
            before mem key (_obj curr1) → validated tx1 curr1 →
            Forall (λ s, before mem key (_obj s)) (snapshots me1) →
            flow_ok key lt_mode
              match traverse mem (S fuel) key lt_mode me1 tx1 curr1
                      SNAPSHOT_FREQUENCY with
              | Break me2 => get_leq mem fuel me2 key lt_mode
              | flow => flow
              end) as Hsearch.
  { intros me1 tx1 curr1 Hb1 Hv1 Hs1.
    pose proof (traverse_ok (S fuel) key lt_mode me1 tx1 curr1
                  SNAPSHOT_FREQUENCY Hb1 (λ _, Hv1) Hs1) as Hflow.
    destruct (traverse mem (S fuel) key lt_mode me1 tx1 curr1
                SNAPSHOT_FREQUENCY); try done.
    by apply IH. }
  destruct (decide (_obj curr = head)) as [Hh|Hh].
  - destruct (check_orec mem me [] (_obj curr)) as [[[v me1] tx1]|] eqn:Hc;
      [|done].
    apply check_orec_Some in Hc as (Hsn & _ & Hck).
    case_decide; [apply IH; by rewrite Hsn|].
    apply Hsearch; [exact Hb|left; simpl; by apply Hck|by rewrite Hsn].
  - destruct (check_continuation mem me [] (_obj curr) (_ver curr))
      as [[[ok me1] tx1]|] eqn:Hc; [|done].
    apply check_continuation_Some in Hc as (Hsn & _ & Hck).
    destruct ok.
    + apply Hsearch; [done|right; by apply Hck|by rewrite Hsn].
    + apply IH. simpl. rewrite Hsn. by destruct Hs.
Qed.

End WithMem.

(** *** A traversal that runs alone *)

Section Alone.

Variable h : Heap.

#[local] Abbreviation mem_of := (mem_of END_OF_TIME).

(** The orec of [p] is unlocked at [v], and [v] is no sentinel. *)
#[local] Abbreviation unlocked p v :=
  (orecs h !! p = Some (ExoTM.Unlocked v%N) ∧ v%N ≠ END_OF_TIME).

Lemma check_orec_alone me tx p v :
  unlocked p v →
  check_orec (mem_of h) me tx p = Some (v, tick me, Checked p v :: tx).
Proof.
  intros [Ho Hv]. unfold SList.check_orec. simpl.
  unfold ExoTM.check_orec. rewrite Ho. simpl. by rewrite decide_False.
Qed.

Lemma key_of_alone q ndq k v :
  nodes h !! q = Some ndq → data ndq = Some (k, v) →
  key_of (mem_of h) q = Some k.
Proof. intros Hq Hd. simpl. rewrite Hq. simpl. by rewrite Hd. Qed.

Lemma return_curr_alone me tx curr v :
  unlocked (_obj curr) v →
  (AVOID_OREC_CHECKS = false → _ver curr = v) →
  ∃ me' tx', return_curr (mem_of h) me tx curr
             = Return (mk_leq (_obj curr) v) me' tx'.
Proof.
  intros Hu Hv. unfold SList.return_curr. destruct AVOID_OREC_CHECKS.
  - rewrite (check_orec_alone _ _ _ v) by done.
    rewrite decide_False by apply Hu. eauto.
  - rewrite <- Hv by done. destruct curr. eauto.
Qed.

#[local] Arguments SList.return_curr : simpl never.
#[local] Arguments SList.check_orec : simpl never.

Lemma traverse_alone key lt_mode l :
  ∀ fuel me tx curr n,
    list_from tail h (_obj curr) l →
    (length l < fuel)%nat →
    (∀ p, p = _obj curr ∨ p = tail ∨ p ∈ addrs l → ∃ v, unlocked p v) →
    (AVOID_OREC_CHECKS = false →
       orecs h !! _obj curr = Some (ExoTM.Unlocked (_ver curr))) →
    ∃ me' tx' v,
      traverse (mem_of h) fuel key lt_mode me tx curr n
      = Return (mk_leq (pred_of key lt_mode (_obj curr) l) v) me' tx'
      ∧ unlocked (pred_of key lt_mode (_obj curr) l) v.
Proof.
  induction l as [|[[q k] v] l IH]; intros fuel me tx curr n Hl Hfuel Hq Hver.
  - (* the next node is the tail *)
    inversion Hl as [p nd Hp Hnext|].
    destruct fuel as [|fuel]; [simpl in Hfuel; lia|].
    destruct (Hq (_obj curr) ltac:(by left)) as [vc Hvc].
    destruct (Hq tail ltac:(right; by left)) as [vt Hvt].
    unfold SList.traverse. simpl next_at. rewrite Hp. simpl. rewrite Hnext.
    assert (AVOID_OREC_CHECKS = false → _ver curr = vc) as Hvc'.
    { intros Ha. specialize (Hver Ha). destruct Hvc. congruence. }
    destruct (return_curr_alone (tick me) tx curr vc Hvc Hvc') as (me1 & tx1 & Hr1).
    destruct (return_curr_alone (tick (tick me)) (Checked tail vt :: tx) curr vc
                Hvc Hvc') as (me2 & tx2 & Hr2).
    destruct AVOID_OREC_CHECKS.
    + simpl. rewrite decide_True by done. rewrite Hr1. eauto.
    + rewrite (check_orec_alone _ _ _ vt) by done. simpl.
      rewrite bool_decide_false by apply Hvt. rewrite decide_True by done.
      rewrite Hr2. eauto.
  - inversion Hl as [|p nd ndq k' v' l' Hp Hnt Hndq Hd Hl']; subst.
    destruct fuel as [|fuel]; [simpl in Hfuel; lia|].
    destruct (Hq (_obj curr) ltac:(by left)) as [vc Hvc].
    destruct (Hq (next nd) ltac:(right; right; by left)) as [vq Hvq].
    assert (AVOID_OREC_CHECKS = false → _ver curr = vc) as Hvc'.
    { intros Ha. specialize (Hver Ha). destruct Hvc. congruence. }
    simpl pred_of.
    cbn [SList.traverse]. simpl next_at. rewrite Hp. simpl fmap.
    cbv iota beta.
    assert (∃ me1 tx1 next_ver,
              (if AVOID_OREC_CHECKS then Some (0, tick me, tx)
               else check_orec (mem_of h) (tick me) tx (next nd))
              = Some (next_ver, me1, tx1)
              ∧ (AVOID_OREC_CHECKS = false → next_ver = vq)
              ∧ negb AVOID_OREC_CHECKS
                && bool_decide (next_ver = END_OF_TIME) = false)
      as (me1 & tx1 & next_ver & -> & Hnv & ->).
    { destruct AVOID_OREC_CHECKS; [by eexists _, _, _|].
      rewrite (check_orec_alone _ _ _ vq) by done.
      eexists _, _, _. split; [done|]. split; [done|].
      simpl. apply bool_decide_eq_false. apply Hvq. }
    rewrite decide_False by done.
    rewrite (key_of_alone _ _ _ _ Hndq Hd).
    destruct (if lt_mode then (key <=? k)%Z else (key <? k)%Z) eqn:Hcmp.
    { destruct (return_curr_alone me1 tx1 curr vc Hvc Hvc') as (me2 & tx2 & Hr2).
      rewrite Hr2. eauto. }
    destruct (decide (k = key)) as [->|Hne].
    { destruct AVOID_OREC_CHECKS.
      - rewrite (check_orec_alone _ _ _ vq) by done.
        rewrite decide_False by apply Hvq. eauto.
      - rewrite Hnv by done. eauto. }
    match goal with
    | |- context [match ?x with Some _ => _ | None => Undefined end] =>
        destruct x as [[[[curr' me2] tx2] n']|] eqn:Hsnap
    end; last first.
    { destruct (decide ((n - 1)%Z = 0%Z)); [|done].
      destruct AVOID_OREC_CHECKS; [|done].
      by rewrite (check_orec_alone _ _ _ vc) in Hsnap. }
    assert (_obj curr' = _obj curr
            ∧ (AVOID_OREC_CHECKS = false → curr' = curr)) as [Hobj Hsame].
    { destruct (decide ((n - 1)%Z = 0%Z)); [|by injection Hsnap as <- <- <- <-].
      destruct AVOID_OREC_CHECKS; [|by injection Hsnap as <- <- <- <-].
      rewrite (check_orec_alone _ _ _ vc) in Hsnap by done.
      simpl in Hsnap. by injection Hsnap as <- <- <- <-. }
    apply IH.
    + done.
    + simpl in Hfuel. lia.
    + simpl. intros p' [->|[->|Hin]]; apply Hq.
      * right. right. by left.
      * right. by left.
      * right. right. by right.
    + intros Ha. simpl. rewrite Ha. rewrite Hnv by done. apply Hvq.
Qed.

#[local] Arguments SList.traverse : simpl never.

Lemma get_leq_alone key lt_mode l me fuel :
  snapshots me = [] →
  list_from tail h head l →
  quiet END_OF_TIME head tail h l →
  (length l < fuel)%nat →
  ∃ me' tx' v,
    get_leq (mem_of h) fuel me key lt_mode
    = Return (mk_leq (pred_of key lt_mode head l) v) me' tx'
    ∧ unlocked (pred_of key lt_mode head l) v.
Proof.
  intros Hsn Hl Hq Hfuel.
  destruct fuel as [|fuel]; [lia|]. simpl. rewrite Hsn. simpl.
  rewrite decide_True by done.
  destruct (Hq head ltac:(by left)) as [vh Hvh].
  rewrite (check_orec_alone _ _ _ vh) by done.
  rewrite decide_False by apply Hvh.
  destruct (traverse_alone key lt_mode l (S fuel) (tick me)
              [Checked head vh] (mk_leq head vh) SNAPSHOT_FREQUENCY)
    as (me' & tx' & v & Htr & Hv).
  - done.
  - done.
  - simpl. intros p [->|[->|Hin]]; apply Hq; auto.
  - intros _. apply Hvh.
  - rewrite Htr. by eexists _, _, _.
Qed.

End Alone.

(** C9.  In both configurations of [AVOID_OREC_CHECKS], for every key and
    both modes, whatever the other threads do to the links and the orecs
    while [get_leq] runs (the snapshots it starts from being nodes before
    [key], as the ones it leaves are): the node it returns is not the tail,
    and is the head or a data node with a key [k <= key] ([k < key] in
    [lt_mode]); and the returned pair of node and version was validated,
    inside the read-only step that returned it, by a [check_orec] that gave
    this version or by a [check_continuation] that confirmed it.  On a list
    whose orecs are unlocked, and alone, [get_leq] returns. *)
Theorem get_leq_returns_validated_predecessor :
  (∀ mem fuel me key lt_mode r me' tx,
     head ≠ tail →
     Forall (λ s, before mem key (_obj s)) (snapshots me) →
     get_leq mem fuel me key lt_mode = Return r me' tx →
     _obj r ≠ tail
     ∧ (_obj r = head
        ∨ ∃ k, key_of mem (_obj r) = Some k
            ∧ if lt_mode then (k < key)%Z else (k ≤ key)%Z)
     ∧ (Checked (_obj r) (_ver r) ∈ tx ∨ Continued (_obj r) (_ver r) ∈ tx)
     ∧ Forall (λ s, before mem key (_obj s)) (snapshots me'))
  ∧ (∀ h l key lt_mode me,
       snapshots me = [] →
       list_from tail h head l →
       quiet END_OF_TIME head tail h l →
       ∃ r me' tx,
         get_leq (mem_of END_OF_TIME h) (S (length l)) me key lt_mode
         = Return r me' tx).
Proof.
  split.
  - intros mem fuel me key lt_mode r me' tx Hht Hs Hret.
    pose proof (get_leq_ok mem fuel me key lt_mode Hht Hs) as Hok.
    rewrite Hret in Hok. destruct Hok as ([? ?] & ? & ?). done.
  - intros h l key lt_mode me Hsn Hl Hq.
    destruct (get_leq_alone h key lt_mode l me (S (length l)) Hsn Hl Hq)
      as (me' & tx' & v & Hret & _); [lia|].
    by eexists _, _, _.
Qed.

(** *** The list as a sequence *)

Lemma list_from_start h p l :
  list_from tail h p l → is_Some (nodes h !! p).
Proof. destruct 1; by eexists. Qed.

Lemma list_from_lookup h p l q k v :
  list_from tail h p l → (q, k, v) ∈ l →
  ∃ ndq, nodes h !! q = Some ndq ∧ data ndq = Some (k, v).
Proof.
  induction 1 as [|p nd ndq k' v' l Hp Hnt Hq Hd Hl IH]; intros Hin.
  - by apply elem_of_nil in Hin.
  - apply elem_of_cons in Hin as [[= -> -> ->]|Hin]; [eauto|by apply IH].
Qed.

Lemma elem_of_addrs q (l : list (nat * Z * Z)) :
  q ∈ addrs l ↔ ∃ k v, (q, k, v) ∈ l.
Proof.
  unfold addrs. rewrite list_elem_of_fmap. split.
  - intros ([[q' k] v] & -> & Hin). eauto.
  - intros (k & v & Hin). by exists (q, k, v).
Qed.

Lemma elem_of_keys k (l : list (nat * Z * Z)) :
  k ∈ keys l ↔ ∃ q v, (q, k, v) ∈ l.
Proof.
  unfold keys. rewrite list_elem_of_fmap. split.
  - intros ([[q k'] v] & -> & Hin). eauto.
  - intros (q & v & Hin). by exists (q, k, v).
Qed.

Lemma list_from_frame h h' p l :
  list_from tail h p l →
  (∀ x, x ∈ p :: addrs l → nodes h' !! x = nodes h !! x) →
  list_from tail h' p l.
Proof.
  induction 1 as [p nd Hp Hn|p nd ndq k v l Hp Hnt Hq Hd Hl IH]; intros Hsame.
  - apply list_from_tail with (nd := nd); [|done].
    rewrite Hsame; [done|by left].
  - apply list_from_cons with (nd := nd) (ndq := ndq); try done.
    + rewrite Hsame; [done|by left].
    + rewrite Hsame; [done|]. right. by left.
    + apply IH. intros x Hx. apply Hsame. by right.
Qed.

Lemma pred_of_in key lt_mode p l : pred_of key lt_mode p l ∈ p :: addrs l.
Proof.
  revert p. induction l as [|[[q k] v] l IH]; intros p; simpl.
  - by left.
  - destruct (if lt_mode then _ else _); [by left|].
    case_decide; [right; by left|]. right. apply IH.
Qed.

(** In a sorted list that holds [key], the search stops on the node that
    holds it. *)
Lemma pred_of_found key p l :
  StronglySorted Z.lt (keys l) → key ∈ keys l →
  ∃ v, (pred_of key false p l, key, v) ∈ l.
Proof.
  revert p. induction l as [|[[q k] v] l IH]; intros p Hsort Hin.
  - by apply elem_of_nil in Hin.
  - simpl in *. apply StronglySorted_inv in Hsort as [Hsort Hall].
    apply elem_of_cons in Hin as [->|Hin].
    + rewrite (proj2 (Z.ltb_ge k k)) by lia. rewrite decide_True by done.
      exists v. by left.
    + assert (k < key)%Z as Hlt.
      { rewrite Forall_forall in Hall. by apply Hall. }
      rewrite (proj2 (Z.ltb_ge key k)) by lia.
      rewrite decide_False by lia.
      destruct (IH q Hsort Hin) as [v' Hv']. exists v'. by right.
Qed.

(** In a list that does not hold [key], it stops on the start or on a node
    with a smaller key. *)
Lemma pred_of_absent key p l :
  key ∉ keys l →
  pred_of key false p l = p
  ∨ ∃ k v, (pred_of key false p l, k, v) ∈ l ∧ (k < key)%Z.
Proof.
  revert p. induction l as [|[[q k] v] l IH]; intros p Hnin; [by left|].
  simpl in *. apply not_elem_of_cons in Hnin as [Hne Hnin].
  destruct (key <? k)%Z eqn:Hcmp; [by left|].
  apply Z.ltb_ge in Hcmp. rewrite decide_False by done.
  destruct (IH q Hnin) as [->|(k' & v' & Hin & Hlt)].
  - right. exists k, v. split; [by left|lia].
  - right. exists k', v'. split; [by right|done].
Qed.

Lemma keys_place e l : keys (place e l) ≡ₚ e.1.2 :: keys l.
Proof.
  induction l as [|e' l IH]; simpl; [done|].
  destruct (e.1.2 <? e'.1.2)%Z; simpl; [done|].
  rewrite IH. apply Permutation_swap.
Qed.

Lemma addrs_place e l : addrs (place e l) ≡ₚ e.1.1 :: addrs l.
Proof.
  induction l as [|e' l IH]; simpl; [done|].
  destruct (e.1.2 <? e'.1.2)%Z; simpl; [done|].
  rewrite IH. apply Permutation_swap.
Qed.

Lemma place_sorted e l :
  StronglySorted Z.lt (keys l) → e.1.2 ∉ keys l →
  StronglySorted Z.lt (keys (place e l)).
Proof.
  induction l as [|e' l IH]; intros Hsort Hnin; simpl.
  - repeat constructor.
  - simpl in *. apply StronglySorted_inv in Hsort as [Hsort Hall].
    apply not_elem_of_cons in Hnin as [Hne Hnin].
    destruct (e.1.2 <? e'.1.2)%Z eqn:Hcmp; simpl.
    + apply Z.ltb_lt in Hcmp. constructor.
      * by constructor.
      * constructor; [done|]. eapply Forall_impl; [exact Hall|].
        simpl. intros. lia.
    + apply Z.ltb_ge in Hcmp. constructor; [by apply IH|].
      rewrite keys_place. constructor; [lia|done].
Qed.

(** Linking a new node after the node the search stopped on puts its key
    in place. *)
Lemma list_from_insert h h' p l key val new nd :
  list_from tail h p l →
  NoDup (p :: addrs l) →
  new ∉ p :: addrs l → new ≠ tail →
  key ∉ keys l →
  nodes h !! pred_of key false p l = Some nd →
  nodes h' = <[pred_of key false p l := mkNode new (data nd)]>
               (<[new := mkNode (next nd) (Some (key, val))]> (nodes h)) →
  list_from tail h' p (place (new, key, val) l).
Proof.
  intros Hl. revert nd.
  induction Hl as [p nd0 Hp Hn|p nd0 ndq k v l Hp Hnt Hq Hd Hl IH];
    intros nd Hnd Hnew Hnt' Hkey Hpred Hh'.
  - simpl in *. assert (nd = nd0) as -> by congruence.
    assert (new ≠ p) as Hnp by (intros ->; apply Hnew; by left).
    apply (list_from_cons tail h' p (mkNode new (data nd0))
             (mkNode (next nd0) (Some (key, val))) key val []); simpl.
    + rewrite Hh'. by rewrite lookup_insert_eq.
    + done.
    + rewrite Hh'. rewrite lookup_insert_ne by done.
      by rewrite lookup_insert_eq.
    + done.
    + apply list_from_tail with (nd := mkNode (next nd0) (Some (key, val)));
        [|done].
      rewrite Hh'. rewrite lookup_insert_ne by done.
      by rewrite lookup_insert_eq.
  - simpl in Hpred, Hh', Hkey |- *.
    apply not_elem_of_cons in Hkey as [Hne Hkey].
    apply NoDup_cons in Hnd as [Hpnin Hnd].
    assert (new ≠ p) as Hnp by (intros ->; apply Hnew; by left).
    assert (new ∉ next nd0 :: addrs l) as Hnew'.
    { intros Hin. apply Hnew. by right. }
    assert (new ≠ next nd0) as Hnq by (intros ->; apply Hnew'; by left).
    assert (p ≠ next nd0) as Hpq by (intros Heq; apply Hpnin; rewrite Heq; by left).
    destruct (key <? k)%Z eqn:Hcmp.
    + (* before the first node *)
      assert (nd = nd0) as -> by congruence.
      apply (list_from_cons tail h' p (mkNode new (data nd0))
               (mkNode (next nd0) (Some (key, val))) key val); simpl.
      * rewrite Hh'. by rewrite lookup_insert_eq.
      * done.
      * rewrite Hh'. rewrite lookup_insert_ne by done.
        by rewrite lookup_insert_eq.
      * done.
      * apply (list_from_cons tail h' new (mkNode (next nd0) (Some (key, val)))
                 ndq k v); simpl; try done.
        -- rewrite Hh'. rewrite lookup_insert_ne by done.
           by rewrite lookup_insert_eq.
        -- rewrite Hh'. by rewrite !lookup_insert_ne.
        -- eapply list_from_frame; [exact Hl|].
           intros x Hx. rewrite Hh'.
           rewrite !lookup_insert_ne; [done| |].
           ++ intros ->. by apply Hnew'.
           ++ intros ->. by apply Hpnin.
    + (* further down *)
      rewrite decide_False in Hpred, Hh' by done.
      pose proof (pred_of_in key false (next nd0) l) as Hin.
      assert (pred_of key false (next nd0) l ≠ p) as Hnp'.
      { intros Heq. apply Hpnin. by rewrite <- Heq. }
      assert (pred_of key false (next nd0) l ≠ new) as Hnn.
      { intros Heq. apply Hnew'. by rewrite <- Heq. }
      assert (∃ ndq', nodes h' !! next nd0 = Some ndq' ∧ data ndq' = Some (k, v))
        as (ndq' & Hq' & Hd').
      { rewrite Hh'.
        destruct (decide (pred_of key false (next nd0) l = next nd0)) as [Heq|Hneq].
        - rewrite Heq in *. rewrite lookup_insert_eq.
          eexists. split; [done|]. simpl. congruence.
        - rewrite !lookup_insert_ne by done. eauto. }
      apply (list_from_cons tail h' p nd0 ndq' k v); try done.
      * rewrite Hh'. by rewrite !lookup_insert_ne.
      * by eapply IH.
Qed.

(** *** [insert], alone *)

#[local] Arguments SList.get_leq : simpl never.
#[local] Arguments SList.mem_of : simpl never.

#[local] Abbreviation insert :=
  (insert END_OF_TIME AVOID_OREC_CHECKS head tail SNAPSHOT_FREQUENCY).
#[local] Abbreviation well_formed := (well_formed head tail).
#[local] Abbreviation quiet := (quiet END_OF_TIME head tail).

Lemma insert_present h l me op key val :
  well_formed h l → quiet h l → key ∈ keys l →
  ∃ me', insert (S (length l)) h me op key val = Done false h me' op.
Proof.
  intros (Hl & Hsort & Hnd) Hq Hin.
  destruct (get_leq_alone h key false l (clear me) (S (length l)))
    as (me' & tx' & v & Hret & Hv); [done|done|done|lia|].
  destruct (pred_of_found key head l Hsort Hin) as [val' Hfound].
  destruct (list_from_lookup h head l _ _ _ Hl Hfound) as (ndq & Hndq & Hd).
  assert (pred_of key false head l ≠ head) as Hne.
  { intros Heq. apply NoDup_cons in Hnd as [Hh _]. apply Hh. right.
    apply elem_of_addrs. rewrite <- Heq. eauto. }
  exists me'. unfold SList.insert. simpl. rewrite Hret. simpl.
  rewrite decide_False by done.
  rewrite Hndq. simpl. rewrite Hd. simpl.
  by rewrite bool_decide_true.
Qed.

Lemma new_data_t_fresh h o :
  dom o = dom (orecs h) →
  new_data_t (mkHeap (nodes h) o) = new_data_t h
  ∧ nodes h !! new_data_t h = None
  ∧ orecs h !! new_data_t h = None.
Proof.
  intros Hdom. unfold new_data_t. simpl. rewrite Hdom. split; [done|].
  pose proof (is_fresh (dom (nodes h) ∪ dom (orecs h))) as Hf.
  split; apply not_elem_of_dom; intros Hin; apply Hf, elem_of_union; auto.
Qed.

Lemma insert_absent h l me op key val :
  well_formed h l → quiet h l → ExoTM.acquired (Raii.exo op) = [] →
  key ∉ keys l →
  ∃ h' me' op',
    insert (S (length l)) h me op key val = Done true h' me' op'
    ∧ well_formed h' (place (new_data_t h, key, val) l)
    ∧ nodes h !! new_data_t h = None
    ∧ dom (nodes h') = {[new_data_t h]} ∪ dom (nodes h)
    ∧ (∀ p nd, nodes h !! p = Some nd →
         ∃ nd', nodes h' !! p = Some nd' ∧ data nd' = data nd).
Proof.
  intros (Hl & Hsort & Hnd) Hq Hacq Hnin.
  destruct (get_leq_alone h key false l (clear me) (S (length l)))
    as (me' & tx' & v & Hret & Hv & Hvne); [done|done|done|lia|].
  set (n := pred_of key false head l) in *.
  pose proof (pred_of_in key false head l) as Hn_in. fold n in Hn_in.
  (* the key test fails *)
  assert ((if decide (n = head) then Some false
           else k ← key_of (mem_of END_OF_TIME h) n;
                Some (bool_decide (k = key))) = Some false) as Htest.
  { destruct (decide (n = head)) as [|Hne]; [done|].
    destruct (pred_of_absent key head l Hnin) as [?|(k & v' & Hin & Hlt)];
      [done|]. fold n in Hin.
    destruct (list_from_lookup h head l _ _ _ Hl Hin) as (ndq & Hndq & Hd).
    rewrite (key_of_alone h _ _ _ _ Hndq Hd). simpl.
    rewrite bool_decide_false by lia. done. }
  (* the node is there *)
  assert (∃ nd, nodes h !! n = Some nd) as [nd Hnode].
  { apply elem_of_cons in Hn_in as [->|Hin].
    - by apply list_from_start in Hl as [nd ?]; eauto.
    - apply elem_of_addrs in Hin as (k & v' & Hin).
      destruct (list_from_lookup h head l _ _ _ Hl Hin) as (ndq & ? & _). eauto. }
  (* the new node *)
  set (o1 := <[n := ExoTM.Locked (ExoTM.thread (Raii.exo op))]> (orecs h)).
  assert (dom o1 = dom (orecs h)) as Hdom.
  { subst o1. rewrite dom_insert_L.
    assert (n ∈ dom (orecs h)) as Hin by (apply elem_of_dom; by eexists).
    apply leibniz_equiv. intros x. rewrite elem_of_union, elem_of_singleton.
    split; [intros [->|?]; done|auto]. }
  destruct (new_data_t_fresh h o1 Hdom) as (Hnew_eq & Hnew_n & Hnew_o).
  set (new := new_data_t h) in *.
  assert (new ≠ n) as Hnew_ne by (intros ->; congruence).
  assert (new ∉ head :: tail :: addrs l) as Hnew_nin.
  { intros Hin. destruct (Hq new) as (vn & Hvn & _); [|congruence].
    apply elem_of_cons in Hin as [->|Hin]; [by left|].
    apply elem_of_cons in Hin as [->|Hin]; [right; by left|by right; right]. }
  eexists _, me', _. split.
  { unfold SList.insert. simpl. rewrite Hret. simpl.
    fold n. simpl in Htest. rewrite Htest.
    unfold Raii.acquire_continuation, ExoTM.acquire_continuation. simpl.
    rewrite Hv. rewrite decide_True by done. simpl.
    fold o1. rewrite Hnode. rewrite Hnew_eq.
    unfold set_next. simpl. rewrite lookup_insert_ne by done.
    rewrite Hnode. simpl. rewrite Hacq. simpl. done. }
  simpl.
  assert (NoDup (head :: addrs l)) as Hnd_h.
  { apply NoDup_cons in Hnd as [Hh Hnd]. apply NoDup_cons in Hnd as [_ Hnd].
    apply NoDup_cons. split; [|done]. intros Hin. apply Hh. by right. }
  split; [split; [|split]|split; [done|split]].
  - eapply (list_from_insert h _ head l key val new nd); try done.
    + intros Hin. apply Hnew_nin.
      apply elem_of_cons in Hin as [->|Hin]; [by left|by right; right].
    + intros ->. apply Hnew_nin. right. by left.
  - by apply place_sorted.
  - apply NoDup_cons in Hnd as [Hh Hnd]. apply NoDup_cons in Hnd as [Ht Hnd].
    apply NoDup_cons. rewrite (addrs_place (new, key, val) l). simpl. split.
    { intros Hin. apply elem_of_cons in Hin as [->|Hin]; [by apply Hh; left|].
      apply elem_of_cons in Hin as [->|Hin];
        [apply Hnew_nin; by left|apply Hh; by right]. }
    apply NoDup_cons. split.
    { intros Hin. apply elem_of_cons in Hin as [->|Hin];
        [apply Hnew_nin; right; by left|by apply Ht]. }
    apply NoDup_cons. split; [|done].
    intros Hin. apply Hnew_nin. by right; right.
  - rewrite !dom_insert_L.
    assert (n ∈ dom (nodes h)) as Hin by (apply elem_of_dom; by eexists).
    apply leibniz_equiv. intros x. rewrite !elem_of_union, !elem_of_singleton.
    split; [intros [->|[?|?]]; auto|intros [?|?]; auto].
  - intros p ndp Hp. destruct (decide (p = n)) as [->|Hpn].
    + rewrite lookup_insert_eq. eexists. split; [done|]. simpl. congruence.
    + rewrite lookup_insert_ne by done.
      rewrite lookup_insert_ne by (intros ->; congruence). eauto.
Qed.

(** C10.  [insert] has no upsert behaviour.  On a well-formed list that no
    other thread touches during the call, and from a write-step that starts
    with nothing acquired: when a node with an equal key is present the call
    returns false and leaves the whole heap (nodes, links, values and orecs)
    as it was; when no node has an equal key the call returns true, the
    list is the old one with one freshly allocated node holding [(key, val)]
    placed in key order, no other node is added or removed, and every old
    node keeps its key and value. *)
Theorem insert_no_upsert h l me op key val :
  well_formed h l → quiet h l → ExoTM.acquired (Raii.exo op) = [] →
  (key ∈ keys l →
     ∃ me', insert (S (length l)) h me op key val = Done false h me' op)
  ∧ (key ∉ keys l →
       ∃ h' me' op',
         insert (S (length l)) h me op key val = Done true h' me' op'
         ∧ well_formed h' (place (new_data_t h, key, val) l)
         ∧ nodes h !! new_data_t h = None
         ∧ dom (nodes h') = {[new_data_t h]} ∪ dom (nodes h)
         ∧ (∀ p nd, nodes h !! p = Some nd →
              ∃ nd', nodes h' !! p = Some nd' ∧ data nd' = data nd)).
Proof.
  intros Hwf Hq Hacq. split; intros Hkey.
  - by apply insert_present.
  - by apply insert_absent.
Qed.

End WithMap.

Lemma get_leq_returns_validated_predecessor_witness :
  let h := mkHeap {[ 0%nat := mkNode 2 None;
                     2%nat := mkNode 1 (Some (5, 50)%Z);
                     1%nat := mkNode 1 None ]}
                  {[ 0%nat := ExoTM.Unlocked 0;
                     2%nat := ExoTM.Unlocked 3;
                     1%nat := ExoTM.Unlocked 0 ]} in
  let mem := mem_of 100 h in
  ∃ r me' tx,
    SList.get_leq 100 true 0 1 8 mem 2 (mkThread [] 0) 7%Z true = Return r me' tx
    ∧ _obj r ≠ 1%nat
    ∧ (_obj r = 0%nat ∨ ∃ k, key_of mem (_obj r) = Some k ∧ (k < 7)%Z)
    ∧ (Checked (_obj r) (_ver r) ∈ tx ∨ Continued (_obj r) (_ver r) ∈ tx).
Proof.
  intros h mem.
  destruct (get_leq_returns_validated_predecessor 100 true 0 1 8)
    as [Hsafe Hlive].
  destruct (Hlive h [(2%nat, 5%Z, 50%Z)] 7%Z true (mkThread [] 0))
    as (r & me' & tx & Hret).
  - done.
  - apply list_from_cons with (nd := mkNode 2 None)
                              (ndq := mkNode 1 (Some (5, 50)%Z));
      [by vm_compute|by vm_compute|by vm_compute|done|].
    by apply list_from_tail with (nd := mkNode 1 (Some (5, 50)%Z)).
  - intros p [->|[->|Hp]].
    + by exists 0.
    + by exists 0.
    + apply list_elem_of_singleton in Hp as ->. by exists 3.
  - exists r, me', tx. split; [done|].
    destruct (Hsafe mem 2%nat (mkThread [] 0) 7%Z true r me' tx)
      as (Hnt & Hleq & Hval & _); [done|by constructor|done|done].
Defined.

Lemma insert_no_upsert_witness :
  let h := mkHeap {[ 0%nat := mkNode 2 None;
                     2%nat := mkNode 1 (Some (5, 50)%Z);
                     1%nat := mkNode 1 None ]}
                  {[ 0%nat := ExoTM.Unlocked 0;
                     2%nat := ExoTM.Unlocked 3;
                     1%nat := ExoTM.Unlocked 0 ]} in
  let me := mkThread [] 0 in
  let op := Raii.mkDescriptor (ExoTM.mkExo 7 4 []) in
  (∃ me', SList.insert 100 false 0 1 8 2 h me op 5%Z 99%Z = Done false h me' op)
  ∧ (∃ h' me' op',
       SList.insert 100 false 0 1 8 2 h me op 7%Z 70%Z = Done true h' me' op'
       ∧ SList.list_from 1 h' 0 [(2%nat, 5%Z, 50%Z); (3%nat, 7%Z, 70%Z)]).
Proof.
  intros h me op.
  assert (SList.well_formed 0 1 h [(2%nat, 5%Z, 50%Z)]) as Hwf.
  { split; [|split].
    - apply list_from_cons with (nd := mkNode 2 None)
                                (ndq := mkNode 1 (Some (5, 50)%Z));
        [by vm_compute|by vm_compute|by vm_compute|done|].
      by apply list_from_tail with (nd := mkNode 1 (Some (5, 50)%Z)).
    - repeat constructor.
    - by apply (bool_decide_unpack _). }
  assert (SList.quiet 100 0 1 h [(2%nat, 5%Z, 50%Z)]) as Hq.
  { intros p [->|[->|Hp]].
    - by exists 0.
    - by exists 0.
    - apply list_elem_of_singleton in Hp as ->. by exists 3. }
  split.
  - destruct (insert_no_upsert 100 false 0 1 8 h _ me op 5%Z 99%Z Hwf Hq eq_refl)
      as [Hpresent _].
    apply Hpresent. by left.
  - destruct (insert_no_upsert 100 false 0 1 8 h _ me op 7%Z 70%Z Hwf Hq eq_refl)
      as [_ Habsent].
    destruct Habsent as (h' & me' & op' & Hins & (Hl & _) & _).
    { by apply (bool_decide_unpack _). }
    by exists h', me', op'.
Defined.

End SListTheory.


(** ** The list as a map: [get], [remove] and the constructor *)

Module SListMapTheory.

Import SList.

Lemma sorted_keys_NoDup (l : list (nat * Z * Z)) :
  StronglySorted Z.lt (keys l) → NoDup (keys l).
Proof.
  induction 1 as [|k ks Hs IH Hall]; constructor; [|done].
  intros Hin. rewrite Forall_forall in Hall. specialize (Hall _ Hin). lia.
Qed.

Lemma to_map_Some l key v :
  StronglySorted Z.lt (keys l) →
  to_map l !! key = Some v ↔ ∃ q, (q, key, v) ∈ l.
Proof.
  intros Hs. unfold to_map. rewrite <- elem_of_list_to_map.
  - rewrite list_elem_of_fmap. split.
    + intros ([[q k] v'] & [= -> ->] & Hin). eauto.
    + intros (q & Hin). by exists (q, key, v).
  - rewrite <- list_fmap_compose. by apply sorted_keys_NoDup.
Qed.

Lemma to_map_None l key : to_map l !! key = None ↔ key ∉ keys l.
Proof.
  unfold to_map. rewrite <- not_elem_of_list_to_map.
  by rewrite <- list_fmap_compose.
Qed.

Lemma heap_eta h : mkHeap (nodes h) (orecs h) = h.
Proof. by destruct h. Qed.


(** *** The list without a key *)

Lemma without_cons_eq q key v l : without key ((q, key, v) :: l) = without key l.
Proof. unfold without. by rewrite filter_cons_False by (simpl; auto). Qed.

Lemma without_cons_ne q k v key l :
  k ≠ key → without key ((q, k, v) :: l) = (q, k, v) :: without key l.
Proof. intros. unfold without. by rewrite filter_cons_True. Qed.

Lemma without_absent key l : key ∉ keys l → without key l = l.
Proof.
  induction l as [|[[q k] v] l IH]; intros Hnin; [done|].
  simpl in Hnin. apply not_elem_of_cons in Hnin as [Hne Hnin].
  rewrite without_cons_ne by done. by rewrite IH.
Qed.

Lemma elem_of_without e key l : e ∈ without key l ↔ e ∈ l ∧ e.1.2 ≠ key.
Proof. unfold without. rewrite list_elem_of_filter. tauto. Qed.

Lemma keys_without key l : keys (without key l) = filter (λ k, k ≠ key) (keys l).
Proof.
  induction l as [|[[q k] v] l IH]; [done|].
  destruct (decide (k = key)) as [->|Hne].
  - rewrite without_cons_eq. simpl. by rewrite filter_cons_False by auto.
  - rewrite without_cons_ne by done. simpl.
    rewrite filter_cons_True by done. by rewrite IH.
Qed.

Lemma without_sorted key l :
  StronglySorted Z.lt (keys l) → StronglySorted Z.lt (keys (without key l)).
Proof.
  rewrite keys_without. generalize (keys l). intros ks.
  induction 1 as [|k ks' Hs IH Hall]; [constructor|].
  destruct (decide (k = key)) as [->|Hne].
  - by rewrite filter_cons_False by auto.
  - rewrite filter_cons_True by done. constructor; [done|].
    rewrite Forall_forall in Hall |- *. intros x Hx.
    apply list_elem_of_filter in Hx as [_ Hx]. by apply Hall.
Qed.

Lemma addrs_without_subseteq key l q : q ∈ addrs (without key l) → q ∈ addrs l.
Proof.
  rewrite !SListTheory.elem_of_addrs. intros (k & v & Hin).
  apply elem_of_without in Hin as [Hin _]. eauto.
Qed.

Lemma addrs_without_NoDup key l : NoDup (addrs l) → NoDup (addrs (without key l)).
Proof.
  induction l as [|[[q k] v] l IH]; intros Hnd; [constructor|].
  simpl in Hnd. apply NoDup_cons in Hnd as [Hq Hnd].
  destruct (decide (k = key)) as [->|Hne].
  - rewrite without_cons_eq. by apply IH.
  - rewrite without_cons_ne by done. simpl. apply NoDup_cons. split; [|by apply IH].
    intros Hin. apply Hq. by eapply addrs_without_subseteq.
Qed.

Lemma keys_not_without key l : key ∉ keys (without key l).
Proof.
  rewrite keys_without. intros Hin.
  apply list_elem_of_filter in Hin as [Hne _]. done.
Qed.

Lemma to_map_without key l :
  StronglySorted Z.lt (keys l) → to_map (without key l) = delete key (to_map l).
Proof.
  intros Hs. apply map_eq. intros k.
  destruct (decide (k = key)) as [->|Hne].
  - rewrite lookup_delete_eq. apply to_map_None, keys_not_without.
  - rewrite lookup_delete_ne by done.
    apply option_eq. intros v.
    rewrite !to_map_Some by (done || by apply without_sorted).
    split.
    + intros (q & Hin). apply elem_of_without in Hin as [Hin _]. eauto.
    + intros (q & Hin). exists q. apply elem_of_without. split; [done|].
      simpl. done.
Qed.

Lemma to_map_place q key val l :
  StronglySorted Z.lt (keys l) → key ∉ keys l →
  to_map (place (q, key, val) l) = <[key := val]> (to_map l).
Proof.
  intros Hs Hnin. apply map_eq. intros k. apply option_eq. intros v.
  rewrite to_map_Some by (by apply (SListTheory.place_sorted (q, key, val))).
  assert (∀ e, e ∈ place (q, key, val) l ↔ e = (q, key, val) ∨ e ∈ l) as Hplace.
  { clear. induction l as [|e' l IH]; intros e; simpl.
    - rewrite list_elem_of_singleton. rewrite elem_of_nil. tauto.
    - destruct (key <? e'.1.2)%Z.
      + by rewrite elem_of_cons.
      + rewrite !elem_of_cons, IH. tauto. }
  destruct (decide (k = key)) as [->|Hne].
  - rewrite lookup_insert_eq. split.
    + intros (q' & Hin). apply Hplace in Hin as [[= -> ->]|Hin]; [done|].
      exfalso. apply Hnin. apply SListTheory.elem_of_keys. eauto.
    + intros [= ->]. exists q. apply Hplace. by left.
  - rewrite lookup_insert_ne by done. rewrite to_map_Some by done. split.
    + intros (q' & Hin). apply Hplace in Hin as [[= -> -> ->]|Hin]; [done|eauto].
    + intros (q' & Hin). exists q'. apply Hplace. by right.
Qed.

Section WithMap.

Variable END_OF_TIME : N.
Variable AVOID_OREC_CHECKS : bool.
Variable head tail : nat.
Variable SNAPSHOT_FREQUENCY : Z.
Variable V_is_scalar : bool.

#[local] Abbreviation get_leq :=
  (get_leq END_OF_TIME AVOID_OREC_CHECKS head tail SNAPSHOT_FREQUENCY).
#[local] Abbreviation get_leq_alone :=
  (SListTheory.get_leq_alone END_OF_TIME AVOID_OREC_CHECKS head tail
     SNAPSHOT_FREQUENCY).
#[local] Abbreviation mem_of := (mem_of END_OF_TIME).
#[local] Abbreviation list_from := (list_from tail).
#[local] Abbreviation well_formed := (well_formed head tail).
#[local] Abbreviation quiet := (quiet END_OF_TIME head tail).
#[local] Abbreviation settled := (settled head tail).
#[local] Abbreviation get :=
  (get END_OF_TIME AVOID_OREC_CHECKS head tail SNAPSHOT_FREQUENCY V_is_scalar).
#[local] Abbreviation insert :=
  (insert END_OF_TIME AVOID_OREC_CHECKS head tail SNAPSHOT_FREQUENCY).
#[local] Abbreviation remove :=
  (remove END_OF_TIME AVOID_OREC_CHECKS head tail SNAPSHOT_FREQUENCY).
#[local] Abbreviation idle op := (ExoTM.acquired (Raii.exo op) = []).

#[local] Arguments SList.get_leq : simpl never.
#[local] Arguments SList.mem_of : simpl never.

Lemma settled_quiet b h l : b ≤ END_OF_TIME → settled b h l → quiet h l.
Proof.
  intros Hb Hs p Hp. destruct (Hs p Hp) as (v & Hv & Hlt).
  exists v. split; [done|lia].
Qed.

Lemma settled_mono b b' h l : b ≤ b' → settled b h l → settled b' h l.
Proof.
  intros Hb Hs p Hp. destruct (Hs p Hp) as (v & Hv & Hlt).
  exists v. split; [done|lia].
Qed.

Lemma well_formed_head_not_in h l : well_formed h l → head ∉ addrs l.
Proof.
  intros (_ & _ & Hnd). apply NoDup_cons in Hnd as [Hh _].
  intros Hin. apply Hh. by right.
Qed.

Lemma check_continuation_alone h me tx p v :
  orecs h !! p = Some (ExoTM.Unlocked v) →
  check_continuation (mem_of h) me tx p v
  = Some (true, tick me, Continued p v :: tx).
Proof.
  intros Hv. unfold check_continuation, SList.mem_of. cbn.
  unfold ExoTM.check_continuation. rewrite Hv.
  by rewrite bool_decide_true.
Qed.

#[local] Arguments SList.check_continuation : simpl never.

Lemma unwind_inv o op o' op' :
  Raii.unwind END_OF_TIME o op = (o', op') →
  o' = foldl ExoTM.release_revert o (ExoTM.acquired (Raii.exo op))
  ∧ idle op'
  ∧ ExoTM.thread (Raii.exo op') = ExoTM.thread (Raii.exo op).
Proof. unfold Raii.unwind. simpl. by intros [= <- <-]. Qed.

Lemma wo_end_inv o op o' op' :
  Raii.wo_end END_OF_TIME o op = (o', op') →
  o' = foldl ExoTM.release_advance o (ExoTM.acquired (Raii.exo op))
  ∧ idle op'
  ∧ ExoTM.thread (Raii.exo op') = ExoTM.thread (Raii.exo op).
Proof. unfold Raii.wo_end. simpl. by intros [= <- <-]. Qed.

(** An orec acquired at its version. *)
Lemma acquire_continuation_alone orecs op obj v :
  orecs !! obj = Some (ExoTM.Unlocked v) →
  ∃ op1,
    Raii.acquire_continuation orecs op obj v
    = Some (true, <[obj := ExoTM.Locked (ExoTM.thread (Raii.exo op))]> orecs,
            op1)
    ∧ ExoTM.acquired (Raii.exo op1)
      = (obj, v) :: ExoTM.acquired (Raii.exo op)
    ∧ ExoTM.thread (Raii.exo op1) = ExoTM.thread (Raii.exo op).
Proof.
  intros Hobj.
  unfold Raii.acquire_continuation, ExoTM.acquire_continuation.
  rewrite Hobj. rewrite decide_True by done. simpl. by eexists.
Qed.

Lemma acquire_aggressive_alone orecs op obj v :
  orecs !! obj = Some (ExoTM.Unlocked v) →
  ∃ op1,
    Raii.acquire_aggressive orecs op obj
    = Some (true, <[obj := ExoTM.Locked (ExoTM.thread (Raii.exo op))]> orecs,
            op1)
    ∧ ExoTM.acquired (Raii.exo op1)
      = (obj, v) :: ExoTM.acquired (Raii.exo op)
    ∧ ExoTM.thread (Raii.exo op1) = ExoTM.thread (Raii.exo op).
Proof.
  intros Hobj.
  unfold Raii.acquire_aggressive, ExoTM.acquire_aggressive.
  rewrite Hobj. simpl. by eexists.
Qed.

#[local] Arguments Raii.acquire_continuation : simpl never.
#[local] Arguments Raii.acquire_aggressive : simpl never.
#[local] Arguments Raii.unwind : simpl never.
#[local] Arguments Raii.wo_end : simpl never.

Lemma get_alone h l me op key fuel :
  well_formed h l → quiet h l → idle op → (length l < fuel)%nat →
  ∃ me' op',
    get fuel h me op key = Got (to_map l !! key) h me' op' ∧ idle op'.
Proof.
  intros Hwf Hq Hidle Hfuel.
  pose proof (well_formed_head_not_in h l Hwf) as Hhead.
  destruct Hwf as (Hl & Hsort & Hnd).
  destruct fuel as [|fuel]; [lia|].
  destruct (get_leq_alone h key false l (clear me) (S fuel))
    as (me' & tx' & v & Hret & Hv & Hvne); [done|done|done|done|].
  set (n := pred_of key false head l) in *.
  unfold SList.get. simpl. rewrite Hret. simpl.
  destruct (decide (key ∈ keys l)) as [Hin|Hnin].
  - destruct (SListTheory.pred_of_found key head l Hsort Hin) as [val Hfound].
    fold n in Hfound.
    destruct (SListTheory.list_from_lookup tail h head l _ _ _ Hl Hfound)
      as (ndq & Hndq & Hd).
    assert (n ≠ head) as Hne.
    { intros Heq. apply Hhead. apply SListTheory.elem_of_addrs.
      rewrite <- Heq. eauto. }
    assert (to_map l !! key = Some val) as ->.
    { apply to_map_Some; eauto. }
    rewrite decide_False by done.
    rewrite Hndq. simpl. rewrite Hd. simpl.
    rewrite bool_decide_false by (intros ?; done).
    assert (val_of h n = Some val) as Hval.
    { unfold val_of. rewrite Hndq. simpl. by rewrite Hd. }
    destruct V_is_scalar.
    + rewrite Hval. rewrite (check_continuation_alone h _ _ n v) by done.
      by eexists _, _.
    + destruct (acquire_continuation_alone (orecs h) op n v Hv)
        as (op1 & -> & Hac & _).
      rewrite Hval. simpl.
      rewrite Hac, Hidle. simpl.
      unfold ExoTM.release_revert. simpl.
      rewrite insert_insert_eq, insert_id by done.
      rewrite heap_eta. by eexists _, _.
  - assert (to_map l !! key = None) as -> by (by apply to_map_None).
    destruct (decide (n = head)) as [|Hne]; [by eexists _, _|].
    destruct (SListTheory.pred_of_absent key head l Hnin)
      as [?|(k & v' & Hin & Hlt)]; [done|]. fold n in Hin.
    destruct (SListTheory.list_from_lookup tail h head l _ _ _ Hl Hin)
      as (ndq & Hndq & Hd).
    rewrite Hndq. simpl. rewrite Hd. simpl.
    rewrite bool_decide_true by lia. by eexists _, _.
Qed.

(** *** [remove], alone *)

(** Where the search of [remove] stops, and what comes next. *)
Lemma pred_lt_next h p l key :
  list_from h p l → StronglySorted Z.lt (keys l) →
  ∃ ndp, nodes h !! pred_of key true p l = Some ndp
    ∧ (((key ∉ keys l)
        ∧ (next ndp = tail
           ∨ ∃ k v, (next ndp, k, v) ∈ l ∧ next ndp ≠ tail ∧ k ≠ key))
       ∨ (∃ v, (next ndp, key, v) ∈ l ∧ next ndp ≠ tail)).
Proof.
  induction 1 as [p nd Hp Hn|p nd ndq k v l Hp Hnt Hq Hd Hl IH]; intros Hsort.
  - exists nd. split; [done|]. left. split; [apply not_elem_of_nil|by left].
  - simpl in *. apply StronglySorted_inv in Hsort as [Hsort Hall].
    rewrite Forall_forall in Hall.
    destruct (key <=? k)%Z eqn:Hcmp.
    + apply Z.leb_le in Hcmp. exists nd. split; [done|].
      destruct (decide (k = key)) as [->|Hne].
      * right. exists v. split; [by left|done].
      * left. split.
        -- intros Hin. apply elem_of_cons in Hin as [?|Hin]; [done|].
           specialize (Hall _ Hin). lia.
        -- right. exists k, v. split; [by left|done].
    + apply Z.leb_gt in Hcmp. rewrite decide_False by lia.
      destruct (IH Hsort) as (ndp & Hndp & Hcase).
      exists ndp. split; [done|].
      destruct Hcase as [[Hnin Hnext]|(v' & Hin & Hne)].
      * left. split.
        -- intros Hin. apply elem_of_cons in Hin as [?|Hin]; [lia|done].
        -- destruct Hnext as [?|(k' & v' & Hin & ? & ?)]; [by left|].
           right. exists k', v'. split; [by right|done].
      * right. exists v'. split; [by right|done].
Qed.

(** A node that takes the successor of [q] starts the list [q] started. *)
Lemma list_from_relink h h' p q l ndq ndp' :
  list_from h q l →
  nodes h !! q = Some ndq →
  nodes h' !! p = Some ndp' → next ndp' = next ndq →
  (∀ x, x ∈ addrs l → nodes h' !! x = nodes h !! x) →
  list_from h' p l.
Proof.
  intros Hl Hq Hp Hnext Hsame.
  inversion Hl as [? nd Hnd Hn|? nd ndq' k v l' Hnd Hnt Hq' Hd Hl']; subst.
  - assert (nd = ndq) as -> by congruence.
    apply list_from_tail with (nd := ndp'); [done|congruence].
  - assert (nd = ndq) as -> by congruence.
    rewrite <- Hnext.
    apply list_from_cons with (nd := ndp') (ndq := ndq'); try done.
    + congruence.
    + rewrite Hnext. rewrite Hsame; [done|]. by left.
    + rewrite Hnext. eapply SListTheory.list_from_frame; [exact Hl'|].
      intros x Hx. apply Hsame.
      apply elem_of_cons in Hx as [->|Hx]; [by left|by right].
Qed.

(** Unlinking the node of [key] from the node the search stopped on. *)
Lemma list_from_remove h h' p l key v ndp ndc :
  list_from h p l →
  NoDup (p :: addrs l) →
  StronglySorted Z.lt (keys l) →
  nodes h !! pred_of key true p l = Some ndp →
  (next ndp, key, v) ∈ l →
  nodes h !! next ndp = Some ndc →
  nodes h' = <[pred_of key true p l := mkNode (next ndc) (data ndp)]> (nodes h) →
  list_from h' p (without key l).
Proof.
  intros Hl. revert ndp.
  induction Hl as [p nd0 Hp Hn|p nd0 ndq k v0 l Hp Hnt Hq Hd Hl IH];
    intros ndp Hnd Hsort Hpred Hin Hc Hh'.
  - by apply elem_of_nil in Hin.
  - simpl in Hpred, Hh', Hsort.
    apply StronglySorted_inv in Hsort as [Hsort Hall].
    rewrite Forall_forall in Hall.
    apply NoDup_cons in Hnd as [Hpnin Hnd].
    pose proof Hnd as Hnd'. simpl in Hnd'.
    apply NoDup_cons in Hnd' as [Hqnin Hnd'].
    destruct (key <=? k)%Z eqn:Hcmp.
    + (* the first node is the one to unlink *)
      assert (ndp = nd0) as -> by congruence.
      assert (k = key ∧ v0 = v) as [-> ->].
      { apply elem_of_cons in Hin as [[= -> ->]|Hin]; [done|].
        exfalso. apply Hqnin. apply SListTheory.elem_of_addrs. eauto. }
      assert (ndc = ndq) as -> by congruence.
      rewrite without_cons_eq.
      rewrite without_absent.
      2:{ intros Hin'. specialize (Hall _ Hin'). lia. }
      eapply (list_from_relink h h' p (next nd0) l ndq
                (mkNode (next ndq) (data nd0))); [done|done| |done|].
      * rewrite Hh'. by rewrite lookup_insert_eq.
      * intros x Hx. rewrite Hh'. rewrite lookup_insert_ne; [done|].
        intros ->. apply Hpnin. by right.
    + (* further down *)
      apply Z.leb_gt in Hcmp.
      rewrite decide_False in Hpred, Hh' by lia.
      apply elem_of_cons in Hin as [[= _ Hk _]|Hin]; [lia|].
      rewrite without_cons_ne by lia.
      pose proof (SListTheory.pred_of_in key true (next nd0) l) as Hpin.
      assert (pred_of key true (next nd0) l ≠ p) as Hnp.
      { intros Heq. apply Hpnin. by rewrite <- Heq. }
      assert (∃ ndq', nodes h' !! next nd0 = Some ndq' ∧ data ndq' = Some (k, v0))
        as (ndq' & Hq' & Hd').
      { rewrite Hh'.
        destruct (decide (pred_of key true (next nd0) l = next nd0)) as [Heq|Hneq].
        - rewrite Heq in *. rewrite lookup_insert_eq.
          eexists. split; [done|]. simpl. congruence.
        - rewrite lookup_insert_ne by done. eauto. }
      apply (list_from_cons tail h' p nd0 ndq' k v0); try done.
      * rewrite Hh'. by rewrite lookup_insert_ne.
      * by eapply IH.
Qed.

Lemma list_from_next_ne h p l x ndx :
  list_from h p l → NoDup (p :: addrs l) → tail ∉ p :: addrs l →
  x ∈ p :: addrs l → nodes h !! x = Some ndx → next ndx ≠ x.
Proof.
  induction 1 as [p nd Hp Hn|p nd ndq k v l Hp Hnt Hq Hd Hl IH];
    intros Hnd Htail Hx Hndx.
  - apply list_elem_of_singleton in Hx as ->.
    assert (ndx = nd) as -> by congruence.
    rewrite Hn. intros ->. apply Htail. by left.
  - simpl in *. apply NoDup_cons in Hnd as [Hpnin Hnd].
    apply elem_of_cons in Hx as [->|Hx].
    + assert (ndx = nd) as -> by congruence.
      intros Heq. apply Hpnin. rewrite <- Heq. by left.
    + apply IH; [done| |done|done].
      intros Hin. apply Htail. by right.
Qed.

Lemma remove_alone h l me op smr key fuel b :
  well_formed h l → settled b h l → b ≤ END_OF_TIME → idle op →
  (length l < fuel)%nat →
  ∃ h' me' op' smr',
    remove fuel h me op smr key
    = Removed (bool_decide (key ∈ keys l)) h' me' op' smr'
    ∧ idle op'
    ∧ well_formed h' (without key l)
    ∧ settled (b + 1) h' (without key l)
    ∧ (key ∉ keys l → h' = h ∧ smr' = smr)
    ∧ (key ∈ keys l →
         ∃ q v, (q, key, v) ∈ l ∧ smr' = q :: smr
           ∧ nodes h' !! q = nodes h !! q)
    ∧ dom (nodes h') = dom (nodes h)
    ∧ (∀ p nd, nodes h !! p = Some nd →
         ∃ nd', nodes h' !! p = Some nd' ∧ data nd' = data nd).
Proof.
  intros Hwf Hs Hb Hidle Hfuel.
  pose proof (settled_quiet b h l Hb Hs) as Hq.
  pose proof (well_formed_head_not_in h l Hwf) as Hhead.
  destruct Hwf as (Hl & Hsort & Hnd).
  destruct fuel as [|fuel]; [lia|].
  destruct (get_leq_alone h key true l (clear me) (S fuel))
    as (me' & tx' & v & Hret & Hv & Hvne); [done|done|done|done|].
  set (n := pred_of key true head l) in *.
  destruct (pred_lt_next h head l key Hl Hsort) as (ndp & Hndp & Hcase).
  fold n in Hndp.
  destruct (acquire_continuation_alone (orecs h) op n v Hv)
    as (op1 & Hac & Hac1 & Hth1).
  unfold SList.remove. cbn [remove_loop]. rewrite Hret. cbn beta iota.
  cbn [_obj _ver nodes orecs]. rewrite Hac. rewrite Hndp.
  assert (head ≠ tail ∧ (tail ∉ addrs l) ∧ NoDup (head :: addrs l))
    as (Hht & Htail & Hnd_h).
  { apply NoDup_cons in Hnd as [Hh Hnd]. apply NoDup_cons in Hnd as [Ht Hnd].
    split; [|split; [done|]].
    - intros ->. apply Hh. by left.
    - apply NoDup_cons. split; [|done]. intros Hin. apply Hh. by right. }
  destruct Hcase as [[Hnin Hnext]|(val & Hin & Hne)].
  - (* no node holds [key] *)
    rewrite bool_decide_false by done.
    assert ((if decide (next ndp = tail) then Some true
             else k ← key_of (mem_of (mkHeap (nodes h)
                        (<[n := ExoTM.Locked (ExoTM.thread (Raii.exo op))]>
                           (orecs h)))) (next ndp);
                  Some (bool_decide (k ≠ key))) = Some true) as ->.
    { destruct Hnext as [->|(k & v' & Hin & Hne & Hk)].
      - by rewrite decide_True.
      - rewrite decide_False by done.
        destruct (SListTheory.list_from_lookup tail h head l _ _ _ Hl Hin)
          as (ndq & Hndq & Hd).
        rewrite (SListTheory.key_of_alone END_OF_TIME _ (next ndp) ndq k v')
          by done.
        simpl. by rewrite bool_decide_true. }
    cbn [nodes orecs].
    destruct (Raii.unwind _ _ _) as [o2 op2] eqn:Hu.
    apply unwind_inv in Hu as (-> & Hidle2 & _).
    destruct (Raii.wo_end _ _ _) as [o3 op3] eqn:He.
    apply wo_end_inv in He as (-> & Hidle3 & _).
    rewrite Hac1, Hidle, Hidle2. simpl.
    unfold ExoTM.release_revert. simpl.
    rewrite insert_insert_eq, insert_id by done. rewrite heap_eta.
    rewrite without_absent by done.
    eexists _, _, _, _. split; [done|]. split; [done|].
    split; [done|]. split; [by apply (settled_mono b); [lia|]|].
    split; [done|]. split; [done|]. split; [done|]. eauto.
  - (* the node after [n] holds [key] *)
    set (c := next ndp) in *.
    assert (key ∈ keys l) as Hkey by (apply SListTheory.elem_of_keys; eauto).
    assert (c ∈ addrs l) as Hc by (apply SListTheory.elem_of_addrs; eauto).
    rewrite bool_decide_true by done.
    destruct (SListTheory.list_from_lookup tail h head l _ _ _ Hl Hin)
      as (ndc & Hndc & Hdc).
    assert (c ≠ n) as Hcn.
    { apply (list_from_next_ne h head l n ndp); try done.
      - intros Ht. apply elem_of_cons in Ht as [?|?]; [by apply Hht|done].
      - apply SListTheory.pred_of_in. }
    destruct (Hs c) as (vc & Hvc & Hvcb); [by right; right|].
    destruct (Hs n) as (v0 & Hv0 & Hvb).
    { pose proof (SListTheory.pred_of_in key true head l) as Hn. fold n in Hn.
      apply elem_of_cons in Hn as [?|?]; [by left|by right; right]. }
    assert (v0 = v) as -> by congruence.
    rewrite decide_False by done.
    rewrite (SListTheory.key_of_alone END_OF_TIME _ c ndc key val) by done.
    cbn [mbind option_bind]. rewrite bool_decide_false by (intros ?; done).
    set (o1 := <[n := ExoTM.Locked (ExoTM.thread (Raii.exo op))]> (orecs h)).
    destruct (acquire_aggressive_alone o1 op1 c vc)
      as (op2 & Hag & Hag1 & Hth2).
    { subst o1. by rewrite lookup_insert_ne. }
    rewrite Hag. rewrite Hndc.
    unfold set_next. cbn [nodes orecs]. rewrite Hndp.
    cbn [mbind option_bind nodes orecs].
    destruct (Raii.wo_end _ _ _) as [o3 op3] eqn:He.
    apply wo_end_inv in He as (-> & Hidle3 & _).
    rewrite Hag1, Hac1, Hidle. simpl. unfold ExoTM.release_advance. simpl.
    eexists _, _, _, _. split; [done|]. split; [done|].
    split; [split; [|split]|split; [|split; [done|split; [|split]]]].
    + eapply (list_from_remove h _ head l key val ndp ndc); done.
    + by apply without_sorted.
    + apply NoDup_cons in Hnd as [Hh Hnd]. apply NoDup_cons in Hnd as [Ht Hnd].
      apply NoDup_cons. split.
      { intros Hx. apply Hh. apply elem_of_cons in Hx as [->|Hx]; [by left|].
        right. by eapply addrs_without_subseteq. }
      apply NoDup_cons. split; [|by apply addrs_without_NoDup].
      intros Hx. apply Ht. by eapply addrs_without_subseteq.
    + intros p Hp. simpl.
      destruct (decide (p = n)) as [->|Hpn].
      { rewrite lookup_insert_eq. exists (v + 1). split; [done|lia]. }
      rewrite lookup_insert_ne by done.
      destruct (decide (p = c)) as [->|Hpc].
      { rewrite lookup_insert_eq. exists (vc + 1). split; [done|lia]. }
      rewrite lookup_insert_ne by done.
      rewrite lookup_insert_ne by done.
      subst o1. rewrite lookup_insert_ne by done.
      destruct (Hs p) as (vp & Hvp & Hvpb).
      { destruct Hp as [?|[?|Hp]]; [by left|by right; left|].
        right; right. by eapply addrs_without_subseteq. }
      exists vp. split; [done|lia].
    + intros _. exists c, val. split; [done|]. split; [done|].
      simpl. by rewrite lookup_insert_ne.
    + simpl. rewrite dom_insert_L.
      assert (n ∈ dom (nodes h)) as Hdom by (apply elem_of_dom; by eexists).
      apply leibniz_equiv. intros x. rewrite elem_of_union, elem_of_singleton.
      split; [intros [->|?]; done|auto].
    + intros p nd Hp. simpl. destruct (decide (p = n)) as [->|Hpn].
      * rewrite lookup_insert_eq. eexists. split; [done|]. simpl. congruence.
      * rewrite lookup_insert_ne by done. eauto.
Qed.

(** *** [insert], alone, with the versions it leaves *)

Lemma insert_alone h l me op key val fuel b :
  well_formed h l → settled b h l → b ≤ END_OF_TIME → idle op →
  (length l < fuel)%nat →
  ∃ h' me' op' l',
    insert fuel h me op key val
    = Done (bool_decide (key ∉ keys l)) h' me' op'
    ∧ idle op'
    ∧ l' = (if decide (key ∈ keys l) then l
            else place (new_data_t h, key, val) l)
    ∧ well_formed h' l'
    ∧ settled (b + 1) h' l'
    ∧ (key ∈ keys l → h' = h).
Proof.
  intros Hwf Hs Hb Hidle Hfuel.
  pose proof (settled_quiet b h l Hb Hs) as Hq.
  pose proof (well_formed_head_not_in h l Hwf) as Hhead.
  pose proof Hwf as (Hl & Hsort & Hnd).
  destruct fuel as [|fuel]; [lia|].
  destruct (get_leq_alone h key false l (clear me) (S fuel))
    as (me' & tx' & v & Hret & Hv & Hvne); [done|done|done|done|].
  set (n := pred_of key false head l) in *.
  unfold SList.insert. cbn [insert_loop]. rewrite Hret. cbn beta iota.
  cbn [_obj _ver].
  destruct (decide (key ∈ keys l)) as [Hin|Hnin].
  - rewrite bool_decide_false by auto.
    destruct (SListTheory.pred_of_found key head l Hsort Hin) as [val' Hfound].
    fold n in Hfound.
    destruct (SListTheory.list_from_lookup tail h head l _ _ _ Hl Hfound)
      as (ndq & Hndq & Hd).
    assert (n ≠ head) as Hne.
    { intros Heq. apply Hhead. apply SListTheory.elem_of_addrs.
      rewrite <- Heq. eauto. }
    rewrite decide_False by done.
    rewrite (SListTheory.key_of_alone END_OF_TIME h n ndq key val') by done.
    cbn [mbind option_bind]. rewrite bool_decide_true by done.
    eexists _, _, _, _. split; [done|]. split; [done|]. split; [done|].
    split; [done|]. split; [|done]. by apply (settled_mono b); [lia|].
  - rewrite bool_decide_true by done.
    pose proof (SListTheory.pred_of_in key false head l) as Hn_in.
    fold n in Hn_in.
    assert ((if decide (n = head) then Some false
             else k ← key_of (mem_of h) n; Some (bool_decide (k = key)))
            = Some false) as ->.
    { destruct (decide (n = head)) as [|Hne]; [done|].
      destruct (SListTheory.pred_of_absent key head l Hnin)
        as [?|(k & v' & Hin & Hlt)]; [done|]. fold n in Hin.
      destruct (SListTheory.list_from_lookup tail h head l _ _ _ Hl Hin)
        as (ndq & Hndq & Hd).
      rewrite (SListTheory.key_of_alone END_OF_TIME h n ndq k v') by done.
      cbn [mbind option_bind]. by rewrite bool_decide_false by lia. }
    assert (∃ nd, nodes h !! n = Some nd) as [nd Hnode].
    { apply elem_of_cons in Hn_in as [->|Hin].
      - by apply SListTheory.list_from_start in Hl as [nd ?]; eauto.
      - apply SListTheory.elem_of_addrs in Hin as (k & v' & Hin).
        destruct (SListTheory.list_from_lookup tail h head l _ _ _ Hl Hin)
          as (ndq & ? & _). eauto. }
    destruct (acquire_continuation_alone (orecs h) op n v Hv)
      as (op1 & Hac & Hac1 & Hth1).
    rewrite Hac.
    set (o1 := <[n := ExoTM.Locked (ExoTM.thread (Raii.exo op))]> (orecs h)).
    assert (dom o1 = dom (orecs h)) as Hdom.
    { subst o1. rewrite dom_insert_L.
      assert (n ∈ dom (orecs h)) as Hin by (apply elem_of_dom; by eexists).
      apply leibniz_equiv. intros x. rewrite elem_of_union, elem_of_singleton.
      split; [intros [->|?]; done|auto]. }
    destruct (SListTheory.new_data_t_fresh h o1 Hdom)
      as (Hnew_eq & Hnew_n & Hnew_o).
    rewrite Hnew_eq.
    set (new := new_data_t h) in *.
    assert (new ≠ n) as Hnew_ne by (intros ->; congruence).
    assert (new ∉ head :: tail :: addrs l) as Hnew_nin.
    { intros Hin. destruct (Hq new) as (vn & Hvn & _); [|congruence].
      apply elem_of_cons in Hin as [->|Hin]; [by left|].
      apply elem_of_cons in Hin as [->|Hin]; [right; by left|by right; right]. }
    cbn [nodes orecs]. rewrite Hnode.
    unfold set_next. cbn [nodes orecs]. rewrite lookup_insert_ne by done.
    rewrite Hnode. cbn [mbind option_bind nodes orecs].
    destruct (Raii.wo_end _ _ _) as [o3 op3] eqn:He.
    apply wo_end_inv in He as (-> & Hidle3 & _).
    rewrite Hac1, Hidle. simpl. unfold ExoTM.release_advance. simpl.
    assert (NoDup (head :: addrs l)) as Hnd_h.
    { apply NoDup_cons in Hnd as [Hh Hnd']. apply NoDup_cons in Hnd' as [_ Hnd'].
      apply NoDup_cons. split; [|done]. intros Hin. apply Hh. by right. }
    eexists _, _, _, _. split; [done|]. split; [done|]. split; [done|].
    split; [split; [|split]|split; [|done]].
    + eapply (SListTheory.list_from_insert tail h _ head l key val new nd);
        try done.
      * intros Hin. apply Hnew_nin.
        apply elem_of_cons in Hin as [->|Hin]; [by left|by right; right].
      * intros ->. apply Hnew_nin. right. by left.
    + by apply SListTheory.place_sorted.
    + apply NoDup_cons in Hnd as [Hh Hnd']. apply NoDup_cons in Hnd' as [Ht Hnd'].
      apply NoDup_cons.
      rewrite (SListTheory.addrs_place (new, key, val) l). simpl. split.
      { intros Hin. apply elem_of_cons in Hin as [->|Hin]; [by apply Hh; left|].
        apply elem_of_cons in Hin as [->|Hin];
          [apply Hnew_nin; by left|apply Hh; by right]. }
      apply NoDup_cons. split.
      { intros Hin. apply elem_of_cons in Hin as [->|Hin];
          [apply Hnew_nin; right; by left|by apply Ht]. }
      apply NoDup_cons. split; [|done].
      intros Hin. apply Hnew_nin. by right; right.
    + intros p Hp. simpl.
      destruct (decide (p = n)) as [->|Hpn].
      { rewrite lookup_insert_eq. destruct (Hs n) as (v0 & Hv0 & Hvb).
        { apply elem_of_cons in Hn_in as [?|?]; [by left|by right; right]. }
        assert (v0 = v) as -> by congruence.
        exists (v + 1). split; [done|lia]. }
      rewrite lookup_insert_ne by done.
      destruct (decide (p = new)) as [->|Hpnew].
      { rewrite lookup_insert_eq. exists 0. split; [done|lia]. }
      rewrite lookup_insert_ne by done.
      subst o1. rewrite lookup_insert_ne by done.
      destruct (Hs p) as (vp & Hvp & Hvpb).
      { destruct Hp as [?|[?|Hp]]; [by left|by right; left|].
        right; right.
        rewrite (SListTheory.addrs_place (new, key, val) l) in Hp. simpl in Hp.
        apply elem_of_cons in Hp as [?|?]; done. }
      exists vp. split; [done|lia].
Qed.

(** *** Calls one after the other *)

Lemma length_place e l : length (place e l) = S (length l).
Proof.
  induction l as [|e' l IH]; [done|]. simpl.
  destruct (e.1.2 <? e'.1.2)%Z; simpl; [done|]. by rewrite IH.
Qed.

Lemma length_without key l : (length (without key l) ≤ length l)%nat.
Proof. apply length_filter. Qed.

Lemma do_calls_refine fuel cs :
  ∀ s l b,
    well_formed (heap s) l → settled b (heap s) l →
    b + N.of_nat (length cs) ≤ END_OF_TIME →
    idle (descriptor s) →
    (length l + length cs < fuel)%nat →
    ∃ s' l',
      do_calls END_OF_TIME AVOID_OREC_CHECKS head tail SNAPSHOT_FREQUENCY
        V_is_scalar fuel s cs
      = Some (s', (map_calls (to_map l) cs).2)
      ∧ to_map l' = (map_calls (to_map l) cs).1
      ∧ well_formed (heap s') l'
      ∧ settled (b + N.of_nat (length cs)) (heap s') l'
      ∧ idle (descriptor s').
Proof.
  induction cs as [|c cs IH]; intros s l b Hwf Hs Hb Hidle Hfuel.
  - exists s, l. simpl. rewrite N.add_0_r. done.
  - cbn [length] in Hb, Hfuel.
    assert (∃ s1 l1,
      do_call END_OF_TIME AVOID_OREC_CHECKS head tail SNAPSHOT_FREQUENCY
        V_is_scalar fuel s c = Some (s1, (map_call (to_map l) c).2)
      ∧ to_map l1 = (map_call (to_map l) c).1
      ∧ well_formed (heap s1) l1 ∧ settled (b + 1) (heap s1) l1
      ∧ idle (descriptor s1)
      ∧ (length l1 ≤ S (length l))%nat) as (s1 & l1 & Hcall & Hmap & Hwf1 & Hs1 & Hidle1 & Hlen).
    { pose proof Hwf as (_ & Hsort & _).
      destruct c as [key|key val|key]; unfold do_call.
      - destruct (get_alone (heap s) l (thread s) (descriptor s) key fuel)
          as (me' & op' & -> & Hidle'); [done| |done|lia|].
        { eapply settled_quiet; [|done]. lia. }
        eexists _, l. simpl. split; [done|]. split; [done|]. split; [done|].
        split; [by apply (settled_mono b); [lia|]|]. split; [done|lia].
      - destruct (insert_alone (heap s) l (thread s) (descriptor s) key val fuel b)
          as (h' & me' & op' & l' & -> & Hidle' & Hl' & Hwf' & Hs' & _);
          [done|done|lia|done|lia|].
        exists (mkSession h' me' op' (smr s)), l'. simpl.
        destruct (decide (key ∈ keys l)) as [Hin|Hnin]; subst l'.
        + rewrite bool_decide_false by auto.
          destruct (to_map l !! key) as [v|] eqn:Hlook.
          2:{ apply to_map_None in Hlook. done. }
          simpl. split; [done|]. split; [done|]. split; [done|].
          split; [done|]. split; [done|lia].
        + rewrite bool_decide_true by done.
          rewrite (proj2 (to_map_None l key)) by done. simpl.
          split; [done|]. split; [by apply to_map_place|]. split; [done|].
          split; [done|]. split; [done|]. by rewrite length_place.
      - destruct (remove_alone (heap s) l (thread s) (descriptor s) (smr s)
                    key fuel b)
          as (h' & me' & op' & smr' & -> & Hidle' & Hwf' & Hs' & _);
          [done|done|lia|done|lia|].
        exists (mkSession h' me' op' smr'), (without key l). simpl.
        split.
        { do 3 f_equal. apply bool_decide_ext.
          rewrite <- not_eq_None_Some, to_map_None. split; [auto|].
          intros Hnn. by destruct (decide (key ∈ keys l)). }
        split; [by apply to_map_without|]. split; [done|].
        split; [done|]. split; [done|].
        pose proof (length_without key l). lia. }
    destruct (IH s1 l1 (b + 1)) as (s' & l' & Hrest & Hmap' & Hwf' & Hs' & Hidle');
      [done|done|lia|done|lia|].
    exists s', l'. cbn [do_calls map_calls]. rewrite Hcall. cbn [mbind option_bind].
    rewrite Hrest. cbn [mbind option_bind].
    destruct (map_call (to_map l) c) as [m1 a1] eqn:Hmc. simpl in Hmap, Hcall |- *.
    subst m1. destruct (map_calls (to_map l1) cs) as [m2 as2] eqn:Hmcs.
    simpl in *. split; [done|]. split; [done|]. split; [done|].
    split; [|done]. eapply settled_mono; [|exact Hs']. lia.
Qed.

(** *** The constructor *)

Lemma slist_omap_alone nullptr h op :
  idle op →
  ∃ hd tl h' op',
    slist_omap END_OF_TIME nullptr h op = Some (hd, tl, h', op')
    ∧ SList.well_formed hd tl h' []
    ∧ SList.settled hd tl 1 h' []
    ∧ idle op'
    ∧ nodes h !! hd = None ∧ nodes h !! tl = None
    ∧ (∀ p, p ≠ hd → p ≠ tl →
         nodes h' !! p = nodes h !! p ∧ orecs h' !! p = orecs h !! p).
Proof.
  intros Hidle. unfold slist_omap, new_node_t.
  set (hd := fresh (dom (nodes h) ∪ dom (orecs h))).
  cbn [nodes orecs].
  set (tl := fresh (dom (<[hd := mkNode nullptr None]> (nodes h))
                    ∪ dom (<[hd := ExoTM.Unlocked 0]> (orecs h)))).
  pose proof (is_fresh (dom (nodes h) ∪ dom (orecs h))) as Hhd. fold hd in Hhd.
  pose proof (is_fresh (dom (<[hd := mkNode nullptr None]> (nodes h))
                        ∪ dom (<[hd := ExoTM.Unlocked 0]> (orecs h)))) as Htl.
  fold tl in Htl. rewrite !dom_insert_L in Htl.
  rewrite !not_elem_of_union, !not_elem_of_singleton in Htl.
  rewrite !not_elem_of_union in Hhd.
  destruct Htl as [[Htl Htl_n] [_ Htl_o]]. destruct Hhd as [Hhd_n Hhd_o].
  apply not_elem_of_dom in Htl_n, Htl_o, Hhd_n, Hhd_o.
  unfold set_next. cbn [nodes orecs].
  rewrite lookup_insert_ne by done. rewrite lookup_insert_eq.
  cbn [mbind option_bind nodes orecs next data].
  destruct (Raii.wo_end _ _ _) as [o3 op3] eqn:He.
  apply wo_end_inv in He as (-> & Hidle3 & _). rewrite Hidle. simpl.
  eexists _, _, _, _. split; [done|].
  split; [split; [|split]|split; [|split; [done|split; [done|split; [done|]]]]].
  - apply list_from_tail with (nd := mkNode tl None); [|done].
    simpl. by rewrite lookup_insert_eq.
  - constructor.
  - simpl. apply NoDup_cons. split; [|apply NoDup_singleton].
    intros Hin. apply list_elem_of_singleton in Hin. done.
  - intros p [->|[->|Hp]]; simpl.
    + rewrite lookup_insert_ne by done. rewrite lookup_insert_eq.
      exists 0. split; [done|lia].
    + rewrite lookup_insert_eq. exists 0. split; [done|lia].
    + by apply elem_of_nil in Hp.
  - intros p Hp1 Hp2. simpl. by rewrite !lookup_insert_ne by done.
Qed.

End WithMap.

Section Properties.

Variable END_OF_TIME : N.
Variable AVOID_OREC_CHECKS : bool.
Variable head tail : nat.
Variable SNAPSHOT_FREQUENCY : Z.
Variable V_is_scalar : bool.

#[local] Abbreviation well_formed := (well_formed head tail).
#[local] Abbreviation settled := (settled head tail).
#[local] Abbreviation get :=
  (get END_OF_TIME AVOID_OREC_CHECKS head tail SNAPSHOT_FREQUENCY V_is_scalar).
#[local] Abbreviation insert :=
  (insert END_OF_TIME AVOID_OREC_CHECKS head tail SNAPSHOT_FREQUENCY).
#[local] Abbreviation remove :=
  (remove END_OF_TIME AVOID_OREC_CHECKS head tail SNAPSHOT_FREQUENCY).
#[local] Abbreviation do_calls :=
  (do_calls END_OF_TIME AVOID_OREC_CHECKS head tail SNAPSHOT_FREQUENCY
     V_is_scalar).
#[local] Abbreviation idle op := (ExoTM.acquired (Raii.exo op) = []).

(** The constructor makes an empty map: a well-formed list of two fresh,
    distinct sentinels; the objects that were there are as they were; and
    [get] finds no key in it. *)
Theorem slist_omap_constructs_empty_map nullptr h op me key fuel :
  idle op → (0 < fuel)%nat → 1 ≤ END_OF_TIME →
  ∃ hd tl h' op',
    slist_omap END_OF_TIME nullptr h op = Some (hd, tl, h', op')
    ∧ hd ≠ tl
    ∧ nodes h !! hd = None ∧ nodes h !! tl = None
    ∧ (∀ p, p ≠ hd → p ≠ tl →
         nodes h' !! p = nodes h !! p ∧ orecs h' !! p = orecs h !! p)
    ∧ SList.well_formed hd tl h' []
    ∧ ∃ me' op'',
        SList.get END_OF_TIME AVOID_OREC_CHECKS hd tl SNAPSHOT_FREQUENCY
          V_is_scalar fuel h' me op' key
        = Got None h' me' op''.
Proof.
  intros Hidle Hfuel Hend.
  destruct (slist_omap_alone END_OF_TIME nullptr h op Hidle)
    as (hd & tl & h' & op' & Hnew & Hwf & Hs & Hidle' & Hhd & Htl & Hsame).
  exists hd, tl, h', op'. split; [done|].
  split.
  { destruct Hwf as (_ & _ & Hnd). apply NoDup_cons in Hnd as [Hh _].
    intros ->. apply Hh. by left. }
  do 4 (split; [done|]).
  destruct (get_alone END_OF_TIME AVOID_OREC_CHECKS hd tl SNAPSHOT_FREQUENCY
              V_is_scalar h' [] me op' key fuel)
    as (me' & op'' & Hget & _); [done| |done|done|].
  { by apply (settled_quiet END_OF_TIME hd tl 1). }
  by exists me', op''.
Qed.

(** [get] alone on a well-formed list whose orecs are unlocked: it returns
    the value the list holds for [key], or [false] when no node holds
    [key], in both the scalar and the locking variant, and it leaves the
    heap as it found it. *)
Theorem get_returns_mapped_value h l me op key fuel :
  well_formed h l → quiet END_OF_TIME head tail h l → idle op →
  (length l < fuel)%nat →
  ∃ me' op',
    get fuel h me op key = Got (to_map l !! key) h me' op'
    ∧ idle op'
    ∧ (∀ v, to_map l !! key = Some v ↔ ∃ q, (q, key, v) ∈ l)
    ∧ (to_map l !! key = None ↔ key ∉ keys l).
Proof.
  intros Hwf Hq Hidle Hfuel.
  destruct (get_alone END_OF_TIME AVOID_OREC_CHECKS head tail
              SNAPSHOT_FREQUENCY V_is_scalar h l me op key fuel)
    as (me' & op' & Hget & Hidle'); [done..|].
  exists me', op'. split; [done|]. split; [done|]. split.
  - intros v. apply to_map_Some. apply Hwf.
  - apply to_map_None.
Qed.

(** [remove] alone: it returns whether a node held [key]; if none did the
    heap and the reclaim list are as before; if one did, that node is
    unlinked and handed to [reclaim], still allocated, and the other nodes
    keep their keys and values.  The list stays well formed. *)
Theorem remove_unlinks_and_reclaims h l me op smr key fuel b :
  well_formed h l → settled b h l → b ≤ END_OF_TIME → idle op →
  (length l < fuel)%nat →
  ∃ h' me' op' smr',
    remove fuel h me op smr key
    = Removed (bool_decide (key ∈ keys l)) h' me' op' smr'
    ∧ idle op'
    ∧ well_formed h' (without key l)
    ∧ settled (b + 1) h' (without key l)
    ∧ to_map (without key l) = delete key (to_map l)
    ∧ (key ∉ keys l → h' = h ∧ smr' = smr)
    ∧ (key ∈ keys l →
         ∃ q v, (q, key, v) ∈ l ∧ smr' = q :: smr
           ∧ nodes h' !! q = nodes h !! q)
    ∧ dom (nodes h') = dom (nodes h)
    ∧ (∀ p nd, nodes h !! p = Some nd →
         ∃ nd', nodes h' !! p = Some nd' ∧ data nd' = data nd).
Proof.
  intros Hwf Hs Hb Hidle Hfuel.
  destruct (remove_alone END_OF_TIME AVOID_OREC_CHECKS head tail
              SNAPSHOT_FREQUENCY h l me op smr key fuel b)
    as (h' & me' & op' & smr' & Hrem & Hidle' & Hwf' & Hs' & Hrest); [done..|].
  exists h', me', op', smr'. do 4 (split; [done|]).
  split; [|done]. apply to_map_without. apply Hwf.
Qed.

(** The list is a map.  Any sequence of [get], [insert] and [remove] calls
    by a thread that runs alone, on a well-formed list, gives the answers
    that the same calls give on a finite map, and leaves a well-formed
    list that holds the map they leave. *)
Theorem calls_refine_map fuel cs s l b :
  well_formed (heap s) l → settled b (heap s) l →
  b + N.of_nat (length cs) ≤ END_OF_TIME →
  idle (descriptor s) →
  (length l + length cs < fuel)%nat →
  ∃ s' l',
    do_calls fuel s cs = Some (s', (map_calls (to_map l) cs).2)
    ∧ to_map l' = (map_calls (to_map l) cs).1
    ∧ well_formed (heap s') l'
    ∧ settled (b + N.of_nat (length cs)) (heap s') l'
    ∧ idle (descriptor s').
Proof. apply do_calls_refine. Qed.

(** A round trip: a key that is not in the map is inserted, found with its
    value, removed and found no more; the second insertion of a key that
    is there fails and keeps the first value. *)
Theorem insert_get_remove_round_trip fuel s l b key val val' :
  well_formed (heap s) l → settled b (heap s) l →
  b + 6 ≤ END_OF_TIME →
  idle (descriptor s) →
  (length l + 6 < fuel)%nat →
  key ∉ keys l →
  ∃ s' l',
    do_calls fuel s
      [CallInsert key val; CallGet key; CallInsert key val'; CallGet key;
       CallRemove key; CallGet key]
    = Some (s', [AnsBool true; AnsGet (Some val); AnsBool false;
                 AnsGet (Some val); AnsBool true; AnsGet None])
    ∧ to_map l' = to_map l
    ∧ well_formed (heap s') l'.
Proof.
  intros Hwf Hs Hb Hidle Hfuel Hkey.
  destruct (do_calls_refine END_OF_TIME AVOID_OREC_CHECKS head tail
              SNAPSHOT_FREQUENCY V_is_scalar fuel
              [CallInsert key val; CallGet key; CallInsert key val';
               CallGet key; CallRemove key; CallGet key] s l b)
    as (s' & l' & Hcalls & Hmap & Hwf' & _); [done|done|done|done|simpl; lia|].
  apply to_map_None in Hkey.
  exists s', l'. rewrite Hcalls, Hmap. cbn [map_calls map_call].
  rewrite Hkey. rewrite !lookup_insert_eq.
  rewrite lookup_delete_eq. cbn [fst snd].
  rewrite bool_decide_true by eauto.
  split; [done|]. split; [|done].
  rewrite delete_insert_eq. by apply delete_id.
Qed.

End Properties.
(** *** On a list of one node *)

Lemma one_node_well_formed :
  SList.well_formed 0 1
    (mkHeap {[ 0%nat := mkNode 2 None;
               2%nat := mkNode 1 (Some (5, 50)%Z);
               1%nat := mkNode 1 None ]}
            {[ 0%nat := ExoTM.Unlocked 0;
               2%nat := ExoTM.Unlocked 3;
               1%nat := ExoTM.Unlocked 0 ]})
    [(2%nat, 5%Z, 50%Z)].
Proof.
  split; [|split].
  - apply list_from_cons with (nd := mkNode 2 None)
                              (ndq := mkNode 1 (Some (5, 50)%Z));
      [by vm_compute|by vm_compute|by vm_compute|done|].
    by apply list_from_tail with (nd := mkNode 1 (Some (5, 50)%Z)).
  - repeat constructor.
  - by apply (bool_decide_unpack _).
Defined.

Lemma one_node_settled :
  SList.settled 0 1 4
    (mkHeap {[ 0%nat := mkNode 2 None;
               2%nat := mkNode 1 (Some (5, 50)%Z);
               1%nat := mkNode 1 None ]}
            {[ 0%nat := ExoTM.Unlocked 0;
               2%nat := ExoTM.Unlocked 3;
               1%nat := ExoTM.Unlocked 0 ]})
    [(2%nat, 5%Z, 50%Z)].
Proof.
  intros p [->|[->|Hp]].
  - by exists 0.
  - by exists 0.
  - apply list_elem_of_singleton in Hp as ->. by exists 3.
Defined.

Lemma slist_omap_constructs_empty_map_witness :
  ∃ hd tl h' op',
    slist_omap 100 0 (mkHeap ∅ ∅) (Raii.mkDescriptor (ExoTM.mkExo 7 4 []))
    = Some (hd, tl, h', op')
    ∧ hd ≠ tl
    ∧ SList.well_formed hd tl h' []
    ∧ ∃ me' op'',
        SList.get 100 true hd tl 8 true 1 h' (mkThread [] 0) op' 3%Z
        = Got None h' me' op''.
Proof.
  destruct (slist_omap_constructs_empty_map 100 true 8 true 0 (mkHeap ∅ ∅)
              (Raii.mkDescriptor (ExoTM.mkExo 7 4 [])) (mkThread [] 0) 3%Z 1)
    as (hd & tl & h' & op' & Hnew & Hne & _ & _ & _ & Hwf & Hget);
    [reflexivity|lia|lia|].
  by exists hd, tl, h', op'.
Defined.

Lemma get_returns_mapped_value_witness :
  let h := mkHeap {[ 0%nat := mkNode 2 None;
                     2%nat := mkNode 1 (Some (5, 50)%Z);
                     1%nat := mkNode 1 None ]}
                  {[ 0%nat := ExoTM.Unlocked 0;
                     2%nat := ExoTM.Unlocked 3;
                     1%nat := ExoTM.Unlocked 0 ]} in
  let me := mkThread [] 0 in
  let op := Raii.mkDescriptor (ExoTM.mkExo 7 4 []) in
  (∃ me' op', SList.get 100 true 0 1 8 true 2 h me op 5%Z
              = Got (Some 50%Z) h me' op')
  ∧ (∃ me' op', SList.get 100 false 0 1 8 false 2 h me op 5%Z
                = Got (Some 50%Z) h me' op')
  ∧ (∃ me' op', SList.get 100 true 0 1 8 true 2 h me op 7%Z
                = Got None h me' op').
Proof.
  intros h me op.
  assert (SList.quiet 100 0 1 h [(2%nat, 5%Z, 50%Z)]) as Hq.
  { apply (settled_quiet 100 0 1 4); [lia|apply one_node_settled]. }
  split; [|split].
  - destruct (get_returns_mapped_value 100 true 0 1 8 true h _ me op 5%Z 2
                one_node_well_formed Hq eq_refl)
      as (me' & op' & Hget & _); [simpl; lia|].
    by exists me', op'.
  - destruct (get_returns_mapped_value 100 false 0 1 8 false h _ me op 5%Z 2
                one_node_well_formed Hq eq_refl)
      as (me' & op' & Hget & _); [simpl; lia|].
    by exists me', op'.
  - destruct (get_returns_mapped_value 100 true 0 1 8 true h _ me op 7%Z 2
                one_node_well_formed Hq eq_refl)
      as (me' & op' & Hget & _); [simpl; lia|].
    by exists me', op'.
Defined.

Lemma remove_unlinks_and_reclaims_witness :
  let h := mkHeap {[ 0%nat := mkNode 2 None;
                     2%nat := mkNode 1 (Some (5, 50)%Z);
                     1%nat := mkNode 1 None ]}
                  {[ 0%nat := ExoTM.Unlocked 0;
                     2%nat := ExoTM.Unlocked 3;
                     1%nat := ExoTM.Unlocked 0 ]} in
  let me := mkThread [] 0 in
  let op := Raii.mkDescriptor (ExoTM.mkExo 7 4 []) in
  (∃ h' me' op',
     SList.remove 100 true 0 1 8 2 h me op [] 5%Z
     = Removed true h' me' op' [2%nat]
     ∧ SList.list_from 1 h' 0 []
     ∧ nodes h' !! 2%nat = Some (mkNode 1 (Some (5, 50)%Z)))
  ∧ (∃ me' op', SList.remove 100 true 0 1 8 2 h me op [] 7%Z
                = Removed false h me' op' []).
Proof.
  intros h me op. split.
  - destruct (remove_unlinks_and_reclaims 100 true 0 1 8 h _ me op [] 5%Z 2 4
                one_node_well_formed one_node_settled)
      as (h' & me' & op' & smr' & Hrem & _ & (Hl & _) & _ & _ & _ & Hin & _);
      [lia|reflexivity|simpl; lia|].
    destruct Hin as (q & v & Hq & -> & Hnode); [by left|].
    apply list_elem_of_singleton in Hq. injection Hq as -> ->.
    exists h', me', op'. by rewrite Hnode.
  - destruct (remove_unlinks_and_reclaims 100 true 0 1 8 h _ me op [] 7%Z 2 4
                one_node_well_formed one_node_settled)
      as (h' & me' & op' & smr' & Hrem & _ & _ & _ & _ & Hnin & _);
      [lia|reflexivity|simpl; lia|].
    destruct Hnin as [-> ->]; [by apply (bool_decide_unpack _)|].
    rewrite bool_decide_false in Hrem by (by apply (bool_decide_unpack _)).
    by exists me', op'.
Defined.

Lemma calls_refine_map_witness :
  let h := mkHeap {[ 0%nat := mkNode 2 None;
                     2%nat := mkNode 1 (Some (5, 50)%Z);
                     1%nat := mkNode 1 None ]}
                  {[ 0%nat := ExoTM.Unlocked 0;
                     2%nat := ExoTM.Unlocked 3;
                     1%nat := ExoTM.Unlocked 0 ]} in
  let s := mkSession h (mkThread [] 0)
             (Raii.mkDescriptor (ExoTM.mkExo 7 4 [])) [] in
  ∃ s' l',
    SList.do_calls 100 true 0 1 8 true 6 s
      [CallInsert 7 70; CallGet 7; CallRemove 5; CallInsert 7 71]
    = Some (s', [AnsBool true; AnsGet (Some 70%Z); AnsBool true; AnsBool false])
    ∧ to_map l' = {[ 7%Z := 70%Z ]}
    ∧ SList.well_formed 0 1 (heap s') l'.
Proof.
  intros h s.
  destruct (calls_refine_map 100 true 0 1 8 true 6
              [CallInsert 7 70; CallGet 7; CallRemove 5; CallInsert 7 71]
              s _ 4 one_node_well_formed one_node_settled)
    as (s' & l' & Hcalls & Hmap & Hwf & _);
    [by vm_compute|reflexivity|simpl; lia|].
  exists s', l'. split; [|split; [|done]].
  - rewrite Hcalls. by vm_compute.
  - rewrite Hmap. by vm_compute.
Defined.

Lemma insert_get_remove_round_trip_witness :
  let h := mkHeap {[ 0%nat := mkNode 2 None;
                     2%nat := mkNode 1 (Some (5, 50)%Z);
                     1%nat := mkNode 1 None ]}
                  {[ 0%nat := ExoTM.Unlocked 0;
                     2%nat := ExoTM.Unlocked 3;
                     1%nat := ExoTM.Unlocked 0 ]} in
  let s := mkSession h (mkThread [] 0)
             (Raii.mkDescriptor (ExoTM.mkExo 7 4 [])) [] in
  ∃ s' l',
    SList.do_calls 100 false 0 1 8 false 8 s
      [CallInsert 7 70; CallGet 7; CallInsert 7 71; CallGet 7;
       CallRemove 7; CallGet 7]
    = Some (s', [AnsBool true; AnsGet (Some 70%Z); AnsBool false;
                 AnsGet (Some 70%Z); AnsBool true; AnsGet None])
    ∧ to_map l' = to_map [(2%nat, 5%Z, 50%Z)]
    ∧ SList.well_formed 0 1 (heap s') l'.
Proof.
  intros h s.
  apply (insert_get_remove_round_trip 100 false 0 1 8 false 8 s
           [(2%nat, 5%Z, 50%Z)] 4 7%Z 70%Z 71%Z
           one_node_well_formed one_node_settled);
    [lia|reflexivity|simpl; lia|by apply (bool_decide_unpack _)].
Defined.

End SListMapTheory.

(** ** Ticket locks *)

Module TicketTheory.

Import Ticket.

#[local] Open Scope Z_scope.

Lemma wrap16_range z : 0 ≤ wrap16 z < 2 ^ 16.
Proof. unfold wrap16. apply Z.mod_pos_bound. lia. Qed.

Lemma wrap16_succ_ne v : 0 ≤ v < 2 ^ 16 → wrap16 (v + 1) ≠ v.
Proof.
  intros Hv. unfold wrap16. destruct (decide (v = 2 ^ 16 - 1)) as [->|Hne].
  - by vm_compute.
  - rewrite Z.mod_small by lia. lia.
Qed.

Lemma wrap16_pred_succ v : 0 ≤ v < 2 ^ 16 → wrap16 (wrap16 (v + 1) - 1) = v.
Proof.
  intros Hv. unfold wrap16. destruct (decide (v = 2 ^ 16 - 1)) as [->|Hne].
  - by vm_compute.
  - rewrite (Z.mod_small (v + 1)) by lia.
    replace (v + 1 - 1) with v by lia. apply Z.mod_small. lia.
Qed.

Lemma to_uint32_range l : in_range l → 0 ≤ to_uint32 l < 2 ^ 32.
Proof. unfold in_range, to_uint32. lia. Qed.

Lemma to_uint32_inj a b :
  in_range a → in_range b → to_uint32 a = to_uint32 b → a = b.
Proof.
  destruct a as [va ta], b as [vb tb]. unfold in_range, to_uint32. simpl.
  intros Ha Hb Heq. f_equal; lia.
Qed.

Lemma of_to_uint32 l : in_range l → of_uint32 (to_uint32 l) = l.
Proof.
  destruct l as [v t]. unfold in_range, to_uint32, of_uint32. simpl.
  intros [Hv Ht]. f_equal.
  - rewrite Z.mul_comm, Z.mod_add by lia. apply Z.mod_small. lia.
  - rewrite Z.mul_comm, Z.div_add by lia.
    rewrite Z.div_small by lia. simpl. apply Z.mod_small. lia.
Qed.

Lemma of_uint32_in_range w : in_range (of_uint32 w).
Proof. unfold in_range, of_uint32. simpl. split; apply Z.mod_pos_bound; lia. Qed.

Lemma to_uint64_inj a b :
  tl_in_range a → tl_in_range b → to_uint64 a = to_uint64 b → a = b.
Proof.
  destruct a as [a0 a1], b as [b0 b1]. unfold tl_in_range, to_uint64. simpl.
  intros [Ha0 Ha1] [Hb0 Hb1] Heq.
  pose proof (to_uint32_range _ Ha0). pose proof (to_uint32_range _ Ha1).
  pose proof (to_uint32_range _ Hb0). pose proof (to_uint32_range _ Hb1).
  f_equal; apply to_uint32_inj; try done; lia.
Qed.

Lemma of_uint64_TLN_REMOVED :
  of_uint64 TLN_REMOVED = mk_tl (mk_tl32 0 65535) (mk_tl32 0 65535).
Proof. reflexivity. Qed.

Lemma tl32_eta l : mk_tl32 (version l) (ticket l) = l.
Proof. by destruct l. Qed.

Lemma lr_set_lr tl right l : lr (set_lr tl right l) right = l.
Proof. by destruct right. Qed.

Lemma lr_set_lr_ne tl right l : lr (set_lr tl right l) (negb right) = lr tl (negb right).
Proof. by destruct right. Qed.

Lemma set_lr_lr tl right : set_lr tl right (lr tl right) = tl.
Proof. by destruct tl, right. Qed.

Lemma set_lr_set_lr tl right a b : set_lr (set_lr tl right a) right b = set_lr tl right b.
Proof. by destruct right. Qed.

Lemma lr_in_range tl right : tl_in_range tl → in_range (lr tl right).
Proof. intros [? ?]. by destruct right. Qed.

Lemma set_lr_in_range tl right l :
  tl_in_range tl → in_range l → tl_in_range (set_lr tl right l).
Proof. intros [? ?] ?. by destruct right. Qed.

(** What a successful [tl_trylock_version] found and did. *)
Lemma tl_trylock_version_true tl tl_old right tl' :
  tl_in_range tl → tl_in_range tl_old →
  tl_trylock_version tl tl_old right = (tl', true) →
  free tl_old right
  ∧ lr tl right = lr tl_old right
  ∧ tl' = set_lr tl right
            (mk_tl32 (version (lr tl right))
               (wrap16 (version (lr tl right) + 1))).
Proof.
  intros Htl Hold. unfold tl_trylock_version, CASV32, free.
  pose proof (lr_in_range tl right Htl) as Hr.
  pose proof (lr_in_range tl_old right Hold) as Hro.
  destruct (decide (version (lr tl_old right) ≠ ticket (lr tl_old right)))
    as [|Hfree]; [done|].
  apply dec_stable in Hfree.
  destruct (decide _) as [Heq|]; [|done].
  intros [= <-].
  assert (lr tl right = mk_tl32 (version (lr tl_old right))
                          (version (lr tl_old right))) as Hlr.
  { apply to_uint32_inj; [done| |done]. destruct Hro. by split. }
  assert (lr tl right = lr tl_old right) as Hsame.
  { rewrite Hlr. destruct (lr tl_old right) as [v t]. simpl in *. by subst. }
  split; [done|]. split; [done|].
  rewrite of_to_uint32.
  - by rewrite Hsame.
  - split; simpl; [apply Hro|apply wrap16_range].
Qed.

(** A side that is not free cannot be locked, whatever the snapshot. *)
Lemma tl_trylock_version_held tl snap right :
  tl_in_range tl → tl_in_range snap →
  ¬ free tl right →
  tl_trylock_version tl snap right = (tl, false).
Proof.
  intros Htl Hsnap Hheld.
  destruct (tl_trylock_version tl snap right) as [tl' [|]] eqn:Htry.
  - apply tl_trylock_version_true in Htry as (Hfree & Hsame & _); [|done..].
    exfalso. apply Hheld. unfold free in *. by rewrite Hsame.
  - unfold tl_trylock_version, CASV32 in Htry.
    repeat case_decide; by injection Htry as <-.
Qed.

Lemma tl_trylock_version_both_true tl tl_old tl' :
  tl_in_range tl → tl_in_range tl_old →
  tl_trylock_version_both tl tl_old = (tl', true) →
  tl = tl_old ∧ free tl false ∧ free tl true ∧ tl' = of_uint64 TLN_REMOVED.
Proof.
  intros Htl Hold. unfold tl_trylock_version_both, CASV64, free.
  destruct (decide _) as [|Hfree]; [done|].
  destruct (decide _) as [Heq|]; [|done].
  intros [= <-]. apply to_uint64_inj in Heq; [|done..]. subst tl_old.
  split; [done|]. split; [|split; [|done]]; apply dec_stable; tauto.
Qed.

Lemma tl_trylock_version_both_held tl snap right :
  tl_in_range tl → tl_in_range snap →
  ¬ free tl right →
  tl_trylock_version_both tl snap = (tl, false).
Proof.
  intros Htl Hsnap Hheld.
  destruct (tl_trylock_version_both tl snap) as [tl' [|]] eqn:Htry.
  - apply tl_trylock_version_both_true in Htry as (_ & H0 & H1 & _); [|done..].
    exfalso. apply Hheld. by destruct right.
  - unfold tl_trylock_version_both, CASV64 in Htry.
    repeat case_decide; by injection Htry as <-.
Qed.

(** Mutual exclusion.  Once [tl_trylock_version] has taken one side of a
    lock, that side is held: no [tl_trylock_version] on it and no
    [tl_trylock_version_both] succeeds, whatever snapshot it comes with,
    and the lock is left as it is.  The other side is not affected. *)
Theorem tl_trylock_version_excludes tl tl_old right tl' :
  tl_in_range tl → tl_in_range tl_old →
  tl_trylock_version tl tl_old right = (tl', true) →
  tl_in_range tl'
  ∧ ¬ free tl' right
  ∧ lr tl' (negb right) = lr tl (negb right)
  ∧ (∀ snap, tl_in_range snap →
       tl_trylock_version tl' snap right = (tl', false))
  ∧ (∀ snap, tl_in_range snap →
       tl_trylock_version_both tl' snap = (tl', false))
  ∧ (∀ snap,
       (tl_trylock_version tl' snap (negb right)).2
       = (tl_trylock_version tl snap (negb right)).2).
Proof.
  intros Htl Hold Htry.
  apply tl_trylock_version_true in Htry as (Hfree & Hsame & ->); [|done..].
  pose proof (lr_in_range tl right Htl) as [Hv Ht].
  set (l := mk_tl32 _ _).
  assert (tl_in_range (set_lr tl right l)) as Hin'.
  { apply set_lr_in_range; [done|]. split; [done|apply wrap16_range]. }
  assert (¬ free (set_lr tl right l) right) as Hheld.
  { unfold free. rewrite lr_set_lr. simpl. intros Heq.
    by apply (wrap16_succ_ne (version (lr tl right))). }
  split; [done|]. split; [done|]. split; [apply lr_set_lr_ne|].
  split; [|split].
  - intros snap Hsnap. by apply tl_trylock_version_held.
  - intros snap Hsnap. by apply (tl_trylock_version_both_held _ _ right).
  - intros snap. unfold tl_trylock_version, CASV32.
    rewrite lr_set_lr_ne. by repeat case_decide.
Qed.

(** Lock, then release.  [tl_revert] after a successful
    [tl_trylock_version] gives the lock back as it was.  [tl_unlock]
    instead leaves the side free at the next version (modulo 2^16): the
    snapshot that took the lock is stale and cannot take it again, a new
    snapshot can. *)
Theorem tl_lock_release_round_trip tl tl_old right tl' :
  tl_in_range tl → tl_in_range tl_old →
  tl_trylock_version tl tl_old right = (tl', true) →
  tl_revert tl' right = tl
  ∧ free (tl_unlock tl' right) right
  ∧ version (lr (tl_unlock tl' right) right)
    = wrap16 (version (lr tl right) + 1)
  ∧ lr (tl_unlock tl' right) (negb right) = lr tl (negb right)
  ∧ tl_trylock_version (tl_unlock tl' right) tl_old right
    = (tl_unlock tl' right, false)
  ∧ (tl_trylock_version (tl_unlock tl' right) (tl_unlock tl' right) right).2
    = true.
Proof.
  intros Htl Hold Htry.
  apply tl_trylock_version_true in Htry as (Hfree & Hsame & ->); [|done..].
  pose proof (lr_in_range tl right Htl) as [Hv Ht].
  pose proof (lr_in_range tl_old right Hold) as [Hvo Hto].
  unfold free in Hfree.
  assert (ticket (lr tl right) = version (lr tl right)) as Hfree'.
  { rewrite Hsame. done. }
  unfold tl_revert, tl_unlock. rewrite !lr_set_lr, !set_lr_set_lr. simpl.
  set (w := wrap16 (version (lr tl right) + 1)).
  assert (0 ≤ w < 2 ^ 16) as Hw by apply wrap16_range.
  assert (w ≠ version (lr tl right)) as Hne by (by apply wrap16_succ_ne).
  split.
  { subst w. rewrite wrap16_pred_succ by done.
    rewrite <- Hfree' at 2. rewrite tl32_eta. apply set_lr_lr. }
  split; [unfold free; by rewrite lr_set_lr|].
  split; [done|]. split; [apply lr_set_lr_ne|].
  split.
  - unfold tl_trylock_version, CASV32. rewrite lr_set_lr.
    rewrite decide_False by (intros Hn; by apply Hn).
    rewrite decide_False; [done|].
    unfold to_uint32. simpl. rewrite <- Hsame. lia.
  - unfold tl_trylock_version, CASV32. rewrite !lr_set_lr. simpl.
    rewrite decide_False by (intros Hn; by apply Hn).
    by rewrite decide_True.
Qed.

(** A removed node stays locked.  A successful [tl_trylock_version_both]
    found both sides free and the lock equal to the snapshot, and stores
    [TLN_REMOVED]: version 0 and ticket 0xFFFF on both sides.  From then
    on every [tl_trylock_version] and [tl_trylock_version_both] fails,
    whatever the side and the snapshot. *)
Theorem tl_removed_stays_locked tl tl_old tl' :
  tl_in_range tl → tl_in_range tl_old →
  tl_trylock_version_both tl tl_old = (tl', true) →
  tl = tl_old
  ∧ free tl false ∧ free tl true
  ∧ tl' = mk_tl (mk_tl32 0 65535) (mk_tl32 0 65535)
  ∧ (∀ snap right, tl_in_range snap →
       tl_trylock_version tl' snap right = (tl', false)
       ∧ tl_trylock_version_both tl' snap = (tl', false)).
Proof.
  intros Htl Hold Htry.
  apply tl_trylock_version_both_true in Htry as (-> & H0 & H1 & ->); [|done..].
  rewrite of_uint64_TLN_REMOVED.
  split; [done|]. split; [done|]. split; [done|]. split; [done|].
  assert (tl_in_range (mk_tl (mk_tl32 0 65535) (mk_tl32 0 65535))) as Hin.
  { unfold tl_in_range, in_range. simpl. lia. }
  intros snap right Hsnap.
  assert (¬ free (mk_tl (mk_tl32 0 65535) (mk_tl32 0 65535)) right) as Hheld.
  { unfold free. by destruct right. }
  split.
  - by apply tl_trylock_version_held.
  - by apply (tl_trylock_version_both_held _ _ right).
Qed.

Lemma tl_trylock_version_excludes_witness :
  let tl := mk_tl (mk_tl32 3 3) (mk_tl32 65535 65535) in
  let tl' := mk_tl (mk_tl32 3 3) (mk_tl32 65535 0) in
  tl_trylock_version tl tl true = (tl', true)
  ∧ tl_trylock_version tl' tl true = (tl', false)
  ∧ tl_trylock_version tl' tl' true = (tl', false)
  ∧ tl_trylock_version_both tl' tl' = (tl', false).
Proof.
  intros tl tl'.
  assert (tl_in_range tl) as Hin by (unfold tl_in_range, in_range; simpl; lia).
  assert (tl_in_range tl') as Hin' by (unfold tl_in_range, in_range; simpl; lia).
  destruct (tl_trylock_version_excludes tl tl true tl' Hin Hin eq_refl)
    as (_ & _ & _ & Hside & Hboth & _).
  split; [reflexivity|]. split; [by apply Hside|].
  split; [by apply Hside|by apply Hboth].
Defined.

Lemma tl_lock_release_round_trip_witness :
  let tl := mk_tl (mk_tl32 3 3) (mk_tl32 65535 65535) in
  let tl' := mk_tl (mk_tl32 3 3) (mk_tl32 65535 0) in
  tl_trylock_version tl tl true = (tl', true)
  ∧ tl_revert tl' true = tl
  ∧ tl_unlock tl' true = mk_tl (mk_tl32 3 3) (mk_tl32 0 0)
  ∧ tl_trylock_version (tl_unlock tl' true) tl true
    = (tl_unlock tl' true, false).
Proof.
  intros tl tl'.
  assert (tl_in_range tl) as Hin by (unfold tl_in_range, in_range; simpl; lia).
  destruct (tl_lock_release_round_trip tl tl true tl' Hin Hin eq_refl)
    as (Hrevert & _ & _ & _ & Hstale & _).
  split; [reflexivity|]. split; [done|]. split; [reflexivity|done].
Defined.

Lemma tl_removed_stays_locked_witness :
  let tl := mk_tl (mk_tl32 3 3) (mk_tl32 65535 65535) in
  let removed := mk_tl (mk_tl32 0 65535) (mk_tl32 0 65535) in
  tl_trylock_version_both tl tl = (removed, true)
  ∧ to_uint64 removed = TLN_REMOVED
  ∧ tl_trylock_version removed removed false = (removed, false)
  ∧ tl_trylock_version removed tl true = (removed, false)
  ∧ tl_trylock_version_both removed removed = (removed, false).
Proof.
  intros tl removed.
  assert (tl_in_range tl) as Hin by (unfold tl_in_range, in_range; simpl; lia).
  assert (tl_in_range removed) as Hin'
    by (unfold tl_in_range, in_range; simpl; lia).
  destruct (tl_removed_stays_locked tl tl removed Hin Hin eq_refl)
    as (_ & _ & _ & _ & Hlocked).
  split; [reflexivity|]. split; [reflexivity|].
  split; [by apply Hlocked|].
  split; [by apply Hlocked|by apply (Hlocked removed true)].
Defined.

End TicketTheory.
